(** * LFG dungeon queue (P2/main.cpp): model and verification

    The program admits parties of one tank, one healer and three damage
    dealers into at most [n] concurrent dungeon instances.  The model below
    follows P2/main.cpp function by function.  Every critical section of the
    source (a block guarded by [std::lock_guard]) is one atomic step of the
    thread that executes it; threads are interleaved by a schedule.

    The prime search of P1 (three variants that share [isPrime]) follows
    the model of P2, in modules of its own. *)

From Stdlib Require Import ZArith Lia Bool.
From stdpp Require Import base option list strings sorting pretty gmap.

Local Open Scope Z_scope.

(** ** Machine integers

    All counters of the source are C++ [int]s.  Values are kept in [Z]; an
    addition whose result leaves the range of [int] has no defined result in
    C++, so [int_add] returns [None] there.  Lemma [steps_defined] shows
    that this never happens for initial counts up to [INT_MAX - 20] (tanks,
    healers) and [INT_MAX - 60] (damage dealers).

    The additions to the player pool (lines 156-158) are modelled apart:
    validation accepts every non-negative count, so with counts close to
    [INT_MAX] these sums do leave the range in a run of the program.  The
    model gives them the value the compiled program computes, the sum
    reduced to the 32 bits of an [int] ([int_wrap]). *)

Definition INT_MIN : Z := -2147483648.
Definition INT_MAX : Z := 2147483647.

Definition in_int (z : Z) : bool := (INT_MIN <=? z) && (z <=? INT_MAX).

Definition int_add (a b : Z) : option Z :=
  if in_int (a + b) then Some (a + b) else None.

(** The value of [z] in the 32 bits of an [int], two's complement. *)
Definition int_wrap (z : Z) : Z := (z - INT_MIN) mod 4294967296 + INT_MIN.

(** ** Startup validation (main, lines 194-212) *)

Definition msg_bad_n : string :=
  "Error: max concurrent instances 'n' must be >= 1. Exiting."%string.
Definition msg_swap : string :=
  "Warning: t1 > t2. Swapping the values so t1 <= t2."%string.
Definition msg_clamp : string :=
  "Warning: t2 > 15 (test limit). Clamping t2 to 15."%string.
Definition msg_bad_players : string :=
  "Error: player counts must be non-negative. Exiting."%string.

Record config := Config {
  cfg_n : Z;
  cfg_tanks : Z;
  cfg_healers : Z;
  cfg_dps : Z;
  cfg_t1 : Z;
  cfg_t2 : Z
}.

(** What [main] does after validation: return an exit code, or go on. *)
Inductive startup :=
| Exit (code : Z)
| Run (c : config).

(** Lines 199-200. *)
Definition raise_negative (t : Z) : Z := if t <? 0 then 0 else t.

(** Lines 201-204: the printed lines and the two bounds. *)
Definition swap_bounds (t1 t2 : Z) : list string * (Z * Z) :=
  if t2 <? t1 then ([msg_swap], (t2, t1)) else ([], (t1, t2)).

(** Lines 205-208. *)
Definition clamp_t2 (t2 : Z) : list string * Z :=
  if 15 <? t2 then ([msg_clamp], 15) else ([], t2).

(** The two duration bounds after lines 199-208. *)
Definition validate_bounds (t1 t2 : Z) : list string * (Z * Z) :=
  let t1 := raise_negative t1 in
  let t2 := raise_negative t2 in
  let '(w1, (t1, t2)) := swap_bounds t1 t2 in
  let '(w2, t2) := clamp_t2 t2 in
  (w1 ++ w2, (t1, t2)).

(** Lines 194-212: what is printed, and how [main] goes on. *)
Definition validate (n tanks healers dps t1 t2 : Z) : list string * startup :=
  if n <=? 0 then ([msg_bad_n], Exit 1)
  else
    let '(w, (t1, t2)) := validate_bounds t1 t2 in
    if (tanks <? 0) || (healers <? 0) || (dps <? 0)
    then (w ++ [msg_bad_players], Exit 1)
    else (w, Run (Config n tanks healers dps t1 t2)).

(** ** Shared data (the globals of lines 13-46) *)

(** [CountingSemaphore]: the mutex and the condition variable only make
    [acquire] and [release] atomic and blocking; the data is [count]. *)
Record CountingSemaphore := Semaphore { count : Z }.

(** [acquire] (lines 19-23) waits until [count > 0]: no result while the
    caller is blocked. *)
Definition acquire (s : CountingSemaphore) : option CountingSemaphore :=
  if 0 <? count s then Some (Semaphore (count s - 1)) else None.

(** [release] (lines 24-28). *)
Definition release (s : CountingSemaphore) : option CountingSemaphore :=
  c ← int_add (count s) 1; Some (Semaphore c).

(** The globals: the gate, the registry, the pool and the done flag. *)
Record globals := Globals {
  g_max_instances : Z;
  g_instance_slots : CountingSemaphore;
  g_instance_status : list string;
  g_parties_served : list Z;
  (* seconds per instance; a double in the source, which holds these sums of
     whole seconds exactly *)
  g_time_served : list Z;
  g_tanks : Z;
  g_healers : Z;
  g_dps : Z;
  g_arrival_done : bool
}.

(** Assignments to the globals. *)
Definition set_slots (s : CountingSemaphore) (g : globals) : globals :=
  Globals (g_max_instances g) s (g_instance_status g) (g_parties_served g)
    (g_time_served g) (g_tanks g) (g_healers g) (g_dps g) (g_arrival_done g).

Definition set_status (st : list string) (g : globals) : globals :=
  Globals (g_max_instances g) (g_instance_slots g) st (g_parties_served g)
    (g_time_served g) (g_tanks g) (g_healers g) (g_dps g) (g_arrival_done g).

Definition set_stats (ps ts : list Z) (g : globals) : globals :=
  Globals (g_max_instances g) (g_instance_slots g) (g_instance_status g) ps ts
    (g_tanks g) (g_healers g) (g_dps g) (g_arrival_done g).

Definition set_pool (t h d : Z) (g : globals) : globals :=
  Globals (g_max_instances g) (g_instance_slots g) (g_instance_status g)
    (g_parties_served g) (g_time_served g) t h d (g_arrival_done g).

Definition set_done (b : bool) (g : globals) : globals :=
  Globals (g_max_instances g) (g_instance_slots g) (g_instance_status g)
    (g_parties_served g) (g_time_served g) (g_tanks g) (g_healers g) (g_dps g)
    b.

(** The player pool as a triple. *)
Definition pool (g : globals) : Z * Z * Z := (g_tanks g, g_healers g, g_dps g).

(** ** try_form_party (lines 126-135)

    The whole body runs under [g_data_mutex].  The subtractions are guarded
    by the test, so they stay within [int] (lemma [try_form_party_in_int]). *)
Definition try_form_party (g : globals) : bool * globals :=
  if (1 <=? g_tanks g) && (1 <=? g_healers g) && (3 <=? g_dps g)
  then (true, set_pool (g_tanks g - 1) (g_healers g - 1) (g_dps g - 3) g)
  else (false, g).

(** ** Observable events

    The lines a run prints, and the calls and reads the claims speak about,
    in the order in which they happen. *)
Inductive event :=
| EvTryForm (formed : bool)
    (* main called try_form_party (line 251), with its result *)
| EvObserveDone (done : bool)
    (* main read g_arrival_done (line 260) *)
| EvArrival (n_t n_h n_d : Z)
    (* "[Arrival] added ..." (line 163) *)
| EvSignal
    (* the arrival thread wrote g_arrival_done (line 170) *)
| EvEntered (party inst dur : Z) (status : list string)
    (* "[Party p] entered Instance i ..." and the status line (94-96) *)
| EvError (party : Z)
    (* "[Party p] ERROR: no instance to release." (line 110) *)
| EvFinished (party inst : Z) (status : list string)
    (* "[Party p] finished Instance i." and the status line (116-117) *)
| EvSummary (total_parties : Z).
    (* "Total Parties Served: ..." (line 285) *)

(** [print_status] (lines 52-64): the statuses of the instances. *)
Definition print_status (g : globals) : list string :=
  take (Z.to_nat (g_max_instances g)) (g_instance_status g).

(** ** run_dungeon (lines 68-122) *)

(** Where a party thread stands: before the step named. *)
Inductive party_pc :=
| PStart      (* lines 70-73: draw the duration *)
| PAcquire    (* line 76: g_instance_slots->acquire() *)
| PClaim      (* lines 79-89: find and mark a free instance *)
| PEnter      (* lines 92-97: print entry *)
| PRun        (* lines 100-111: sleep, then finish and update stats *)
| PFinish     (* lines 114-118: print finish *)
| PRelease    (* line 121: g_instance_slots->release() *)
| PDone.      (* returned *)

(** The arguments and locals of one call of run_dungeon. *)
Record party := Party {
  party_id : Z;
  min_time : Z;
  max_time : Z;
  duration : Z;      (* set at line 73; 0 before *)
  instance_id : Z;   (* set at lines 79-89; -1 before *)
  p_pc : party_pc
}.

(** The same thread at another place. *)
Definition party_at (pc : party_pc) (p : party) : party :=
  Party (party_id p) (min_time p) (max_time p) (duration p) (instance_id p) pc.

(** The loop of lines 82-88, from index [i] with [iters] iterations left:
    the instance found (or -1) and the statuses.  Reading past the end of
    the vector has no defined result. *)
Fixpoint claim_loop (status : list string) (i : Z) (iters : nat)
  : option (Z * list string) :=
  match iters with
  | O => Some (-1, status)
  | S k =>
      s ← status !! Z.to_nat i;
      if decide (s = "empty"%string)
      then Some (i, <[Z.to_nat i := "active"%string]> status)
      else claim_loop status (i + 1) k
  end.

(** Lines 103-111. *)
Definition finish_instance (p : party) (g : globals)
  : option (globals * list event) :=
  if 0 <=? instance_id p then
    let i := Z.to_nat (instance_id p) in
    _ ← g_instance_status g !! i;
    served ← g_parties_served g !! i;
    time ← g_time_served g !! i;
    served' ← int_add served 1;
    Some (set_stats (<[i := served']> (g_parties_served g))
                    (<[i := time + duration p]> (g_time_served g))
            (set_status (<[i := "empty"%string]> (g_instance_status g)) g),
          [])
  else Some (g, [EvError (party_id p)]).

(** One step of a party thread; [d] is what the random generator yields,
    looked at only where line 73 draws from it.  [None]: the thread cannot
    move (blocked in [acquire], returned) or the step has no defined
    result. *)
Definition run_dungeon_step (d : Z) (p : party) (g : globals)
  : option (party * globals * list event) :=
  match p_pc p with
  | PStart =>
      if (min_time p <=? d) && (d <=? max_time p)
      then Some (Party (party_id p) (min_time p) (max_time p) d
                   (instance_id p) PAcquire, g, [])
      else None
  | PAcquire =>
      sem ← acquire (g_instance_slots g);
      Some (party_at PClaim p, set_slots sem g, [])
  | PClaim =>
      '(i, status) ← claim_loop (g_instance_status g) 0
                       (Z.to_nat (g_max_instances g));
      Some (Party (party_id p) (min_time p) (max_time p) (duration p) i PEnter,
            set_status status g, [])
  | PEnter =>
      Some (party_at PRun p, g,
            [EvEntered (party_id p) (instance_id p) (duration p)
               (print_status g)])
  | PRun =>
      '(g', evs) ← finish_instance p g;
      Some (party_at PFinish p, g', evs)
  | PFinish =>
      Some (party_at PRelease p, g,
            [EvFinished (party_id p) (instance_id p) (print_status g)])
  | PRelease =>
      sem ← release (g_instance_slots g);
      Some (party_at PDone p, set_slots sem g, [])
  | PDone => None
  end.

(** [n] consecutive steps of one party thread, nothing else running. *)
Fixpoint run_dungeon_steps (n : nat) (d : Z) (p : party) (g : globals)
  : option (party * globals * list event) :=
  match n with
  | O => Some (p, g, [])
  | S n' =>
      '(p1, g1, e1) ← run_dungeon_step d p g;
      '(p2, g2, e2) ← run_dungeon_steps n' d p1 g1;
      Some (p2, g2, e1 ++ e2)
  end.

(** A whole call of run_dungeon that no other thread interrupts. *)
Definition run_dungeon (d party_id min_time max_time : Z) (g : globals)
  : option (party * globals * list event) :=
  run_dungeon_steps 7 d (Party party_id min_time max_time 0 (-1) PStart) g.

(** ** arrival_thread_func (lines 138-172) *)

(** Where the arrival thread stands: before the step named. *)
Inductive arrival_pc :=
| ACycle      (* inside the loop body, lines 147-164 *)
| ASignal     (* lines 168-171 *)
| AReturned.

(** The arguments and the loop counter of arrival_thread_func. *)
Record arrival := Arrival {
  cycles : Z;
  min_sleep_s : Z;
  max_sleep_s : Z;
  a_i : Z;
  a_pc : arrival_pc
}.

(** The loop test [i < cycles] of line 146. *)
Definition arrival_test (cyc lo hi i : Z) : arrival :=
  Arrival cyc lo hi i (if i <? cyc then ACycle else ASignal).

(** One step of the arrival thread; [n_t], [n_h], [n_d] are what the three
    distributions of lines 142-144 yield.  The sleeps take time only.  The
    three sums of lines 156-158 are [int]s: a sum beyond [INT_MAX] wraps
    around to a negative count. *)
Definition arrival_thread_func_step (n_t n_h n_d : Z) (a : arrival)
  (g : globals) : option (arrival * globals * list event) :=
  match a_pc a with
  | ACycle =>
      if (0 <=? n_t) && (n_t <=? 2) && (0 <=? n_h) && (n_h <=? 2)
         && (0 <=? n_d) && (n_d <=? 6)
      then
        let t := int_wrap (g_tanks g + n_t) in
        let h := int_wrap (g_healers g + n_h) in
        let d := int_wrap (g_dps g + n_d) in
        Some (arrival_test (cycles a) (min_sleep_s a) (max_sleep_s a)
                (a_i a + 1),
              set_pool t h d g, [EvArrival n_t n_h n_d])
      else None
  | ASignal =>
      Some (Arrival (cycles a) (min_sleep_s a) (max_sleep_s a) (a_i a)
              AReturned,
            set_done true g, [EvSignal])
  | AReturned => None
  end.

(** ** The loop and the shutdown of main (lines 240-287) *)

(** Where main stands: before the step named. *)
Inductive main_pc :=
| MTry          (* line 251: the test of the inner while *)
| MCheck        (* lines 258-264: read g_arrival_done, break or sleep *)
| MJoinArrival  (* line 268 *)
| MJoinParties  (* line 269 *)
| MSummary      (* lines 272-287 *)
| MReturned.

(** The locals of main that the loop and the summary use. *)
Record main_thread := Main {
  m_t1 : Z;
  m_t2 : Z;
  next_party_id : Z;
  formed_any : bool;
  total_parties_all : Z;
  m_pc : main_pc
}.

(** The loop of lines 276-282 on the parties served. *)
Fixpoint sum_served (served : list Z) (i : Z) (iters : nat) (acc : Z)
  : option Z :=
  match iters with
  | O => Some acc
  | S k =>
      x ← served !! Z.to_nat i;
      acc' ← int_add acc x;
      sum_served served (i + 1) k acc'
  end.

(** A party thread that can be joined. *)
Definition party_done (p : party) : bool :=
  match p_pc p with PDone => true | _ => false end.

(** ** The whole program *)

(** The shared data, the threads, and the events so far. *)
Record state := State {
  shared : globals;
  main_th : main_thread;
  arrival_th : arrival;
  party_threads : list party;
  events : list event
}.

(** Lines 215-244: the shared data, the arrival thread started with
    (10, 1, 3), main at the head of its loop. *)
Definition init_globals (c : config) : globals :=
  Globals (cfg_n c) (Semaphore (cfg_n c))
    (replicate (Z.to_nat (cfg_n c)) "empty"%string)
    (replicate (Z.to_nat (cfg_n c)) 0)
    (replicate (Z.to_nat (cfg_n c)) 0)
    (cfg_tanks c) (cfg_healers c) (cfg_dps c) false.

(** The state when main enters its loop (line 248). *)
Definition init_state (c : config) : state :=
  State (init_globals c)
        (Main (cfg_t1 c) (cfg_t2 c) 0 false 0 MTry)
        (arrival_test 10 1 3 0)
        [] [].

(** One step of main.  In [MTry] a successful try_form_party starts a party
    thread (lines 252-254) and the inner while goes on; a failed one ends
    it.  In [MCheck] main reads the flag under the lock and breaks, or
    sleeps and starts the next iteration with [formed_any = false]
    (line 250).  The joins wait until the thread joined has returned. *)
Definition main_step (s : state) : option state :=
  let m := main_th s in
  match m_pc m with
  | MTry =>
      let '(formed, g) := try_form_party (shared s) in
      if formed then
        id ← int_add (next_party_id m) 1;
        Some (State g
                (Main (m_t1 m) (m_t2 m) id true (total_parties_all m) MTry)
                (arrival_th s)
                (party_threads s
                   ++ [Party id (m_t1 m) (m_t2 m) 0 (-1) PStart])
                (events s ++ [EvTryForm true]))
      else
        Some (State g
                (Main (m_t1 m) (m_t2 m) (next_party_id m) (formed_any m)
                   (total_parties_all m) MCheck)
                (arrival_th s) (party_threads s)
                (events s ++ [EvTryForm false]))
  | MCheck =>
      let done := g_arrival_done (shared s) in
      if done && negb (formed_any m) then
        Some (State (shared s)
                (Main (m_t1 m) (m_t2 m) (next_party_id m) (formed_any m)
                   (total_parties_all m) MJoinArrival)
                (arrival_th s) (party_threads s)
                (events s ++ [EvObserveDone done]))
      else
        Some (State (shared s)
                (Main (m_t1 m) (m_t2 m) (next_party_id m) false
                   (total_parties_all m) MTry)
                (arrival_th s) (party_threads s)
                (events s ++ [EvObserveDone done]))
  | MJoinArrival =>
      match a_pc (arrival_th s) with
      | AReturned =>
          Some (State (shared s)
                  (Main (m_t1 m) (m_t2 m) (next_party_id m) (formed_any m)
                     (total_parties_all m) MJoinParties)
                  (arrival_th s) (party_threads s) (events s))
      | _ => None
      end
  | MJoinParties =>
      if forallb party_done (party_threads s) then
        Some (State (shared s)
                (Main (m_t1 m) (m_t2 m) (next_party_id m) (formed_any m)
                   (total_parties_all m) MSummary)
                (arrival_th s) (party_threads s) (events s))
      else None
  | MSummary =>
      total ← sum_served (g_parties_served (shared s)) 0
                (Z.to_nat (g_max_instances (shared s))) 0;
      Some (State (shared s)
              (Main (m_t1 m) (m_t2 m) (next_party_id m) (formed_any m)
                 total MReturned)
              (arrival_th s) (party_threads s)
              (events s ++ [EvSummary total]))
  | MReturned => None
  end.

(** Which thread moves next, with what its random generators yield. *)
Inductive thread :=
| TMain
| TArrival (n_t n_h n_d : Z)
| TParty (k : nat) (d : Z).

(** One step of the program: the thread named moves. *)
Definition step (t : thread) (s : state) : option state :=
  match t with
  | TMain => main_step s
  | TArrival n_t n_h n_d =>
      '(a, g, evs) ← arrival_thread_func_step n_t n_h n_d (arrival_th s)
                       (shared s);
      Some (State g (main_th s) a (party_threads s) (events s ++ evs))
  | TParty k d =>
      p ← party_threads s !! k;
      '(p', g, evs) ← run_dungeon_step d p (shared s);
      Some (State g (main_th s) (arrival_th s) (<[k := p']> (party_threads s))
              (events s ++ evs))
  end.

(** A run under a schedule. *)
Fixpoint run (sched : list thread) (s : state) : option state :=
  match sched with
  | [] => Some s
  | t :: sched' => s' ← step t s; run sched' s'
  end.

(** The states of the runs that start from configuration [c]. *)
Definition reachable (c : config) (s : state) : Prop :=
  exists sched, run sched (init_state c) = Some s.

(** ** Counting, for the statements *)

(** How many elements of [l] satisfy [f]. *)
Fixpoint tally {A} (f : A -> bool) (l : list A) : Z :=
  match l with
  | [] => 0
  | x :: l' => (if f x then 1 else 0) + tally f l'
  end.

Fixpoint total (l : list Z) : Z :=
  match l with
  | [] => 0
  | x :: l' => x + total l'
  end.

(** A truth value as a count. *)
Definition b2z (b : bool) : Z := if b then 1 else 0.

Definition is_active (s : string) : bool := bool_decide (s = "active"%string).

(** The number of slots whose status is active. *)
Definition active_slots (g : globals) : Z :=
  tally is_active (g_instance_status g).

(** The permits the gate has left. *)
Definition permits (g : globals) : Z := count (g_instance_slots g).

(** A party thread between its [acquire] and its [release]. *)
Definition holds_permit (p : party) : bool :=
  match p_pc p with
  | PClaim | PEnter | PRun | PFinish | PRelease => true
  | _ => false
  end.

(** A party thread between claiming its instance and giving it back. *)
Definition holds_slot (p : party) : bool :=
  match p_pc p with
  | PEnter | PRun => true
  | _ => false
  end.

(** A party thread that holds a permit and no instance: it has acquired and
    not claimed yet, or has given the instance back and not released yet. *)
Definition in_transit (p : party) : bool :=
  match p_pc p with
  | PClaim | PFinish | PRelease => true
  | _ => false
  end.

(** A party thread past lines 103-111. *)
Definition has_finished (p : party) : bool :=
  match p_pc p with
  | PFinish | PRelease | PDone => true
  | _ => false
  end.

Definition is_formed (e : event) : bool :=
  match e with EvTryForm true => true | _ => false end.

Definition is_try (e : event) : bool :=
  match e with EvTryForm _ => true | _ => false end.

Definition is_signal (e : event) : bool :=
  match e with EvSignal => true | _ => false end.

Definition is_arrival (e : event) : bool :=
  match e with EvArrival _ _ _ => true | _ => false end.

(** The calls of try_form_party that returned true so far. *)
Definition formed_parties (s : state) : Z := tally is_formed (events s).

(** A party can be formed from the pool. *)
Definition composable (g : globals) : bool :=
  (1 <=? g_tanks g) && (1 <=? g_healers g) && (3 <=? g_dps g).

(** Main has left its loop (the break of line 260). *)
Definition loop_exited (s : state) : bool :=
  match m_pc (main_th s) with
  | MTry | MCheck => false
  | _ => true
  end.

(** What happened after main first read [g_arrival_done] as true. *)
Fixpoint after_done_observed (evs : list event) : option (list event) :=
  match evs with
  | [] => None
  | EvObserveDone true :: rest => Some rest
  | _ :: rest => after_done_observed rest
  end.

(** Main has returned and every party thread with it (after line 269). *)
Definition shut_down (s : state) : bool :=
  match m_pc (main_th s) with
  | MSummary | MReturned => true
  | _ => false
  end.

(** ** try_form_party under its lock, statement by statement

    For the claim that concurrent calls exclude one another the body of
    try_form_party (lines 126-135) is taken apart: [g_data_mutex] is a flag,
    each statement is a step of its own, and any number of callers are
    interleaved by a schedule. *)
Module Callers.

(** Where a caller stands: before the step named. *)
Inductive pc :=
| Lock                  (* line 127: lock_guard takes g_data_mutex *)
| Test                  (* line 128 *)
| SubTanks              (* line 129 *)
| SubHealers            (* line 130 *)
| SubDps                (* line 131 *)
| Unlock (result : bool)
    (* lines 132, 134: return; lock_guard gives g_data_mutex back *)
| Returned (result : bool).

Record state := State {
  g_data_mutex : bool;      (* true: held *)
  data : globals;
  callers : list pc
}.

(** One step of a caller; [None] where it cannot move: the mutex is held
    by another caller, or it has returned. *)
Definition caller_step (c : pc) (mutex : bool) (g : globals)
  : option (pc * bool * globals) :=
  match c with
  | Lock => if mutex then None else Some (Test, true, g)
  | Test =>
      if (1 <=? g_tanks g) && (1 <=? g_healers g) && (3 <=? g_dps g)
      then Some (SubTanks, mutex, g)
      else Some (Unlock false, mutex, g)
  | SubTanks =>
      Some (SubHealers, mutex,
            set_pool (g_tanks g - 1) (g_healers g) (g_dps g) g)
  | SubHealers =>
      Some (SubDps, mutex,
            set_pool (g_tanks g) (g_healers g - 1) (g_dps g) g)
  | SubDps =>
      Some (Unlock true, mutex,
            set_pool (g_tanks g) (g_healers g) (g_dps g - 3) g)
  | Unlock b => Some (Returned b, false, g)
  | Returned _ => None
  end.

(** The caller at index [k] moves. *)
Definition step (k : nat) (s : state) : option state :=
  c ← callers s !! k;
  '(c', mutex, g) ← caller_step c (g_data_mutex s) (data s);
  Some (State mutex g (<[k := c']> (callers s))).

Fixpoint run (sched : list nat) (s : state) : option state :=
  match sched with
  | [] => Some s
  | k :: sched' => s' ← step k s; run sched' s'
  end.

(** [k] callers about to call, the mutex free. *)
Definition init (k : nat) (g : globals) : state :=
  State false g (replicate k Lock).

Definition pc_tag (c : pc) : nat :=
  match c with
  | Lock => 0
  | Test => 1
  | SubTanks => 2
  | SubHealers => 3
  | SubDps => 4
  | Unlock true => 5
  | Unlock false => 6
  | Returned true => 7
  | Returned false => 8
  end.

Definition at_pc (c x : pc) : bool := Nat.eqb (pc_tag c) (pc_tag x).

(** How many callers stand at [c]. *)
Definition n_at (c : pc) (s : state) : Z := tally (at_pc c) (callers s).

Definition is_returned (c : pc) : bool :=
  match c with Returned _ => true | _ => false end.

Definition all_returned (s : state) : bool :=
  forallb is_returned (callers s).

(** A caller that saw the test of line 128 succeed. *)
Definition has_deducted (c : pc) : bool :=
  match c with
  | SubTanks | SubHealers | SubDps | Unlock true | Returned true => true
  | _ => false
  end.

End Callers.

(** ** Invariants

    The properties that the proofs carry along every run. *)

(** What ties the flag to the arrival thread and to the events. *)
Definition done_inv (s : state) : Prop :=
  (g_arrival_done (shared s) = true <-> a_pc (arrival_th s) = AReturned)
  /\ tally is_signal (events s) = (if g_arrival_done (shared s) then 1 else 0)
  /\ tally is_arrival (events s) = a_i (arrival_th s)
  /\ cycles (arrival_th s) = 10
  /\ (if a_pc (arrival_th s) is ACycle
      then 0 <= a_i (arrival_th s) < 10
      else a_i (arrival_th s) = 10)
  /\ (loop_exited s = true -> g_arrival_done (shared s) = true).

(** No counter of the pool is negative. *)
Definition pool_nonneg (g : globals) : Prop :=
  0 <= g_tanks g /\ 0 <= g_healers g /\ 0 <= g_dps g.

(** Every party thread that holds an instance holds one that is marked
    active, and no two hold the same. *)
Definition owners (status : list string) (ps : list party) : Prop :=
  (forall k p, ps !! k = Some p -> holds_slot p = true ->
     0 <= instance_id p
     /\ status !! Z.to_nat (instance_id p) = Some "active"%string)
  /\ (forall k1 k2 p1 p2,
        ps !! k1 = Some p1 -> ps !! k2 = Some p2 ->
        holds_slot p1 = true -> holds_slot p2 = true ->
        instance_id p1 = instance_id p2 -> k1 = k2).

(** The gate and the registry in step: the vectors have [n] entries,
    each "empty" or "active"; the permits left and the party threads
    between [acquire] and [release] make [n]; the active entries are the
    instances held. *)
Record slot_inv (c : config) (s : state) : Prop := SlotInv {
  si_max : g_max_instances (shared s) = cfg_n c;
  si_status : length (g_instance_status (shared s)) = Z.to_nat (cfg_n c);
  si_served : length (g_parties_served (shared s)) = Z.to_nat (cfg_n c);
  si_time : length (g_time_served (shared s)) = Z.to_nat (cfg_n c);
  si_values :
    Forall (fun x => x = "empty"%string \/ x = "active"%string)
      (g_instance_status (shared s));
  si_permits_nonneg : 0 <= permits (shared s);
  si_permits :
    permits (shared s) + tally holds_permit (party_threads s) = cfg_n c;
  si_active : active_slots (shared s) = tally holds_slot (party_threads s);
  si_owners : owners (g_instance_status (shared s)) (party_threads s)
}.

(** The gate and the registry are left as they are. *)
Definition same_registry (g g' : globals) : Prop :=
  g_max_instances g' = g_max_instances g
  /\ g_instance_slots g' = g_instance_slots g
  /\ g_instance_status g' = g_instance_status g
  /\ g_parties_served g' = g_parties_served g
  /\ g_time_served g' = g_time_served g.

(** The accounts of the parties: every try_form_party that returned true
    started one party thread, and every thread past lines 103-111 has
    added one to the parties served of one instance. *)
Record served_inv (s : state) : Prop := ServedInv {
  sv_total :
    total (g_parties_served (shared s))
    = tally has_finished (party_threads s);
  sv_formed : formed_parties s = Z.of_nat (length (party_threads s));
  sv_next : next_party_id (main_th s) = formed_parties s;
  sv_joined :
    shut_down s = true -> forallb party_done (party_threads s) = true;
  sv_summary :
    m_pc (main_th s) = MReturned ->
    total_parties_all (main_th s) = total (g_parties_served (shared s))
}.

(** The sizes of the counters: what was ever added to the pool is what is
    left of it and what went into parties. *)
Record bounds_inv (c : config) (s : state) : Prop := BoundsInv {
  bi_pool : pool_nonneg (shared s);
  bi_formed : 0 <= formed_parties s;
  bi_tanks :
    g_tanks (shared s) + formed_parties s
    <= cfg_tanks c + 2 * a_i (arrival_th s);
  bi_healers :
    g_healers (shared s) + formed_parties s
    <= cfg_healers c + 2 * a_i (arrival_th s);
  bi_dps :
    g_dps (shared s) + 3 * formed_parties s
    <= cfg_dps c + 6 * a_i (arrival_th s);
  bi_served : Forall (fun x => 0 <= x) (g_parties_served (shared s))
}.

(** Inputs for which no counter can leave the range of [int]: the arrival
    thread adds at most 20 tanks, 20 healers and 60 damage dealers. *)
Definition small_config (c : config) : Prop :=
  1 <= cfg_n c <= INT_MAX
  /\ 0 <= cfg_tanks c <= INT_MAX - 20
  /\ 0 <= cfg_healers c <= INT_MAX - 20
  /\ 0 <= cfg_dps c <= INT_MAX - 60.

(** A party thread that cannot move for a reason the source has: [d] is
    not a value the distribution of line 72 yields, [acquire] waits, or the
    thread has returned. *)
Definition party_waits (d : Z) (p : party) (g : globals) : bool :=
  match p_pc p with
  | PStart => negb ((min_time p <=? d) && (d <=? max_time p))
  | PAcquire => count (g_instance_slots g) <=? 0
  | PDone => true
  | _ => false
  end.

(** Main waits in a join, or has returned. *)
Definition main_waits (s : state) : bool :=
  match m_pc (main_th s) with
  | MJoinArrival =>
      match a_pc (arrival_th s) with AReturned => false | _ => true end
  | MJoinParties => negb (forallb party_done (party_threads s))
  | MReturned => true
  | _ => false
  end.

(** The amounts the distributions of lines 142-144 yield. *)
Definition arrival_amounts (n_t n_h n_d : Z) : bool :=
  (0 <=? n_t) && (n_t <=? 2) && (0 <=? n_h) && (n_h <=? 2)
  && (0 <=? n_d) && (n_d <=? 6).

(** Main's reads of the done flag, and those that gave true. *)
Definition is_observe (e : event) : bool :=
  match e with EvObserveDone _ => true | _ => false end.

Definition is_observe_true (e : event) : bool :=
  match e with EvObserveDone true => true | _ => false end.

(** The result of the latest call of try_form_party and what happened
    since, one event further. *)
Definition note_event (acc : option (bool * list event)) (e : event)
  : option (bool * list event) :=
  match e with
  | EvTryForm formed => Some (formed, [])
  | _ =>
      match acc with
      | Some (formed, since) => Some (formed, since ++ [e])
      | None => None
      end
  end.

(** The same over a whole list of events. *)
Definition since_last_try (evs : list event) : option (bool * list event) :=
  fold_left note_event evs None.

(** Where main stands in its loop, told from the events: at the read of
    the flag its latest try_form_party has failed; after the break that
    failed call is still the latest, and the one read of the flag since
    then gave true. *)
Definition loop_inv (s : state) : Prop :=
  match m_pc (main_th s) with
  | MTry => True
  | MCheck =>
      exists since,
        since_last_try (events s) = Some (false, since)
        /\ tally is_try since = 0
        /\ tally is_observe since = 0
  | _ =>
      exists since,
        since_last_try (events s) = Some (false, since)
        /\ tally is_try since = 0
        /\ tally is_observe since = 1
        /\ tally is_observe_true since = 1
  end.

(** The callers counted by where they stand: at most one is in the
    critical section, and then the mutex is held; the pool is (1, 1, 3)
    less what the one caller that passed the test has taken so far; a
    caller is refused only after another one has returned true. *)
Record callers_inv (k : nat) (s : Callers.state) : Prop := CallersInv {
  ci_length : length (Callers.callers s) = k;
  ci_mutex :
    Callers.n_at Callers.Test s + Callers.n_at Callers.SubTanks s
    + Callers.n_at Callers.SubHealers s + Callers.n_at Callers.SubDps s
    + Callers.n_at (Callers.Unlock true) s
    + Callers.n_at (Callers.Unlock false) s
    = b2z (Callers.g_data_mutex s);
  ci_one :
    Callers.n_at Callers.SubTanks s + Callers.n_at Callers.SubHealers s
    + Callers.n_at Callers.SubDps s + Callers.n_at (Callers.Unlock true) s
    + Callers.n_at (Callers.Returned true) s <= 1;
  ci_tanks :
    g_tanks (Callers.data s)
    = 1 - (Callers.n_at Callers.SubHealers s + Callers.n_at Callers.SubDps s
           + Callers.n_at (Callers.Unlock true) s
           + Callers.n_at (Callers.Returned true) s);
  ci_healers :
    g_healers (Callers.data s)
    = 1 - (Callers.n_at Callers.SubDps s
           + Callers.n_at (Callers.Unlock true) s
           + Callers.n_at (Callers.Returned true) s);
  ci_dps :
    g_dps (Callers.data s)
    = 3 - 3 * (Callers.n_at (Callers.Unlock true) s
               + Callers.n_at (Callers.Returned true) s);
  ci_refused :
    1 <= Callers.n_at (Callers.Unlock false) s
         + Callers.n_at (Callers.Returned false) s ->
    1 <= Callers.n_at (Callers.Returned true) s
}.

(** ** Sample runs

    The configurations and schedules at which the theorems are exercised. *)

(** Two instances and a pool of exactly one party. *)
Definition sample_config : config := Config 2 1 1 3 1 2.

(** Main forms a party, the arrival thread adds (2, 0, 5), the party
    acquires a permit and claims instance 0. *)
Definition sample_schedule : list thread :=
  [TMain; TArrival 2 0 5; TParty 0%nat 1; TParty 0%nat 0; TParty 0%nat 0].

(** A whole run with one instance and one party: main forms the party and
    finds no second one, the party thread runs to its end, the arrival
    thread adds nothing in its ten cycles and signals, main reads the flag
    twice (a party was formed in its first iteration), joins and sums. *)
Definition one_party_config : config := Config 1 1 1 3 1 1.

Definition one_party_schedule : list thread :=
  [TMain; TMain] ++ replicate 7 (TParty 0%nat 1)
  ++ replicate 10 (TArrival 0 0 0) ++ [TArrival 0 0 0]
  ++ replicate 6 TMain.

(** The state that run ends in. *)
Definition one_party_final : state :=
  State (Globals 1 (Semaphore 1) ["empty"%string] [1] [1] 0 0 0 true)
        (Main 1 1 1 false 1 MReturned)
        (Arrival 10 1 3 10 AReturned)
        [Party 1 1 1 1 0 PDone]
        ([EvTryForm true; EvTryForm false;
          EvEntered 1 0 1 ["active"%string];
          EvFinished 1 0 ["empty"%string]]
         ++ replicate 10 (EvArrival 0 0 0)
         ++ [EvSignal; EvObserveDone true; EvTryForm false;
             EvObserveDone true; EvSummary 1]).

(** No party can be formed at the start; the arrival thread adds nothing in
    nine cycles; main tries and fails; the tenth cycle adds (1, 1, 3) and
    the arrival thread signals; main then reads the flag, breaks, joins and
    sums. *)
Definition race_config : config := Config 1 0 0 0 1 1.

Definition race_schedule : list thread :=
  replicate 9 (TArrival 0 0 0)
  ++ [TMain; TArrival 1 1 3; TArrival 0 0 0; TMain; TMain; TMain; TMain].

(** ** More counting, for the further properties *)

(** The sum of [f] over [l]. *)
Fixpoint sum_over {A} (f : A -> Z) (l : list A) : Z :=
  match l with
  | [] => 0
  | x :: l' => f x + sum_over f l'
  end.

(** The seconds a party thread has added to the time served so far. *)
Definition time_added (p : party) : Z :=
  if has_finished p then duration p else 0.




Definition is_error (e : event) : bool :=
  match e with EvError _ => true | _ => false end.

(** A party thread past the claim of lines 79-89. *)
Definition past_claim (p : party) : bool :=
  match p_pc p with
  | PStart | PAcquire | PClaim => false
  | _ => true
  end.

(** A party thread past the draw of line 73. *)
Definition past_start (p : party) : bool :=
  match p_pc p with PStart => false | _ => true end.

(** The party threads as main started them: numbered from 1 in the order
    of their start, with the two bounds main validated; the duration drawn
    within the bounds, the instance found within the registry; no error
    line printed; the time served is the durations of the finished
    parties. *)
Record party_inv (c : config) (s : state) : Prop := PartyInv {
  pi_main : m_t1 (main_th s) = cfg_t1 c /\ m_t2 (main_th s) = cfg_t2 c;
  pi_ids :
    forall k p, party_threads s !! k = Some p ->
      party_id p = Z.of_nat k + 1
      /\ min_time p = cfg_t1 c /\ max_time p = cfg_t2 c;
  pi_duration :
    forall k p, party_threads s !! k = Some p -> past_start p = true ->
      min_time p <= duration p <= max_time p;
  pi_found :
    forall k p, party_threads s !! k = Some p -> past_claim p = true ->
      0 <= instance_id p < cfg_n c;
  pi_no_error : tally is_error (events s) = 0;
  pi_time :
    total (g_time_served (shared s)) = sum_over time_added (party_threads s)
}.



(** The state [sample_schedule] leads to. *)
Definition sample_state : state :=
  State (Globals 2 (Semaphore 1) ["active"; "empty"]%string [0; 0] [0; 0]
           2 0 5 false)
        (Main 1 2 1 true 0 MTry)
        (Arrival 10 1 3 1 ACycle)
        [Party 1 1 2 1 0 PEnter]
        [EvTryForm true; EvArrival 2 0 5].

(** A run with one instance and two parties, up to the joins: the first
    party holds the permit, the second waits in [acquire], the arrival
    thread has returned and main waits for the parties (line 269). *)
Definition waiting_config : config := Config 1 2 2 6 1 1.

Definition waiting_schedule : list thread :=
  [TMain; TMain; TMain; TParty 0%nat 1; TParty 0%nat 0; TParty 1%nat 1]
  ++ replicate 10 (TArrival 0 0 0) ++ [TArrival 0 0 0]
  ++ [TMain; TMain; TMain; TMain].

Definition waiting_state : state :=
  State (Globals 1 (Semaphore 0) ["empty"%string] [0] [0] 0 0 0 true)
        (Main 1 1 2 false 0 MJoinParties)
        (Arrival 10 1 3 10 AReturned)
        [Party 1 1 1 1 (-1) PClaim; Party 2 1 1 1 (-1) PAcquire]
        ([EvTryForm true; EvTryForm true; EvTryForm false]
         ++ replicate 10 (EvArrival 0 0 0)
         ++ [EvSignal; EvObserveDone true; EvTryForm false;
             EvObserveDone true]).

(** The callers on any pool.  [callers_served s] counts the callers that
    passed the test of line 128; the pool is the initial one of [g0] less
    what they have taken so far, nothing but the pool is written, the
    callers served never outnumber what the initial pool allows, and a
    caller is refused only when what is left after those served does not
    make a party. *)
Definition callers_served (s : Callers.state) : Z :=
  Callers.n_at Callers.SubTanks s + Callers.n_at Callers.SubHealers s
  + Callers.n_at Callers.SubDps s + Callers.n_at (Callers.Unlock true) s
  + Callers.n_at (Callers.Returned true) s.

Record callers_pool_inv (g0 : globals) (k : nat) (s : Callers.state)
  : Prop := CallersPoolInv {
  cp_length : length (Callers.callers s) = k;
  cp_mutex :
    Callers.n_at Callers.Test s + Callers.n_at Callers.SubTanks s
    + Callers.n_at Callers.SubHealers s + Callers.n_at Callers.SubDps s
    + Callers.n_at (Callers.Unlock true) s
    + Callers.n_at (Callers.Unlock false) s
    = b2z (Callers.g_data_mutex s);
  cp_tanks :
    g_tanks (Callers.data s)
    = g_tanks g0 - (callers_served s - Callers.n_at Callers.SubTanks s);
  cp_healers :
    g_healers (Callers.data s)
    = g_healers g0
      - (callers_served s - Callers.n_at Callers.SubTanks s
         - Callers.n_at Callers.SubHealers s);
  cp_dps :
    g_dps (Callers.data s)
    = g_dps g0
      - 3 * (Callers.n_at (Callers.Unlock true) s
             + Callers.n_at (Callers.Returned true) s);
  cp_rest :
    same_registry g0 (Callers.data s)
    /\ g_arrival_done (Callers.data s) = g_arrival_done g0;
  cp_enough :
    callers_served s <= g_tanks g0 /\ callers_served s <= g_healers g0
    /\ 3 * callers_served s <= g_dps g0;
  cp_refused :
    1 <= Callers.n_at (Callers.Unlock false) s
         + Callers.n_at (Callers.Returned false) s ->
    g_tanks g0 - callers_served s < 1
    \/ g_healers g0 - callers_served s < 1
    \/ g_dps g0 - 3 * callers_served s < 3
}.

(** A caller inside the critical section of lines 127-134. *)
Definition in_section (c : Callers.pc) : bool :=
  match c with
  | Callers.Lock | Callers.Returned _ => false
  | _ => true
  end.

(** The parties a pool holds: as many as it has tanks, healers, and
    damage dealers by threes. *)
Definition parties_in (g : globals) : Z :=
  Z.min (g_tanks g) (Z.min (g_healers g) (g_dps g / 3)).

(** The party threads main starts for [n] parties formed in a row, the last
    id used before being [id] (lines 252-254). *)
Fixpoint new_parties (id t1 t2 : Z) (n : nat) : list party :=
  match n with
  | O => []
  | S n' => Party (id + 1) t1 t2 0 (-1) PStart :: new_parties (id + 1) t1 t2 n'
  end.

(** ** The lines printed *)







(** ** CountingSemaphore with its condition variable (lines 16-33)

    In the model of the whole program a thread in [acquire] can move
    exactly when the count is positive.  Here [cv.wait] and [cv.notify_one]
    are steps of their own: a client that finds the count at 0 goes to
    sleep and moves again only after a notification (or a wake-up without
    one, which the standard allows), when it tests the count anew. *)
Module Waiting.

(** Where a client of the semaphore stands. *)
Inductive client :=
| Running     (* outside [acquire] and [release] *)
| Asleep      (* inside the [cv.wait] of line 21, the mutex released *)
| Notified.   (* woken, about to lock [m] and test [count > 0] again *)

(** The semaphore, its clients, and the calls completed so far. *)
Record state := State {
  sem : CountingSemaphore;
  clients : list client;
  acquired : Z;
  released : Z
}.

Inductive label :=
| CallAcquire (k : nat)            (* client [k] calls [acquire] *)
| Resume (k : nat)                 (* client [k], notified, tests again *)
| CallRelease (k choice : nat)     (* client [k] calls [release];
                                      [notify_one] wakes [choice] *)
| Spurious (k : nat).              (* client [k] wakes unnotified *)

Definition is_asleep (c : client) : bool :=
  match c with Asleep => true | _ => false end.

Definition is_notified (c : client) : bool :=
  match c with Notified => true | _ => false end.

(** Lines 20-22 under the mutex: with [count > 0] the client takes a
    permit and returns, otherwise it sleeps. *)
Definition test_count (k : nat) (s : state) : state :=
  match acquire (sem s) with
  | Some sem' =>
      State sem' (<[k := Running]> (clients s)) (acquired s + 1) (released s)
  | None => State (sem s) (<[k := Asleep]> (clients s)) (acquired s) (released s)
  end.

Definition step (l : label) (s : state) : option state :=
  match l with
  | CallAcquire k =>
      match clients s !! k with
      | Some Running => Some (test_count k s)
      | _ => None
      end
  | Resume k =>
      match clients s !! k with
      | Some Notified => Some (test_count k s)
      | _ => None
      end
  | CallRelease k choice =>
      match clients s !! k with
      | Some Running =>
          sem' ← release (sem s);
          if existsb is_asleep (clients s) then
            match clients s !! choice with
            | Some Asleep =>
                Some (State sem' (<[choice := Notified]> (clients s))
                        (acquired s) (released s + 1))
            | _ => None
            end
          else Some (State sem' (clients s) (acquired s) (released s + 1))
      | _ => None
      end
  | Spurious k =>
      match clients s !! k with
      | Some Asleep =>
          Some (State (sem s) (<[k := Notified]> (clients s)) (acquired s)
                  (released s))
      | _ => None
      end
  end.

Fixpoint run (sched : list label) (s : state) : option state :=
  match sched with
  | [] => Some s
  | l :: sched' => s' ← step l s; run sched' s'
  end.

(** A semaphore of [initial] permits and [k] clients outside it. *)
Definition init (initial : Z) (k : nat) : state :=
  State (Semaphore initial) (replicate k Running) 0 0.

End Waiting.

(** What holds along every run of the semaphore: the count is not
    negative; the permits left and those taken are the initial ones and
    those given back; and while a client sleeps, no more permits are left
    than clients have been notified. *)
Record waiting_inv (initial : Z) (s : Waiting.state) : Prop := WaitingInv {
  wi_nonneg : 0 <= count (Waiting.sem s);
  wi_permits :
    count (Waiting.sem s) + Waiting.acquired s
    = initial + Waiting.released s;
  wi_counts : 0 <= Waiting.acquired s /\ 0 <= Waiting.released s;
  wi_notified :
    0 < tally Waiting.is_asleep (Waiting.clients s) ->
    count (Waiting.sem s) <= tally Waiting.is_notified (Waiting.clients s)
}.

(** ** Players left behind *)

(** The state [race_schedule] ends in. *)
Definition race_final : state :=
  State (Globals 1 (Semaphore 1) ["empty"%string] [0] [0] 1 1 3 true)
        (Main 1 1 0 false 0 MReturned)
        (Arrival 10 1 3 10 AReturned)
        []
        (replicate 9 (EvArrival 0 0 0)
         ++ [EvTryForm false; EvArrival 1 1 3; EvSignal; EvObserveDone true;
             EvSummary 0]).

(** A pool that holds a party after a failed try_form_party has been added
    to since. *)
Definition stranded_inv (s : state) : Prop :=
  forall since,
    since_last_try (events s) = Some (false, since) ->
    tally is_arrival since = 0 ->
    composable (shared s) = false.

(* ===================================================================== *)
(** * The prime search (P1)

    The three variants of P1 share [isPrime]; they differ in how the
    numbers are handed to the threads and in when the primes are printed. *)

Module Primes.

(** The numbers are C++ [long long]s; an operation whose result leaves the
    range has no defined result. *)
Definition LLONG_MIN : Z := -9223372036854775808.
Definition LLONG_MAX : Z := 9223372036854775807.

Definition ll (z : Z) : option Z :=
  if (LLONG_MIN <=? z) && (z <=? LLONG_MAX) then Some z else None.

(** The loop of isPrime (variant 1, lines 45-48) from [i]; [fuel] bounds
    the iterations.  [%] is the remainder of the truncating division. *)
Fixpoint isPrime_loop (fuel : nat) (n i : Z) : option bool :=
  match fuel with
  | O => None
  | S fuel' =>
      ii ← ll (i * i);
      if ii <=? n then
        if Z.rem n i =? 0 then Some false
        else
          i2 ← ll (i + 2);
          if Z.rem n i2 =? 0 then Some false
          else i' ← ll (i + 6); isPrime_loop fuel' n i'
      else Some true
  end.

(** isPrime (variant 1, lines 41-50; the same in variants 2 and 3). *)
Definition isPrime (n : Z) : option bool :=
  if n <=? 1 then Some false
  else if n <=? 3 then Some true
  else if (Z.rem n 2 =? 0) || (Z.rem n 3 =? 0) then Some false
  else isPrime_loop (Z.to_nat n) n 5.

(** The largest candidate divisor whose square is a [long long] and that
    the loop can reach: 3037000499 = 5 + 6 * 506166749. *)
Definition last_divisor : Z := 3037000499.

(** The division of [max_number] by [thread_count] (variant 1, line 118;
    variant 2, line 104): by 0, and of LLONG_MIN by -1, it has no defined
    result. *)
Definition ll_div (a b : Z) : option Z :=
  if b =? 0 then None else ll (Z.quot a b).

(** The loop that starts the threads of variants 1 and 2 (variant 1, lines
    120-130; variant 2, lines 106-115) from [i]: the threads started, each
    with its index and the [start] and [end] it is given.  [i] is an
    [int], the products are [long long]s. *)
Fixpoint spawn_loop (fuel : nat) (i thread_count max_number range_size : Z)
  : option (list (Z * Z * Z)) :=
  match fuel with
  | O => None
  | S fuel' =>
      if i <? thread_count then
        lo ← ll (i * range_size);
        start ← ll (lo + 1);
        end_ ← (if i =? thread_count - 1 then Some max_number
                else i1 ← int_add i 1; ll (i1 * range_size));
        if max_number <? start then Some []
        else
          i' ← int_add i 1;
          rest ← spawn_loop fuel' i' thread_count max_number range_size;
          Some ((i, if (i =? 0) && (start =? 1) then 2 else start, end_)
                  :: rest)
      else Some []
  end.

(** The numbers of [l] that isPrime finds prime, in the order of [l]. *)
Definition primes_of (l : list Z) : list Z :=
  filter (fun x => isPrime x = Some true) l.

End Primes.

(** ** Variant 2: a range for each thread, the primes printed at the end *)

Module Variant2.

(** The loop of findPrimes_Range_Batched (lines 74-79) from [num]; [fuel]
    bounds the iterations. *)
Fixpoint findPrimes_Range_Batched_loop (fuel : nat) (num end_ : Z)
  (thread_results : list Z) : option (list Z) :=
  match fuel with
  | O => None
  | S fuel' =>
      if num <=? end_ then
        b ← Primes.isPrime num;
        num' ← Primes.ll (num + 1);
        findPrimes_Range_Batched_loop fuel' num' end_
          (if b : bool then thread_results ++ [num] else thread_results)
      else Some thread_results
  end.

(** findPrimes_Range_Batched (lines 73-80). *)
Definition findPrimes_Range_Batched (start end_ : Z)
  (thread_results : list Z) : option (list Z) :=
  findPrimes_Range_Batched_loop (S (Z.to_nat (end_ - start + 1))) start end_
    thread_results.

(** The threads run to their ends (joined in lines 118-120).  The thread
    with index [i] appends to [all_results[i]] and to nothing else, and
    reads nothing that another thread writes, so the vectors after the
    joins are the same for every interleaving; the threads are run here in
    the order in which they were started. *)
Fixpoint run_threads (threads : list (Z * Z * Z))
  (all_results : list (list Z)) : option (list (list Z)) :=
  match threads with
  | [] => Some all_results
  | (i, start, end_) :: threads' =>
      mine ← all_results !! Z.to_nat i;
      mine' ← findPrimes_Range_Batched start end_ mine;
      run_threads threads' (<[Z.to_nat i := mine']> all_results)
  end.

(** The constructor of [std::thread] (line 114) throws [std::system_error]
    when the system cannot start another thread.  Nothing catches it, so
    the run is aborted there, before anything of the results is printed.
    [can_start i] tells whether the system can start the thread with index
    [i]; memory is taken to suffice. *)
Definition start_threads (can_start : Z -> bool)
  (threads : list (Z * Z * Z)) : option (list (Z * Z * Z)) :=
  if forallb (fun '(i, _, _) => can_start i) threads then Some threads
  else None.

(** The inner loop of lines 135-138 on one vector: the numbers printed and
    the count, a [long long] that is incremented for each. *)
Fixpoint print_vector (results : list Z) (total_primes : Z)
  : option (list Z * Z) :=
  match results with
  | [] => Some ([], total_primes)
  | prime :: results' =>
      total_primes' ← Primes.ll (total_primes + 1);
      '(printed, total_primes'') ← print_vector results' total_primes';
      Some (prime :: printed, total_primes'')
  end.

(** The loop of lines 130-140 from index [i], an [int], over the vectors
    from [all_results[i]] on.  For each vector a line: the index and the
    size of its heading (line 134) and the numbers printed after it. *)
Fixpoint print_results (all_results : list (list Z)) (i total_primes : Z)
  : option (list (Z * Z * list Z) * Z) :=
  match all_results with
  | [] => Some ([], total_primes)
  | results :: all_results' =>
      '(printed, total_primes') ← print_vector results total_primes;
      i' ← int_add i 1;
      '(lines, total_primes'') ← print_results all_results' i' total_primes';
      Some ((i, Z.of_nat (length results), printed) :: lines,
            total_primes'')
  end.

(** main from line 95, given the two values of the configuration: the
    lines printed in lines 130-140 and the total of line 143.  [None]: the
    run has no defined result or is aborted (a negative thread count makes
    the vector of line 102 throw, a thread that cannot be started makes
    line 114 throw). *)
Definition main (can_start : Z -> bool) (thread_count max_number : Z)
  : option (list (Z * Z * list Z) * Z) :=
  if thread_count <? 0 then None
  else
    range_size ← Primes.ll_div max_number thread_count;
    threads ← Primes.spawn_loop (S (Z.to_nat thread_count)) 0 thread_count
                 max_number range_size;
    threads ← start_threads can_start threads;
    all_results ← run_threads threads
                     (replicate (Z.to_nat thread_count) []);
    print_results all_results 0 0.


End Variant2.

(** ** The ranges, in closed form *)

(** What thread [i] of variants 1 and 2 is given: [start] and [end]. *)
Definition range_start (range_size i : Z) : Z :=
  if i =? 0 then 2 else i * range_size + 1.

Definition range_end (thread_count max_number range_size i : Z) : Z :=
  if i =? thread_count - 1 then max_number else (i + 1) * range_size.

Definition range_of (thread_count max_number range_size i : Z)
  : Z * Z * Z :=
  (i, range_start range_size i,
   range_end thread_count max_number range_size i).

(** ** Variant 1: a range for each thread, each prime printed when found *)

Module Variant1.

(** A thread running findPrimes_Range_Immediate: its arguments and the
    loop variable. *)
Record thread := Thread {
  start : Z;
  end_ : Z;
  num : Z
}.

(** The threads and the lines printed so far, each with the index of the
    thread that printed it. *)
Record state := State {
  threads : list thread;
  output : list (nat * Z)
}.

(** One iteration of the loop of findPrimes_Range_Immediate (lines 86-94)
    in thread [k].  The line is printed under [cout_mutex], so it is
    printed whole; [isPrime] works on the thread's own number.  [None]: the
    thread has returned, or the step has no defined result. *)
Definition findPrimes_Range_Immediate_step (k : nat) (t : thread)
  (out : list (nat * Z)) : option (thread * list (nat * Z)) :=
  if num t <=? end_ t then
    b ← Primes.isPrime (num t);
    num' ← Primes.ll (num t + 1);
    Some (Thread (start t) (end_ t) num',
          if b : bool then out ++ [(k, num t)] else out)
  else None.

(** The thread at index [k] moves. *)
Definition step (k : nat) (s : state) : option state :=
  t ← threads s !! k;
  '(t', out) ← findPrimes_Range_Immediate_step k t (output s);
  Some (State (<[k := t']> (threads s)) out).

Fixpoint run (sched : list nat) (s : state) : option state :=
  match sched with
  | [] => Some s
  | k :: sched' => s' ← step k s; run sched' s'
  end.

(** main from line 111 to line 130, given the two values of the
    configuration: the threads started, nothing printed yet. *)
Definition main_start (thread_count max_number : Z) : option state :=
  range_size ← Primes.ll_div max_number thread_count;
  spawned ← Primes.spawn_loop (S (Z.to_nat thread_count)) 0 thread_count
               max_number range_size;
  Some (State ((fun '(_, start, end_) => Thread start end_ start)
               <$> spawned) []).

(** The thread has left its loop. *)
Definition returned (t : thread) : bool := end_ t <? num t.

(** The joins of lines 133-135 are over. *)
Definition all_returned (s : state) : bool := forallb returned (threads s).

(** The range thread [t] was given. *)
Definition range (t : thread) : Z * Z := (start t, end_ t).

(** The numbers thread [t] has looked at so far. *)
Definition searched (t : thread) : list Z := seqZ (start t) (num t - start t).

(** The lines of thread [k] among [out], in the order printed. *)
Definition lines_of (k : nat) (out : list (nat * Z)) : list Z :=
  snd <$> filter (fun line => fst line = k) out.

End Variant1.

(** What holds along every run of variant 1: each thread is within its
    range, its lines are the primes among the numbers it has looked at, in
    ascending order, and together the lines are those of all threads. *)
Record variant1_inv (s : Variant1.state) : Prop := Variant1Inv {
  v1_range :
    forall k t, Variant1.threads s !! k = Some t ->
      Primes.LLONG_MIN <= Variant1.start t <= Variant1.num t
      /\ Variant1.num t <= Z.max (Variant1.start t) (Variant1.end_ t + 1)
      /\ Variant1.end_ t < Primes.last_divisor * Primes.last_divisor;
  v1_lines :
    forall k, Variant1.lines_of k (Variant1.output s)
      = match Variant1.threads s !! k with
        | Some t => Primes.primes_of (Variant1.searched t)
        | None => []
        end;
  v1_all :
    snd <$> Variant1.output s
    ≡ₚ concat ((fun t => Primes.primes_of (Variant1.searched t))
               <$> Variant1.threads s)
}.

(** ** Variant 3: a queue of numbers, each prime printed when found *)

Module Variant3.

(** Where a worker (findPrimes_Number_Immediate) stands. *)
Inductive worker :=
| WTake       (* line 91: about to lock [queue_mutex] and test the predicate
                 of [queue_cv.wait] *)
| WAsleep     (* inside [queue_cv.wait], the mutex released *)
| WCheck (num_to_check : Z)   (* lines 105-111 *)
| WReturned.

(** Where main stands: before the step named. *)
Inductive main_pc :=
| MSpawn (i : Z)         (* lines 138-140 *)
| MPush (num : Z)        (* line 144: the loop test; lines 145-148 *)
| MNotifyOne (num : Z)   (* line 149, and the [++num] of line 144 *)
| MSetDone               (* lines 153-156 *)
| MNotifyAll             (* line 158 *)
| MJoin                  (* lines 161-163 *)
| MReturned.

(** The shared data, the threads, and what happened so far: [taken] are
    the numbers popped from the queue, in the order in which they were
    popped; [output] are the primes printed, each with the index of the
    worker that printed it.  The two lines main prints around its loop
    (lines 143 and 157) are left out. *)
Record state := State {
  task_queue : list Z;
  all_tasks_added : bool;
  main : main_pc;
  workers : list worker;
  taken : list Z;
  output : list (nat * Z)
}.

Definition set_worker (k : nat) (w : worker) (s : state) : state :=
  State (task_queue s) (all_tasks_added s) (main s) (<[k := w]> (workers s))
    (taken s) (output s).

Definition set_main (pc : main_pc) (s : state) : state :=
  State (task_queue s) (all_tasks_added s) pc (workers s) (taken s)
    (output s).

Definition asleep (w : worker) : bool :=
  match w with WAsleep => true | _ => false end.

Definition wake (w : worker) : worker :=
  match w with WAsleep => WTake | _ => w end.

Definition returned (w : worker) : bool :=
  match w with WReturned => true | _ => false end.

(** One step of worker [k].  At [WTake] the worker holds [queue_mutex]:
    [queue_cv.wait(lock, pred)] is [while (!pred()) wait(lock)], so with
    the queue empty and [all_tasks_added] false the worker goes to sleep,
    giving the mutex back; otherwise it returns (line 97) or takes the
    front of the queue (lines 100-101).  At [WCheck] it tests its number
    and prints it under [cout_mutex].  [None]: the worker sleeps or has
    returned, or the step has no defined result. *)
Definition findPrimes_Number_Immediate_step (k : nat) (w : worker)
  (s : state) : option state :=
  match w with
  | WTake =>
      match task_queue s with
      | [] =>
          if all_tasks_added s then Some (set_worker k WReturned s)
          else Some (set_worker k WAsleep s)
      | num :: queue =>
          Some (State queue (all_tasks_added s) (main s)
                  (<[k := WCheck num]> (workers s)) (taken s ++ [num])
                  (output s))
      end
  | WAsleep => None
  | WCheck num =>
      b ← Primes.isPrime num;
      Some (State (task_queue s) (all_tasks_added s) (main s)
              (<[k := WTake]> (workers s)) (taken s)
              (if b : bool then output s ++ [(k, num)] else output s))
  | WReturned => None
  end.

(** One step of main.  [choice] is the worker that [notify_one] wakes, if
    any worker sleeps: it has to be one that sleeps. *)
Definition main_step (thread_count max_number : Z) (choice : nat)
  (s : state) : option state :=
  match main s with
  | MSpawn i =>
      if i <? thread_count then
        i' ← int_add i 1;
        Some (State (task_queue s) (all_tasks_added s) (MSpawn i')
                (workers s ++ [WTake]) (taken s) (output s))
      else Some (set_main (MPush 2) s)
  | MPush num =>
      if num <=? max_number then
        Some (State (task_queue s ++ [num]) (all_tasks_added s)
                (MNotifyOne num) (workers s) (taken s) (output s))
      else Some (set_main MSetDone s)
  | MNotifyOne num =>
      num' ← Primes.ll (num + 1);
      if existsb asleep (workers s) then
        match workers s !! choice with
        | Some WAsleep => Some (set_main (MPush num') (set_worker choice WTake s))
        | _ => None
        end
      else Some (set_main (MPush num') s)
  | MSetDone =>
      Some (State (task_queue s) true MNotifyAll (workers s) (taken s)
              (output s))
  | MNotifyAll =>
      Some (State (task_queue s) (all_tasks_added s) MJoin
              (wake <$> workers s) (taken s) (output s))
  | MJoin =>
      if forallb returned (workers s) then Some (set_main MReturned s)
      else None
  | MReturned => None
  end.

(** The thread that moves next: main, worker [k], or worker [k] waking
    from [wait] without a notification, which the standard allows. *)
Inductive thread :=
| TMain (choice : nat)
| TWorker (k : nat)
| TSpurious (k : nat).

Definition step (thread_count max_number : Z) (t : thread) (s : state)
  : option state :=
  match t with
  | TMain choice => main_step thread_count max_number choice s
  | TWorker k =>
      w ← workers s !! k; findPrimes_Number_Immediate_step k w s
  | TSpurious k =>
      match workers s !! k with
      | Some WAsleep => Some (set_worker k WTake s)
      | _ => None
      end
  end.

Fixpoint run (thread_count max_number : Z) (sched : list thread) (s : state)
  : option state :=
  match sched with
  | [] => Some s
  | t :: sched' =>
      s' ← step thread_count max_number t s;
      run thread_count max_number sched' s'
  end.

(** main at line 138: the flag false (line 131), no worker yet. *)
Definition init : state := State [] false (MSpawn 0) [] [] [].

Definition reachable (thread_count max_number : Z) (s : state) : Prop :=
  exists sched, run thread_count max_number sched init = Some s.

(** The numbers the workers hold. *)
Definition held (w : worker) : list Z :=
  match w with WCheck num => [num] | _ => [] end.

(** How many numbers main has pushed. *)
Definition pushed (max_number : Z) (pc : main_pc) : Z :=
  match pc with
  | MSpawn _ => 0
  | MPush num => num - 2
  | MNotifyOne num => num - 1
  | _ => Z.max 0 (max_number - 1)
  end.

(** main is past the [notify_all] of line 158. *)
Definition notified_all (pc : main_pc) : bool :=
  match pc with MJoin | MReturned => true | _ => false end.

(** main is past lines 153-156. *)
Definition past_set_done (pc : main_pc) : bool :=
  match pc with MNotifyAll | MJoin | MReturned => true | _ => false end.


End Variant3.

(** What holds along every run of variant 3: the numbers pushed so far are
    those taken, in the order taken, and those still in the queue; the
    primes printed and those among the numbers the workers hold are the
    primes among the numbers taken; the flag is set when main is past
    lines 153-156; a worker returns only with the flag set and the queue
    empty; no worker sleeps once main has notified all; main returns only
    when all workers have. *)
Record variant3_inv (thread_count max_number : Z) (s : Variant3.state)
  : Prop := Variant3Inv {
  v3_pushed :
    Variant3.taken s ++ Variant3.task_queue s
    = seqZ 2 (Variant3.pushed max_number (Variant3.main s));
  v3_num :
    match Variant3.main s with
    | Variant3.MSpawn i =>
        Z.of_nat (length (Variant3.workers s)) = i
        /\ i <= Z.max 0 thread_count
    | Variant3.MPush num => 2 <= num <= Z.max 2 (max_number + 1)
    | Variant3.MNotifyOne num => 2 <= num <= max_number
    | _ => True
    end;
  v3_workers :
    (if Variant3.main s is Variant3.MSpawn _ then True
     else Z.of_nat (length (Variant3.workers s)) = Z.max 0 thread_count);
  v3_output :
    (snd <$> Variant3.output s)
    ++ Primes.primes_of (Variant3.workers s ≫= Variant3.held)
    ≡ₚ Primes.primes_of (Variant3.taken s);
  v3_held :
    forall k num, Variant3.workers s !! k = Some (Variant3.WCheck num) ->
      2 <= num <= max_number;
  v3_flag :
    Variant3.all_tasks_added s = Variant3.past_set_done (Variant3.main s);
  v3_returned :
    forall k, Variant3.workers s !! k = Some Variant3.WReturned ->
      Variant3.all_tasks_added s = true /\ Variant3.task_queue s = [];
  v3_awake :
    Variant3.notified_all (Variant3.main s) = true ->
    forall k, Variant3.workers s !! k <> Some Variant3.WAsleep;
  v3_joined :
    Variant3.main s = Variant3.MReturned ->
    forall k w, Variant3.workers s !! k = Some w -> w = Variant3.WReturned
}.

(** ** The configuration file (loadConfig, the same in the three variants) *)

Module Config.

(** The code of a character. *)
Definition code (a : Ascii.ascii) : Z := Z.of_N (Ascii.N_of_ascii a).

(** The characters [std::stoll] skips before the number: those [isspace]
    accepts in the "C" locale, the space and the codes 9 to 13. *)
Definition is_space (a : Ascii.ascii) : bool :=
  (code a =? 32) || ((9 <=? code a) && (code a <=? 13)).

(** The value of a decimal digit, '0' (48) to '9' (57). *)
Definition digit (a : Ascii.ascii) : option Z :=
  if (48 <=? code a) && (code a <=? 57) then Some (code a - 48) else None.

Fixpoint skip_spaces (s : string) : string :=
  match s with
  | String.String a s' => if is_space a then skip_spaces s' else s
  | String.EmptyString => s
  end.

(** The value of the longest prefix of decimal digits, [acc] being the
    value of the digits read before and [any] telling whether there were
    any; [None] if there is no digit at all. *)
Fixpoint read_digits (s : string) (acc : Z) (any : bool) : option Z :=
  match s with
  | String.String a s' =>
      match digit a with
      | Some d => read_digits s' (acc * 10 + d) true
      | None => if any then Some acc else None
      end
  | String.EmptyString => if any then Some acc else None
  end.

(** [std::stoll(str)]: leading white space, an optional sign, decimal
    digits; what follows the digits is ignored.  [None]: it throws
    ([std::invalid_argument] without a digit, [std::out_of_range] for a
    value that is no [long long]). *)
Definition stoll (str : string) : option Z :=
  let s := skip_spaces str in
  let '(negative, s) :=
    match s with
    | String.String a s' =>
        if code a =? 45 then (true, s')             (* '-' *)
        else if code a =? 43 then (false, s')       (* '+' *)
        else (false, s)
    | String.EmptyString => (false, s)
    end in
  v ← read_digits s 0 false;
  Primes.ll (if negative : bool then - v else v).

(** The two [std::getline]s of line 67 (variant 1): the key is what stands
    before the first '=', the value string what follows it.  [None]: one
    of them fails, which is so when the line has no '=' or nothing after
    it. *)
Fixpoint split_key (line : string) : option (string * string) :=
  match line with
  | String.EmptyString => None
  | String.String a rest =>
      if code a =? 61 then                          (* '=' *)
        match rest with
        | String.EmptyString => None
        | _ => Some (String.EmptyString, rest)
        end
      else
        '(key, valueStr) ← split_key rest;
        Some (String.String a key, valueStr)
  end.

(** Lines 62-73 for one line of the file: the map, and whether the line
    was reported on [std::cerr] as one that could not be parsed.  In
    [config[key] = std::stoll(valueStr)] the right side is evaluated
    first (C++17), so that nothing is entered when it throws. *)
Definition loadConfig_line (config : gmap string Z) (line : string)
  : gmap string Z * bool :=
  match line with
  | String.EmptyString => (config, false)
  | String.String first _ =>
      if code first =? 59 then (config, false)      (* ';' *)
      else
        match split_key line with
        | Some (key, valueStr) =>
            match stoll valueStr with
            | Some value => (<[key := value]> config, false)
            | None => (config, true)
            end
        | None => (config, false)
        end
  end.

(** The loop of lines 60-74 over the lines [std::getline] yields: the
    map, and the lines reported so far. *)
Fixpoint loadConfig_loop (lines : list string) (config : gmap string Z)
    (reported : list string) : gmap string Z * list string :=
  match lines with
  | [] => (config, reported)
  | line :: lines =>
      let '(config', bad) := loadConfig_line config line in
      loadConfig_loop lines config'
        (if bad : bool then reported ++ [line] else reported)
  end.

(** loadConfig (variant 1, lines 53-77).  [file] is [None] if the file
    cannot be opened, and else its lines, without their line ends.  The
    result: what loadConfig returns, the map, and the lines reported. *)
Definition loadConfig (file : option (list string)) (config : gmap string Z)
  : bool * gmap string Z * list string :=
  match file with
  | None => (false, config, [])
  | Some lines =>
      let '(config', reported) := loadConfig_loop lines config [] in
      (true, config', reported)
  end.

(** The test of line 106 (variant 1) and the two reads that follow it:
    the thread count and the maximum, or [None] where main prints "Config
    file missing or incomplete. Exiting." and returns 1. *)
Definition settings (file : option (list string)) : option (Z * Z) :=
  let '(opened, config, _) := loadConfig file ∅ in
  if opened then
    thread_count ← config !! "THREAD_COUNT"%string;
    max_number ← config !! "MAX_NUMBER"%string;
    Some (thread_count, max_number)
  else None.

End Config.

(* ===================================================================== *)
(** * Theorems *)

(** ** Tactics

    Small steps that many proofs share. *)

Ltac invert_step :=
  repeat first [case_match | progress simplify_option_eq].

Ltac bool_hyps :=
  repeat match goal with
  | H : (_ <? _) = true |- _ => apply Z.ltb_lt in H
  | H : (_ <? _) = false |- _ => apply Z.ltb_ge in H
  | H : (_ <=? _) = true |- _ => apply Z.leb_le in H
  | H : (_ <=? _) = false |- _ => apply Z.leb_gt in H
  | H : _ && _ = true |- _ => apply andb_true_iff in H as [? ?]
  | H : negb _ = true |- _ => apply negb_true_iff in H
  | H : negb _ = false |- _ => apply negb_false_iff in H
  end.

(** ** The model at small inputs *)

Example validate_swaps_then_clamps :
  validate 3 1 1 3 40 7
  = ([msg_swap; msg_clamp], Run (Config 3 1 1 3 7 15)).
Proof. reflexivity. Qed.

Example validate_refuses_no_instance :
  validate 0 1 1 3 1 2 = ([msg_bad_n], Exit 1).
Proof. reflexivity. Qed.

Example validate_refuses_negative_players :
  validate 2 1 (-1) 3 5 2 = ([msg_swap; msg_bad_players], Exit 1).
Proof. reflexivity. Qed.

Example try_form_party_twice :
  let g := init_globals (Config 2 2 1 7 1 2) in
  try_form_party g = (true, set_pool 1 0 4 g)
  /\ try_form_party (set_pool 1 0 4 g) = (false, set_pool 1 0 4 g).
Proof. by split. Qed.

Example claim_loop_takes_lowest_free :
  claim_loop ["active"; "empty"; "empty"]%string 0 3
  = Some (1, ["active"; "active"; "empty"]%string).
Proof. reflexivity. Qed.

(** A party alone in a registry of one instance: it takes the permit and
    instance 0, runs for the 2 seconds drawn, gives both back. *)
Example run_dungeon_alone :
  run_dungeon 2 1 1 3 (init_globals (Config 1 0 0 0 1 3))
  = Some (Party 1 1 3 2 0 PDone,
          Globals 1 (Semaphore 1) ["empty"%string] [1] [2] 0 0 0 false,
          [EvEntered 1 0 2 ["active"%string];
           EvFinished 1 0 ["empty"%string]]).
Proof. reflexivity. Qed.

(** ** Startup validation *)

Lemma raise_negative_nonneg t : 0 <= raise_negative t.
Proof. unfold raise_negative. destruct (Z.ltb_spec t 0); lia. Qed.

Lemma raise_negative_max t : raise_negative t = Z.max 0 t.
Proof. unfold raise_negative. destruct (Z.ltb_spec t 0); lia. Qed.

(** What the validation does guarantee about the bounds. *)
Lemma validate_bounds_range t1 t2 w a b :
  validate_bounds t1 t2 = (w, (a, b)) ->
  0 <= a /\ 0 <= b <= 15 /\ a <= Z.max (Z.max t1 t2) 0.
Proof.
  unfold validate_bounds, swap_bounds, clamp_t2.
  pose proof (raise_negative_max t1). pose proof (raise_negative_max t2).
  repeat case_match; intros; simplify_eq; lia.
Qed.

(** The bounds come out ordered exactly when the smaller input is at most
    15. *)
Lemma validate_bounds_ordered_iff t1 t2 w a b :
  validate_bounds t1 t2 = (w, (a, b)) ->
  a <= b <-> Z.min t1 t2 <= 15.
Proof.
  unfold validate_bounds, swap_bounds, clamp_t2.
  pose proof (raise_negative_max t1). pose proof (raise_negative_max t2).
  repeat case_match; intros; simplify_eq; lia.
Qed.

(** Every configuration a run starts from has at least one instance and
    non-negative player counts: the hypotheses of the theorems below hold of
    every run the program makes. *)
Lemma validate_accepts n tanks healers dps t1 t2 w c :
  validate n tanks healers dps t1 t2 = (w, Run c) ->
  cfg_n c = n /\ 1 <= n
  /\ cfg_tanks c = tanks /\ 0 <= tanks
  /\ cfg_healers c = healers /\ 0 <= healers
  /\ cfg_dps c = dps /\ 0 <= dps
  /\ 0 <= cfg_t1 c /\ 0 <= cfg_t2 c <= 15.
Proof.
  unfold validate. destruct (Z.leb_spec n 0); [done|].
  destruct (validate_bounds t1 t2) as [w' [a b]] eqn:Hb.
  apply validate_bounds_range in Hb.
  destruct (Z.ltb_spec tanks 0), (Z.ltb_spec healers 0),
    (Z.ltb_spec dps 0); simpl; intros; simplify_eq; simpl; lia.
Qed.

(** C5: for every pair of input bounds the validation would produce
    [0 <= t1 <= t2 <= 15].  The code clamps only [t2]: on the input
    [t1 = 20], [t2 = 30] nothing is swapped, [t2] becomes 15 and [t1] stays
    20, so the bounds handed to the run are (20, 15) and the property fails. *)
Theorem validate_bounds_unordered :
  validate 1 0 0 0 20 30 = ([msg_clamp], Run (Config 1 0 0 0 20 15))
  /\ ~ (forall t1 t2 w a b,
          validate_bounds t1 t2 = (w, (a, b)) -> 0 <= a <= b /\ b <= 15).
Proof.
  split; [reflexivity|].
  intros H. specialize (H 20 30 [msg_clamp] 20 15 eq_refl). lia.
Qed.

(** C10: a negative duration bound is never fatal and is raised to 0
    without a message of its own: the whole validation (printed lines and
    result) is the one of the input with 0 in place of the negative bound,
    it goes on to the run whenever [n] and the player counts are accepted,
    and with both bounds negative nothing at all is printed. *)
Theorem negative_bounds_raised_silently n tanks healers dps t1 t2 :
  1 <= n -> 0 <= tanks -> 0 <= healers -> 0 <= dps ->
  t1 < 0 \/ t2 < 0 ->
  validate n tanks healers dps t1 t2
    = validate n tanks healers dps (Z.max 0 t1) (Z.max 0 t2)
  /\ (exists c, snd (validate n tanks healers dps t1 t2) = Run c)
  /\ (t1 < 0 -> t2 < 0 ->
      validate n tanks healers dps t1 t2
        = ([], Run (Config n tanks healers dps 0 0))).
Proof.
  intros Hn Ht Hh Hd Hneg.
  assert (Hb : validate_bounds t1 t2
               = validate_bounds (Z.max 0 t1) (Z.max 0 t2)).
  { unfold validate_bounds. rewrite !raise_negative_max.
    by rewrite !Z.max_assoc, !Z.max_id. }
  assert (Hpl : (tanks <? 0) || (healers <? 0) || (dps <? 0) = false).
  { rewrite !orb_false_iff, !Z.ltb_ge. lia. }
  assert (Hn' : (n <=? 0) = false) by (apply Z.leb_gt; lia).
  unfold validate. rewrite Hn', Hpl, <- Hb.
  split; [done|]. split.
  - destruct (validate_bounds t1 t2) as [w [a b]]. eauto.
  - intros H1 H2. unfold validate_bounds.
    rewrite !raise_negative_max, !Z.max_l by lia. reflexivity.
Qed.

Lemma negative_bounds_raised_silently_witness :
  validate 2 1 1 3 5 (-1) = validate 2 1 1 3 (Z.max 0 5) (Z.max 0 (-1))
  /\ (exists c, snd (validate 2 1 1 3 5 (-1)) = Run c)
  /\ (5 < 0 -> -1 < 0 ->
      validate 2 1 1 3 5 (-1) = ([], Run (Config 2 1 1 3 0 0))).
Proof.
  apply (negative_bounds_raised_silently 2 1 1 3 5 (-1)); lia.
Defined.

(** ** try_form_party *)

Lemma try_form_party_in_int g :
  in_int (g_tanks g) = true -> in_int (g_healers g) = true ->
  in_int (g_dps g) = true ->
  let g' := snd (try_form_party g) in
  in_int (g_tanks g') = true /\ in_int (g_healers g') = true
  /\ in_int (g_dps g') = true.
Proof.
  unfold try_form_party, in_int, INT_MIN, INT_MAX.
  intros Ht Hh Hd. case_match; simpl; [|done]. bool_hyps.
  rewrite !andb_true_iff, !Z.leb_le. lia.
Qed.

(** C2: [try_form_party] returns true with the pool reduced by (1, 1, 3)
    exactly when the pool held at least (1, 1, 3); otherwise it returns
    false and changes nothing.  No other shared datum is touched. *)
Theorem try_form_party_spec g :
  (try_form_party g
     = (true, set_pool (g_tanks g - 1) (g_healers g - 1) (g_dps g - 3) g)
   <-> 1 <= g_tanks g /\ 1 <= g_healers g /\ 3 <= g_dps g)
  /\ (fst (try_form_party g) = true
      <-> 1 <= g_tanks g /\ 1 <= g_healers g /\ 3 <= g_dps g)
  /\ (~ (1 <= g_tanks g /\ 1 <= g_healers g /\ 3 <= g_dps g)
      <-> try_form_party g = (false, g))
  /\ pool (snd (try_form_party g))
     = (if fst (try_form_party g)
        then (g_tanks g - 1, g_healers g - 1, g_dps g - 3)
        else pool g).
Proof.
  unfold try_form_party.
  destruct (Z.leb_spec 1 (g_tanks g)), (Z.leb_spec 1 (g_healers g)),
    (Z.leb_spec 3 (g_dps g)); simpl;
    repeat split; intros; try done; try lia; naive_solver lia.
Qed.

(** ** Counting *)

Lemma tally_app {A} (f : A -> bool) l1 l2 :
  tally f (l1 ++ l2) = tally f l1 + tally f l2.
Proof. induction l1 as [|x l1 IH]; simpl; [done|]. rewrite IH. lia. Qed.

Lemma tally_nonneg {A} (f : A -> bool) l : 0 <= tally f l.
Proof. induction l as [|x l IH]; simpl; [done|]. destruct (f x); lia. Qed.

Lemma tally_le_length {A} (f : A -> bool) l : tally f l <= Z.of_nat (length l).
Proof. induction l as [|x l IH]; simpl; [done|]. destruct (f x); lia. Qed.

Lemma tally_lt_length {A} (f : A -> bool) (l : list A) k x :
  l !! k = Some x -> f x = false -> tally f l + 1 <= Z.of_nat (length l).
Proof.
  revert k. induction l as [|y l IH]; intros [|k] Hk Hx; simplify_eq/=.
  - rewrite Hx. pose proof (tally_le_length f l). lia.
  - specialize (IH k Hk Hx). destruct (f y); lia.
Qed.

Lemma tally_insert {A} (f : A -> bool) (l : list A) k x y :
  l !! k = Some x ->
  tally f (<[k := y]> l) = tally f l - b2z (f x) + b2z (f y).
Proof.
  revert k. induction l as [|z l IH]; intros [|k] Hk; simplify_eq/=.
  - unfold b2z. lia.
  - rewrite (IH k Hk). lia.
Qed.

Lemma tally_insert_eq {A} (f : A -> bool) (l : list A) k x y bx by_ :
  l !! k = Some x -> f x = bx -> f y = by_ ->
  tally f (<[k := y]> l) = tally f l - b2z bx + b2z by_.
Proof. intros Hk <- <-. by apply tally_insert. Qed.

Lemma tally_snoc {A} (f : A -> bool) (l : list A) x :
  tally f (l ++ [x]) = tally f l + b2z (f x).
Proof. rewrite tally_app. simpl. unfold b2z. lia. Qed.

Lemma tally_replicate {A} (f : A -> bool) n x :
  tally f (replicate n x) = Z.of_nat n * b2z (f x).
Proof.
  induction n as [|n IH]; simpl replicate; simpl tally; [lia|].
  rewrite IH. unfold b2z. lia.
Qed.

Lemma tally_lookup_pos {A} (f : A -> bool) (l : list A) k x :
  l !! k = Some x -> f x = true -> 1 <= tally f l.
Proof.
  revert k. induction l as [|y l IH]; intros [|k] Hk Hx; simplify_eq/=.
  - rewrite Hx. pose proof (tally_nonneg f l). lia.
  - specialize (IH k Hk Hx). destruct (f y); lia.
Qed.

Lemma tally_pos_lookup {A} (f : A -> bool) (l : list A) :
  0 < tally f l -> exists k x, l !! k = Some x /\ f x = true.
Proof.
  induction l as [|y l IH]; simpl; [lia|]. intros Hpos.
  destruct (f y) eqn:Hy.
  - by exists 0%nat, y.
  - destruct IH as (k & x & Hk & Hx); [lia|]. by exists (S k), x.
Qed.

(** Fewer active entries than entries: some entry is empty. *)
Lemma tally_active_lt (status : list string) :
  Forall (fun x => x = "empty"%string \/ x = "active"%string) status ->
  tally is_active status < Z.of_nat (length status) ->
  exists j, status !! j = Some "empty"%string.
Proof.
  induction 1 as [|x l [->| ->] _ IH]; simpl; intros Hlt.
  - lia.
  - by exists 0%nat.
  - destruct IH as [j Hj]; [simpl in Hlt; lia|]. by exists (S j).
Qed.

Lemma total_insert (l : list Z) k x y :
  l !! k = Some x -> total (<[k := y]> l) = total l - x + y.
Proof.
  revert k. induction l as [|z l IH]; intros [|k] Hk; simplify_eq/=.
  - lia.
  - rewrite (IH k Hk). lia.
Qed.

Lemma total_replicate_0 n : total (replicate n 0) = 0.
Proof. induction n as [|n IH]; simpl; [done|]. by rewrite IH. Qed.

Lemma total_nonneg l : Forall (fun x => 0 <= x) l -> 0 <= total l.
Proof. induction 1; simpl; lia. Qed.

Lemma lookup_le_total l i x :
  Forall (fun x => 0 <= x) l -> l !! i = Some x -> 0 <= x <= total l.
Proof.
  intros Hall. revert i. induction Hall as [|y l Hy Hall IH];
    intros [|i] Hi; simplify_eq/=.
  - pose proof (total_nonneg l Hall). lia.
  - specialize (IH i Hi). lia.
Qed.

Lemma forallb_lookup {A} (f : A -> bool) (l : list A) k x :
  forallb f l = true -> l !! k = Some x -> f x = true.
Proof.
  revert k. induction l as [|y l IH]; intros [|k] Hall Hk; simplify_eq/=;
    apply andb_true_iff in Hall as [? ?]; eauto.
Qed.

(** Rewrites the counts over the party threads after the thread at [k],
    which stood at the step [Hpc] names, has moved. *)
Ltac tally_pc Hk Hpc :=
  repeat (erewrite (tally_insert_eq _ _ _ _ _ _ _ Hk);
          [ | unfold holds_permit, holds_slot, has_finished, in_transit,
                party_at; simpl; rewrite ?Hpc; reflexivity .. ]);
  simpl b2z.

(** ** Machine integers *)

Lemma int_add_Some a b r : int_add a b = Some r -> r = a + b.
Proof. unfold int_add. intros H. case_match; by simplify_eq. Qed.

Lemma int_add_defined a b :
  INT_MIN <= a + b <= INT_MAX -> int_add a b = Some (a + b).
Proof.
  intros H. unfold int_add, in_int.
  destruct (Z.leb_spec INT_MIN (a + b)), (Z.leb_spec (a + b) INT_MAX);
    simpl; try done; lia.
Qed.

(** ** Runs *)

Lemma run_snoc sched t s : run (sched ++ [t]) s = run sched s ≫= step t.
Proof.
  revert s. induction sched as [|t' sched IH]; intros s; simpl.
  - by destruct (step t s).
  - destruct (step t' s); simpl; [apply IH|done].
Qed.

Lemma reachable_init c : reachable c (init_state c).
Proof. by exists []. Qed.

Lemma reachable_step c t s s' :
  reachable c s -> step t s = Some s' -> reachable c s'.
Proof.
  intros [sched Hrun] Hstep. exists (sched ++ [t]).
  by rewrite run_snoc, Hrun.
Qed.

(** Induction over the runs from the initial state. *)
Lemma reachable_invariant c (P : state -> Prop) :
  P (init_state c) ->
  (forall t s s', reachable c s -> P s -> step t s = Some s' -> P s') ->
  forall s, reachable c s -> P s.
Proof.
  intros Hinit Hstep s [sched Hrun]. revert s Hrun.
  induction sched as [|t sched IH] using rev_ind; intros s Hrun.
  - simpl in Hrun. by simplify_eq.
  - rewrite run_snoc in Hrun.
    destruct (run sched (init_state c)) as [s0|] eqn:Hs0; [|done].
    simpl in Hrun. eapply Hstep; [by exists sched|by apply IH|done].
Qed.

Lemma sample_reachable :
  reachable sample_config
    (State (Globals 2 (Semaphore 1) ["active"; "empty"]%string [0; 0] [0; 0]
              2 0 5 false)
           (Main 1 2 1 true 0 MTry)
           (Arrival 10 1 3 1 ACycle)
           [Party 1 1 2 1 0 PEnter]
           [EvTryForm true; EvArrival 2 0 5]).
Proof. by exists sample_schedule. Defined.

Lemma one_party_reachable : reachable one_party_config one_party_final.
Proof. exists one_party_schedule. vm_compute. reflexivity. Defined.

(** ** The steps of the threads *)

(** Splits a step of the program by the thread that moved and names what
    that thread's own step returned: [a'], [g'], [evs] with [Ha] for the
    arrival thread; [p'], [g'], [evs] with [Hp] for the party thread [p]
    found at index [k] ([Hk]). *)
Ltac step_cases Hstep :=
  match type of Hstep with
  | step ?t ?s = Some _ =>
      destruct t as [| n_t n_h n_d | k d]; simpl in Hstep;
      [ | destruct (arrival_thread_func_step n_t n_h n_d (arrival_th s)
                      (shared s)) as [[[a' g'] evs]|] eqn:Ha;
          [simpl in Hstep|done]
        | destruct (party_threads s !! k) as [p|] eqn:Hk; [|done];
          simpl in Hstep;
          destruct (run_dungeon_step d p (shared s))
            as [[[p' g'] evs]|] eqn:Hp; [simpl in Hstep|done] ]
  end.

(** A party thread touches neither the pool nor the done flag. *)
Lemma party_step_pool d p g p' g' evs :
  run_dungeon_step d p g = Some (p', g', evs) ->
  pool g' = pool g /\ g_arrival_done g' = g_arrival_done g
  /\ g_max_instances g' = g_max_instances g.
Proof.
  unfold run_dungeon_step, finish_instance, acquire, release.
  intros H. invert_step; done.
Qed.

Lemma party_step_events d p g p' g' evs :
  run_dungeon_step d p g = Some (p', g', evs) ->
  tally is_signal evs = 0 /\ tally is_arrival evs = 0
  /\ tally is_formed evs = 0.
Proof.
  unfold run_dungeon_step, finish_instance.
  intros H. invert_step; done.
Qed.

Lemma party_step_quiet d p g p' g' evs :
  run_dungeon_step d p g = Some (p', g', evs) ->
  tally is_try evs = 0 /\ tally is_observe evs = 0
  /\ tally is_observe_true evs = 0.
Proof.
  unfold run_dungeon_step, finish_instance.
  intros H. invert_step; done.
Qed.

Lemma party_step_served d p g p' g' evs :
  run_dungeon_step d p g = Some (p', g', evs) ->
  Forall (fun x => 0 <= x) (g_parties_served g) ->
  Forall (fun x => 0 <= x) (g_parties_served g').
Proof.
  unfold run_dungeon_step, finish_instance, acquire, release. intros H Hall.
  destruct (p_pc p); invert_step; simpl; try done.
  apply Forall_insert; [done|].
  match goal with
  | Hl : g_parties_served g !! _ = Some ?x, Ha : int_add ?x 1 = Some _ |- _ =>
      apply int_add_Some in Ha;
      pose proof (Forall_lookup_1 _ _ _ _ Hall Hl)
  end. simpl in *. lia.
Qed.

(** The two moves of the arrival thread. *)
Lemma arrival_step_inv n_t n_h n_d a g a' g' evs :
  arrival_thread_func_step n_t n_h n_d a g = Some (a', g', evs) ->
  (a_pc a = ACycle
   /\ (0 <= n_t <= 2 /\ 0 <= n_h <= 2 /\ 0 <= n_d <= 6)
   /\ (exists t h d,
         t = int_wrap (g_tanks g + n_t)
         /\ h = int_wrap (g_healers g + n_h)
         /\ d = int_wrap (g_dps g + n_d)
         /\ g' = set_pool t h d g)
   /\ a' = arrival_test (cycles a) (min_sleep_s a) (max_sleep_s a) (a_i a + 1)
   /\ evs = [EvArrival n_t n_h n_d])
  \/ (a_pc a = ASignal
      /\ g' = set_done true g
      /\ a' = Arrival (cycles a) (min_sleep_s a) (max_sleep_s a) (a_i a)
                AReturned
      /\ evs = [EvSignal]).
Proof.
  unfold arrival_thread_func_step. intros H.
  destruct (a_pc a); [left|right|done].
  - destruct (_ && _) eqn:Hrange in H; [|done]. bool_hyps.
    simpl in H. simplify_eq. repeat split; try lia. eauto 10.
  - by simplify_eq.
Qed.

(** Main writes neither the done flag nor the arrival thread's data, and
    forms no party outside try_form_party. *)
Lemma main_step_frame s s' :
  main_step s = Some s' ->
  arrival_th s' = arrival_th s
  /\ g_arrival_done (shared s') = g_arrival_done (shared s)
  /\ g_max_instances (shared s') = g_max_instances (shared s)
  /\ exists evs, events s' = events s ++ evs
       /\ tally is_signal evs = 0 /\ tally is_arrival evs = 0.
Proof.
  unfold main_step, try_form_party. intros H.
  destruct (m_pc (main_th s)); invert_step; simpl;
    repeat split; try done;
    first [ by eexists [_] | by exists []; rewrite app_nil_r ].
Qed.

(** The only call by which main touches the shared data. *)
Lemma main_step_shared s s' :
  main_step s = Some s' ->
  shared s' = (if m_pc (main_th s) is MTry
               then snd (try_form_party (shared s)) else shared s).
Proof.
  unfold main_step. intros H.
  destruct (m_pc (main_th s)); invert_step; done.
Qed.

Lemma try_form_party_registry g : same_registry g (snd (try_form_party g)).
Proof. unfold try_form_party. by case_match. Qed.

(** Main leaves the gate and the registry alone, and the party threads too,
    but for the one it starts after a successful try_form_party. *)
Lemma main_step_registry s s' :
  main_step s = Some s' ->
  same_registry (shared s) (shared s')
  /\ (party_threads s' = party_threads s
      \/ exists p, p_pc p = PStart
           /\ m_pc (main_th s) = MTry
           /\ fst (try_form_party (shared s)) = true
           /\ party_threads s' = party_threads s ++ [p]).
Proof.
  intros H. split.
  { rewrite (main_step_shared _ _ H). destruct (m_pc (main_th s)); try done.
    apply try_form_party_registry. }
  unfold main_step in H.
  destruct (m_pc (main_th s)) eqn:Hpc.
  - destruct (try_form_party (shared s)) as [[] g] eqn:Htry.
    + destruct (int_add _ _) as [id|]; [|done]. simplify_eq/=.
      right. eexists. by repeat split.
    + simplify_eq/=. by left.
  - case_match; simplify_eq/=; by left.
  - destruct (a_pc _); simplify_eq/=; by left.
  - case_match; simplify_eq/=; by left.
  - destruct (sum_served _ _ _ _); simplify_eq/=; by left.
  - done.
Qed.

Lemma arrival_step_registry n_t n_h n_d a g a' g' evs :
  arrival_thread_func_step n_t n_h n_d a g = Some (a', g', evs) ->
  same_registry g g'.
Proof.
  intros H. apply arrival_step_inv in H
    as [(_ & _ & (t & h & d & _ & _ & _ & ->) & _)|(_ & -> & _)]; done.
Qed.

(** ** The done flag *)

Lemma done_sticky_step t s s' :
  step t s = Some s' ->
  g_arrival_done (shared s) = true -> g_arrival_done (shared s') = true.
Proof.
  intros H Hd. step_cases H.
  - apply main_step_frame in H as (_ & Hdone & _). congruence.
  - simplify_eq/=.
    apply arrival_step_inv in Ha
      as [(_ & _ & (t & h & d & _ & _ & _ & ->) & _)|(_ & -> & _)];
      done.
  - apply party_step_pool in Hp as (_ & Hdone & _). simplify_eq/=. congruence.
Qed.

Lemma done_sticky_run sched s s' :
  run sched s = Some s' ->
  g_arrival_done (shared s) = true -> g_arrival_done (shared s') = true.
Proof.
  revert s. induction sched as [|t sched IH]; intros s Hrun Hd; simpl in Hrun.
  - by simplify_eq.
  - destruct (step t s) as [s1|] eqn:Hs1; [|done].
    eapply IH; [done|]. by eapply done_sticky_step.
Qed.

Lemma done_inv_init c : done_inv (init_state c).
Proof. repeat split; simpl; done. Qed.

Lemma done_inv_step t s s' :
  done_inv s -> step t s = Some s' -> done_inv s'.
Proof.
  intros (Hd & Hsig & Harr & Hcyc & Hi & Hex) Hstep.
  step_cases Hstep.
  - pose proof (main_step_frame _ _ Hstep)
      as (Ha & Hdone & _ & evs & Hev & Hs0 & Ha0).
    unfold done_inv. rewrite Ha, Hdone, Hev, !tally_app, Hs0, Ha0, !Z.add_0_r.
    repeat split; try tauto.
    unfold loop_exited in *. unfold main_step, try_form_party in Hstep.
    destruct (m_pc (main_th s)) eqn:Hpc; invert_step; simpl in *;
      bool_hyps; try done; auto.
  - simplify_eq/=. unfold done_inv, loop_exited in *; simpl.
    assert (Hg : a_pc (arrival_th s) <> AReturned ->
                 g_arrival_done (shared s) = false).
    { intros Hne. destruct (g_arrival_done (shared s)); [|done].
      destruct Hd as [Hd _]. by specialize (Hd eq_refl). }
    apply arrival_step_inv in Ha
      as [(Hpc & _ & (t & h & d & _ & _ & _ & ->) & -> & ->)
          |(Hpc & -> & -> & ->)];
      rewrite Hpc in *; rewrite !tally_app; simpl;
      rewrite Hg in * by done.
    + unfold arrival_test; simpl. rewrite Hcyc.
      destruct (Z.ltb_spec (a_i (arrival_th s) + 1) 10);
        repeat split; try done; try lia.
    + repeat split; try done; lia.
  - pose proof (party_step_pool _ _ _ _ _ _ Hp) as (_ & Hdone & _).
    pose proof (party_step_events _ _ _ _ _ _ Hp) as (Hs0 & Ha0 & _).
    simplify_eq/=. unfold done_inv, loop_exited in *; simpl.
    rewrite !tally_app, Hdone, Hs0, Ha0, !Z.add_0_r. tauto.
Qed.

Lemma done_inv_reachable c s : reachable c s -> done_inv s.
Proof.
  apply (reachable_invariant c done_inv); [apply done_inv_init|].
  intros t s0 s1 _. apply done_inv_step.
Qed.

(** C7: the done flag starts false; in every reachable state it is true
    exactly when the arrival thread has returned, it has been written as many
    times as it is true (once or never), and it is written only after all
    ten cycles have run; main has left its loop only if it is true; a step
    that changes or writes it is the arrival thread's step after its last
    cycle, from false to true; and once true it stays true along every
    continuation of the run. *)
Theorem arrival_done_monotonic c s :
  reachable c s ->
  g_arrival_done (shared (init_state c)) = false
  /\ (g_arrival_done (shared s) = true <-> a_pc (arrival_th s) = AReturned)
  /\ tally is_signal (events s) = (if g_arrival_done (shared s) then 1 else 0)
  /\ (g_arrival_done (shared s) = true ->
      tally is_arrival (events s) = cycles (arrival_th s))
  /\ (loop_exited s = true -> g_arrival_done (shared s) = true)
  /\ (forall t s', step t s = Some s' ->
        g_arrival_done (shared s') <> g_arrival_done (shared s)
        \/ tally is_signal (events s') <> tally is_signal (events s) ->
        (exists n_t n_h n_d, t = TArrival n_t n_h n_d)
        /\ a_pc (arrival_th s) = ASignal
        /\ tally is_arrival (events s) = cycles (arrival_th s)
        /\ g_arrival_done (shared s) = false
        /\ g_arrival_done (shared s') = true)
  /\ (forall sched s', run sched s = Some s' ->
        g_arrival_done (shared s) = true ->
        g_arrival_done (shared s') = true).
Proof.
  intros Hreach.
  pose proof (done_inv_reachable c s Hreach)
    as (Hd & Hsig & Harr & Hcyc & Hi & Hex).
  split; [done|]. split; [done|]. split; [done|].
  split. { intros H. apply Hd in H. rewrite H in Hi. lia. }
  split; [done|]. split; [|intros sched s'; apply done_sticky_run].
  intros t s' Hstep Hch.
  step_cases Hstep.
  - exfalso.
    pose proof (main_step_frame _ _ Hstep)
      as (_ & Hdone & _ & evs & Hev & Hs0 & _).
    rewrite Hev, tally_app, Hs0 in Hch. destruct Hch; [done|lia].
  - simplify_eq/=.
    apply arrival_step_inv in Ha
      as [(Hpc & _ & (t & h & d & _ & _ & _ & ->) & -> & ->)
          |(Hpc & -> & -> & ->)].
    + exfalso. rewrite tally_app in Hch. simpl in Hch.
      destruct Hch; [done|lia].
    + rewrite Hpc in Hi. repeat split; eauto; try lia.
      destruct (g_arrival_done (shared s)) eqn:Hg; [|done].
      destruct Hd as [Hd _]. specialize (Hd eq_refl). congruence.
  - exfalso.
    pose proof (party_step_pool _ _ _ _ _ _ Hp) as (_ & Hdone & _).
    pose proof (party_step_events _ _ _ _ _ _ Hp) as (Hs0 & Ha0 & _).
    simplify_eq/=. rewrite tally_app in Hch. destruct Hch; [done|lia].
Qed.

Lemma arrival_done_monotonic_witness :
  g_arrival_done (shared (init_state one_party_config)) = false
  /\ (g_arrival_done (shared one_party_final) = true
      <-> a_pc (arrival_th one_party_final) = AReturned)
  /\ tally is_signal (events one_party_final)
     = (if g_arrival_done (shared one_party_final) then 1 else 0)
  /\ (g_arrival_done (shared one_party_final) = true ->
      tally is_arrival (events one_party_final)
      = cycles (arrival_th one_party_final))
  /\ (loop_exited one_party_final = true ->
      g_arrival_done (shared one_party_final) = true)
  /\ (forall t s', step t one_party_final = Some s' ->
        g_arrival_done (shared s') <> g_arrival_done (shared one_party_final)
        \/ tally is_signal (events s')
           <> tally is_signal (events one_party_final) ->
        (exists n_t n_h n_d, t = TArrival n_t n_h n_d)
        /\ a_pc (arrival_th one_party_final) = ASignal
        /\ tally is_arrival (events one_party_final)
           = cycles (arrival_th one_party_final)
        /\ g_arrival_done (shared one_party_final) = false
        /\ g_arrival_done (shared s') = true)
  /\ (forall sched s', run sched one_party_final = Some s' ->
        g_arrival_done (shared one_party_final) = true ->
        g_arrival_done (shared s') = true).
Proof.
  apply (arrival_done_monotonic one_party_config one_party_final).
  apply one_party_reachable.
Defined.

(** ** The player pool *)

Lemma try_form_party_nonneg g :
  pool_nonneg g -> pool_nonneg (snd (try_form_party g)).
Proof.
  unfold pool_nonneg, try_form_party. intros H.
  case_match; bool_hyps; simpl; lia.
Qed.

Lemma int_wrap_id z : INT_MIN <= z <= INT_MAX -> int_wrap z = z.
Proof.
  unfold int_wrap, INT_MIN, INT_MAX. intros H. rewrite Z.mod_small; lia.
Qed.

(** What a step may do to the pool. *)
Lemma step_pool t s s' :
  step t s = Some s' ->
  pool (shared s') = pool (shared s)
  \/ (t = TMain /\ m_pc (main_th s) = MTry
      /\ try_form_party (shared s) = (true, shared s'))
  \/ (exists n_t n_h n_d,
        t = TArrival n_t n_h n_d /\ a_pc (arrival_th s) = ACycle
        /\ 0 <= n_t <= 2 /\ 0 <= n_h <= 2 /\ 0 <= n_d <= 6
        /\ pool (shared s')
           = (int_wrap (g_tanks (shared s) + n_t),
              int_wrap (g_healers (shared s) + n_h),
              int_wrap (g_dps (shared s) + n_d))).
Proof.
  intros H. step_cases H.
  - apply main_step_shared in H. rewrite H.
    destruct (m_pc (main_th s)); auto.
    destruct (try_form_party (shared s)) as [[] g'] eqn:Htry; simpl.
    + right; left. done.
    + left. unfold try_form_party in Htry. case_match; by simplify_eq.
  - simplify_eq/=.
    apply arrival_step_inv in Ha
      as [(Hpc & Hr & (t & h & d & -> & -> & -> & ->) & _)|(_ & -> & _)];
      [|by left].
    right; right. exists n_t, n_h, n_d. by repeat split; try lia.
  - apply party_step_pool in Hp as (Hpool & _).
    injection H as <-. by left.
Qed.

(** A step keeps the pool non-negative where the additions of the arrival
    thread stay within [int]. *)
Lemma pool_nonneg_step t s s' :
  pool_nonneg (shared s) ->
  g_tanks (shared s) <= INT_MAX - 2 ->
  g_healers (shared s) <= INT_MAX - 2 ->
  g_dps (shared s) <= INT_MAX - 6 ->
  step t s = Some s' -> pool_nonneg (shared s').
Proof.
  intros Hnn Ht Hh Hd Hstep. unfold pool_nonneg in *.
  destruct (step_pool _ _ _ Hstep)
    as [Heq|[(_ & _ & Htry)|(n_t & n_h & n_d & _ & _ & ? & ? & ? & Heq)]].
  - unfold pool in Heq. simplify_eq. lia.
  - pose proof (try_form_party_nonneg _ Hnn) as H. by rewrite Htry in H.
  - rewrite !int_wrap_id in Heq by (unfold INT_MIN, INT_MAX in *; lia).
    unfold pool in Heq. simplify_eq. lia.
Qed.

(** The sizes of the counters. *)
Lemma bounds_inv_init c :
  0 <= cfg_tanks c -> 0 <= cfg_healers c -> 0 <= cfg_dps c ->
  bounds_inv c (init_state c).
Proof.
  intros Ht Hh Hd.
  split; unfold formed_parties, pool_nonneg; simpl; try lia.
  apply Forall_replicate. lia.
Qed.

Lemma bounds_inv_step c t s s' :
  cfg_tanks c <= INT_MAX - 20 -> cfg_healers c <= INT_MAX - 20 ->
  cfg_dps c <= INT_MAX - 60 ->
  done_inv s -> bounds_inv c s -> step t s = Some s' -> bounds_inv c s'.
Proof.
  intros Hct Hch Hcd (_ & _ & _ & _ & Hi & _) [Hpool Hf Ht Hh Hd Hsv] Hstep.
  assert (Hroom : a_pc (arrival_th s) = ACycle ->
                  g_tanks (shared s) <= INT_MAX - 2
                  /\ g_healers (shared s) <= INT_MAX - 2
                  /\ g_dps (shared s) <= INT_MAX - 6).
  { intros Hpc. rewrite Hpc in Hi. lia. }
  assert (Hpool' : pool_nonneg (shared s')).
  { destruct (step_pool _ _ _ Hstep)
      as [Heq|[(_ & _ & Htry)|(n_t & n_h & n_d & _ & Hpc & _)]].
    - unfold pool_nonneg, pool in *. simplify_eq. lia.
    - pose proof (try_form_party_nonneg _ Hpool) as H. by rewrite Htry in H.
    - destruct (Hroom Hpc) as (Hrt & Hrh & Hrd).
      exact (pool_nonneg_step t s s' Hpool Hrt Hrh Hrd Hstep). }
  unfold formed_parties, pool_nonneg in *.
  step_cases Hstep.
  - unfold main_step in Hstep.
    destruct (m_pc (main_th s)) eqn:Hpc.
    + destruct (try_form_party (shared s)) as [[] g] eqn:Htry;
        unfold try_form_party in Htry;
        destruct (_ && _) eqn:Htest in Htry; simplify_eq/=.
      * destruct (int_add _ _) as [id|]; [|done]. simplify_eq/=.
        split; unfold formed_parties, pool_nonneg; simpl;
          rewrite ?tally_snoc; simpl; try done; lia.
      * split; unfold formed_parties, pool_nonneg; simpl;
          rewrite ?tally_snoc; simpl; try done; lia.
    + destruct (_ && _) in Hstep; simplify_eq/=;
        split; unfold formed_parties, pool_nonneg; simpl;
          rewrite ?tally_snoc; simpl; try done; lia.
    + destruct (a_pc _); simplify_eq/=;
        split; unfold formed_parties, pool_nonneg; simpl; try done; lia.
    + destruct (forallb _ _) in Hstep; simplify_eq/=;
        split; unfold formed_parties, pool_nonneg; simpl; try done; lia.
    + destruct (sum_served _ _ _ _); simplify_eq/=.
      split; unfold formed_parties, pool_nonneg; simpl;
        rewrite ?tally_snoc; simpl; try done; lia.
    + done.
  - simplify_eq/=.
    apply arrival_step_inv in Ha
      as [(Hpc & Hr & (t & h & d & -> & -> & -> & ->) & -> & ->)
          |(_ & -> & -> & ->)].
    + destruct (Hroom Hpc) as (? & ? & ?).
      rewrite !int_wrap_id in * by (unfold INT_MIN, INT_MAX in *; lia).
      split; unfold formed_parties, pool_nonneg, arrival_test; simpl in *;
        rewrite ?tally_snoc; simpl; try done; lia.
    + split; unfold formed_parties, pool_nonneg; simpl in *;
        rewrite ?tally_snoc; simpl; try done; lia.
  - pose proof (party_step_pool _ _ _ _ _ _ Hp) as (Hpl & _).
    pose proof (party_step_events _ _ _ _ _ _ Hp) as (_ & _ & Hev).
    pose proof (party_step_served _ _ _ _ _ _ Hp Hsv).
    unfold pool in Hpl. simplify_eq/=.
    split; unfold formed_parties, pool_nonneg; simpl;
      rewrite ?tally_app, ?Hev; try done; lia.
Qed.

Lemma bounds_inv_reachable c s :
  0 <= cfg_tanks c <= INT_MAX - 20 -> 0 <= cfg_healers c <= INT_MAX - 20 ->
  0 <= cfg_dps c <= INT_MAX - 60 ->
  reachable c s -> bounds_inv c s.
Proof.
  intros Ht Hh Hd. apply (reachable_invariant c (bounds_inv c)).
  - apply bounds_inv_init; lia.
  - intros t s0 s1 Hreach. apply bounds_inv_step; try lia.
    by apply (done_inv_reachable c).
Qed.



(** C8 as stated fails: validation accepts [INT_MAX] tanks, and the first
    tank the arrival thread adds (line 156) takes the sum beyond
    [INT_MAX]; the counter is then [INT_MIN]. *)
Lemma pool_negative_after_overflow :
  ~ (forall c s,
       1 <= cfg_n c ->
       0 <= cfg_tanks c <= INT_MAX -> 0 <= cfg_healers c <= INT_MAX ->
       0 <= cfg_dps c <= INT_MAX ->
       snd (validate (cfg_n c) (cfg_tanks c) (cfg_healers c) (cfg_dps c)
              (cfg_t1 c) (cfg_t2 c)) = Run c ->
       reachable c s ->
       0 <= g_tanks (shared s) /\ 0 <= g_healers (shared s)
       /\ 0 <= g_dps (shared s)).
Proof.
  intros H.
  destruct (H (Config 1 INT_MAX 0 0 1 1)
              (State (Globals 1 (Semaphore 1) ["empty"%string] [0] [0]
                        INT_MIN 0 0 false)
                     (Main 1 1 0 false 0 MTry) (Arrival 10 1 3 1 ACycle)
                     [] [EvArrival 1 0 0]))
    as [Htanks _]; try done.
  by exists [TArrival 1 0 0].
Qed.

(** ** The loops over the instances *)

(** The scan for a free instance finds the first empty entry at or after
    [i], or none when there is none among the next [n]. *)
Lemma claim_loop_inv status i n r status' :
  0 <= i ->
  claim_loop status i n = Some (r, status') ->
  (r = -1 /\ status' = status
   /\ forall j, (Z.to_nat i <= j < Z.to_nat i + n)%nat ->
        status !! j <> Some "empty"%string)
  \/ (i <= r < i + Z.of_nat n
      /\ status !! Z.to_nat r = Some "empty"%string
      /\ status' = <[Z.to_nat r := "active"%string]> status
      /\ forall j, (Z.to_nat i <= j < Z.to_nat r)%nat ->
           status !! j <> Some "empty"%string).
Proof.
  revert i. induction n as [|n IH]; intros i Hi H; simpl in H.
  - simplify_eq. left. repeat split; try done. intros j Hj. lia.
  - destruct (status !! Z.to_nat i) as [x|] eqn:Hx; [|done]. simpl in H.
    destruct (decide (x = "empty"%string)) as [->|Hne].
    + simplify_eq. right. repeat split; try done; try lia; intros j Hj; lia.
    + apply IH in H as [(-> & -> & Hall)|(Hr & Hempty & -> & Hall)]; [| |lia].
      * left. repeat split; try done. intros j Hj.
        destruct (decide (j = Z.to_nat i)) as [->|]; [congruence|].
        apply Hall. lia.
      * right. repeat split; try done; try lia. intros j Hj.
        destruct (decide (j = Z.to_nat i)) as [->|]; [congruence|].
        apply Hall. lia.
Qed.

(** The scan never reads past the end of a vector of [n] entries. *)
Lemma claim_loop_defined status i n :
  0 <= i -> (Z.to_nat i + n <= length status)%nat ->
  is_Some (claim_loop status i n).
Proof.
  revert i. induction n as [|n IH]; intros i Hi Hlen; simpl; [done|].
  destruct (lookup_lt_is_Some_2 status (Z.to_nat i)) as [x ->]; [lia|]. simpl.
  case_decide; [done|]. apply IH; lia.
Qed.

Lemma claim_loop_none status n :
  (n <= length status)%nat ->
  Forall (fun x => x <> "empty"%string) status ->
  claim_loop status 0 n = Some (-1, status).
Proof.
  intros Hn Hfull.
  destruct (claim_loop_defined status 0 n) as [[r status'] Hloop];
    [done|simpl; lia|].
  rewrite Hloop.
  apply claim_loop_inv in Hloop
    as [(-> & -> & _)|(_ & Hempty & _)]; [done| |done].
  exfalso. by eapply (Forall_lookup_1 _ _ _ _ Hfull Hempty).
Qed.

Lemma sum_served_total served i n acc r :
  0 <= i ->
  sum_served served i n acc = Some r ->
  r = acc + total (take n (drop (Z.to_nat i) served)).
Proof.
  revert i acc. induction n as [|n IH]; intros i acc Hi H; simpl in H.
  - simplify_eq. simpl. lia.
  - destruct (served !! Z.to_nat i) as [x|] eqn:Hx; [|done]. simpl in H.
    destruct (int_add acc x) as [acc'|] eqn:Hacc; [|done]. simpl in H.
    apply int_add_Some in Hacc. apply IH in H; [|lia]. subst.
    rewrite (drop_S _ _ _ Hx). simpl.
    replace (Z.to_nat (i + 1)) with (S (Z.to_nat i)) by lia. lia.
Qed.

(** The summing loop stays within [int] when the whole sum does. *)
Lemma sum_served_defined served i n acc :
  0 <= i -> (Z.to_nat i + n <= length served)%nat ->
  Forall (fun x => 0 <= x) served ->
  0 <= acc ->
  acc + total (take n (drop (Z.to_nat i) served)) <= INT_MAX ->
  is_Some (sum_served served i n acc).
Proof.
  revert i acc. induction n as [|n IH]; intros i acc Hi Hlen Hall Hacc Hmax;
    simpl; [done|].
  destruct (lookup_lt_is_Some_2 served (Z.to_nat i)) as [x Hx]; [lia|].
  rewrite Hx. simpl.
  rewrite (drop_S _ _ _ Hx) in Hmax. simpl in Hmax.
  pose proof (Forall_lookup_1 _ _ _ _ Hall Hx) as Hx0. simpl in Hx0.
  assert (0 <= total (take n (drop (S (Z.to_nat i)) served))).
  { apply total_nonneg. by apply Forall_take, Forall_drop. }
  rewrite int_add_defined by (unfold INT_MIN, INT_MAX in *; lia). simpl.
  apply IH; try done; try lia.
  replace (Z.to_nat (i + 1)) with (S (Z.to_nat i)) by lia. lia.
Qed.

(** ** Who holds which instance *)

Lemma owners_nil status : owners status [].
Proof. split; intros; simplify_eq/=. Qed.

Lemma owners_spawn status ps p :
  holds_slot p = false -> owners status ps -> owners status (ps ++ [p]).
Proof.
  intros Hp [Hown Hdis]. split.
  - intros k q Hk Hq. apply lookup_app_Some in Hk as [Hk|[_ Hk]]; [eauto|].
    apply list_lookup_singleton_Some in Hk as [_ <-]. congruence.
  - intros k1 k2 p1 p2 H1 H2 Hs1 Hs2 Heq.
    apply lookup_app_Some in H1 as [H1|[_ H1]];
      [|apply list_lookup_singleton_Some in H1 as [_ <-]; congruence].
    apply lookup_app_Some in H2 as [H2|[_ H2]];
      [|apply list_lookup_singleton_Some in H2 as [_ <-]; congruence].
    eauto.
Qed.

(** A thread that moves on without taking or giving back an instance. *)
Lemma owners_keep status ps k p p' :
  ps !! k = Some p ->
  (holds_slot p' = true ->
   holds_slot p = true /\ instance_id p' = instance_id p) ->
  owners status ps -> owners status (<[k := p']> ps).
Proof.
  intros Hk Hkeep [Hown Hdis]. split.
  - intros j q Hj Hq.
    apply list_lookup_insert_Some in Hj as [(-> & <- & _)|[Hne Hj]]; [|eauto].
    destruct (Hkeep Hq) as [Hp ->]. eauto.
  - intros k1 k2 p1 p2 H1 H2 Hs1 Hs2 Heq.
    apply list_lookup_insert_Some in H1 as [(-> & <- & _)|[Hne1 H1]];
      apply list_lookup_insert_Some in H2 as [(-> & <- & _)|[Hne2 H2]];
      try done.
    + destruct (Hkeep Hs1) as [Hp Hi]. rewrite Hi in Heq. eauto.
    + destruct (Hkeep Hs2) as [Hp Hi]. rewrite Hi in Heq. eauto.
    + eauto.
Qed.

(** A thread that claims the empty instance [r]. *)
Lemma owners_claim status ps k p p' r :
  ps !! k = Some p -> holds_slot p = false ->
  0 <= r -> status !! Z.to_nat r = Some "empty"%string ->
  instance_id p' = r ->
  owners status ps ->
  owners (<[Z.to_nat r := "active"%string]> status) (<[k := p']> ps).
Proof.
  intros Hk Hp Hr Hempty Hinst [Hown Hdis].
  assert (Hother : forall j q, ps !! j = Some q -> holds_slot q = true ->
                     Z.to_nat (instance_id q) <> Z.to_nat r).
  { intros j q Hj Hq Heq. destruct (Hown j q Hj Hq) as [_ Hact].
    rewrite Heq in Hact. congruence. }
  split.
  - intros j q Hj Hq.
    apply list_lookup_insert_Some in Hj as [(-> & <- & _)|[Hne Hj]].
    + rewrite Hinst. split; [done|].
      apply list_lookup_insert_eq. by eapply lookup_lt_Some.
    + destruct (Hown j q Hj Hq) as [H0 Hact]. split; [done|].
      rewrite list_lookup_insert_ne; [done|]. intros Heq.
      by eapply (Hother j q).
  - intros k1 k2 p1 p2 H1 H2 Hs1 Hs2 Heq.
    apply list_lookup_insert_Some in H1 as [(-> & <- & _)|[Hne1 H1]];
      apply list_lookup_insert_Some in H2 as [(-> & <- & _)|[Hne2 H2]];
      try done.
    + exfalso. eapply (Hother k2 p2); [done..|]. congruence.
    + exfalso. eapply (Hother k1 p1); [done..|]. congruence.
    + eauto.
Qed.

(** A thread that gives its instance back. *)
Lemma owners_release status ps k p p' :
  ps !! k = Some p -> holds_slot p = true -> holds_slot p' = false ->
  owners status ps ->
  owners (<[Z.to_nat (instance_id p) := "empty"%string]> status)
         (<[k := p']> ps).
Proof.
  intros Hk Hp Hp' [Hown Hdis]. split.
  - intros j q Hj Hq.
    apply list_lookup_insert_Some in Hj as [(-> & <- & _)|[Hne Hj]];
      [congruence|].
    destruct (Hown j q Hj Hq) as [H0 Hact]. split; [done|].
    rewrite list_lookup_insert_ne; [done|]. intros Heq.
    destruct (Hown k p Hk Hp) as [H0' _].
    apply Hne. eapply (Hdis k j p q); try done. lia.
  - intros k1 k2 p1 p2 H1 H2 Hs1 Hs2 Heq.
    apply list_lookup_insert_Some in H1 as [(-> & <- & _)|[Hne1 H1]];
      [congruence|].
    apply list_lookup_insert_Some in H2 as [(-> & <- & _)|[Hne2 H2]];
      [congruence|].
    eauto.
Qed.

(** The threads that hold an instance are among those that hold a permit;
    one that holds a permit and no instance makes the count strict. *)
Lemma tally_slot_le_permit ps :
  tally holds_slot ps <= tally holds_permit ps.
Proof.
  induction ps as [|p ps IH]; simpl; [done|].
  unfold holds_slot at 1, holds_permit at 1. destruct (p_pc p); lia.
Qed.

Lemma tally_slot_lt_permit ps k p :
  ps !! k = Some p -> holds_permit p = true -> holds_slot p = false ->
  tally holds_slot ps < tally holds_permit ps.
Proof.
  revert k. induction ps as [|q ps IH]; intros [|k] Hk Hperm Hslot;
    simplify_eq/=.
  - rewrite Hperm, Hslot. pose proof (tally_slot_le_permit ps). lia.
  - specialize (IH k Hk Hperm Hslot).
    unfold holds_slot at 1, holds_permit at 1. destruct (p_pc q); lia.
Qed.

Lemma tally_transit ps :
  tally holds_permit ps = tally holds_slot ps + tally in_transit ps.
Proof.
  induction ps as [|p ps IH]; simpl; [done|].
  unfold holds_slot at 1, holds_permit at 1, in_transit at 1.
  destruct (p_pc p); lia.
Qed.

(** ** The gate and the registry *)

Section Registry.

(** The configuration the run starts from, with at least one instance. *)
Variable c : config.
Hypothesis Hn : 1 <= cfg_n c.

Lemma slot_inv_init : slot_inv c (init_state c).
Proof.
  split; unfold permits, active_slots; simpl;
    rewrite ?length_replicate, ?tally_replicate; try done; try lia.
  - apply Forall_replicate. by left.
  - change (is_active "empty") with false. simpl. lia.
Qed.

Lemma slot_inv_party s k d p p' g' evs :
  slot_inv c s ->
  party_threads s !! k = Some p ->
  run_dungeon_step d p (shared s) = Some (p', g', evs) ->
  slot_inv c (State g' (main_th s) (arrival_th s)
                (<[k := p']> (party_threads s)) (events s ++ evs)).
Proof.
  intros [Hmax Hst Hsv Htm Hval Hnn Hperm Hact Hown] Hk Hstep.
  unfold run_dungeon_step in Hstep. unfold permits, active_slots in *.
  destruct (p_pc p) eqn:Hpc.
  - (* PStart *)
    case_match; [|done]. simplify_eq.
    split; unfold permits, active_slots; simpl; tally_pc Hk Hpc;
      try done; try lia.
    eapply owners_keep; [done| |done]. done.
  - (* PAcquire *)
    unfold acquire in Hstep. case_match; [|done]. simplify_eq/=. bool_hyps.
    split; unfold permits, active_slots; simpl; tally_pc Hk Hpc;
      try done; try lia.
    eapply owners_keep; [done| |done]. done.
  - (* PClaim *)
    destruct (claim_loop _ _ _) as [[r status']|] eqn:Hloop; [|done].
    simplify_eq/=.
    assert (Hp1 : holds_permit p = true)
      by (unfold holds_permit; by rewrite Hpc).
    assert (Hp2 : holds_slot p = false)
      by (unfold holds_slot; by rewrite Hpc).
    pose proof (tally_slot_lt_permit _ _ _ Hk Hp1 Hp2) as Hlt.
    destruct (tally_active_lt _ Hval) as [j Hj]; [lia|].
    pose proof (lookup_lt_Some _ _ _ Hj) as Hjlt.
    apply claim_loop_inv in Hloop
      as [(-> & -> & Hall)|(Hr & Hempty & -> & _)]; [| |done].
    { exfalso. apply (Hall j); [lia|done]. }
    split; unfold permits, active_slots; simpl; rewrite ?length_insert;
      tally_pc Hk Hpc; try done; try lia.
    + apply Forall_insert; [done|by right].
    + rewrite (tally_insert _ _ _ _ _ Hempty). simpl. lia.
    + eapply owners_claim; try done. lia.
  - (* PEnter *)
    simplify_eq/=.
    split; unfold permits, active_slots; simpl; tally_pc Hk Hpc;
      try done; try lia.
    eapply owners_keep; [done| |done]. unfold holds_slot. by rewrite Hpc.
  - (* PRun *)
    assert (Hp : holds_slot p = true) by (unfold holds_slot; by rewrite Hpc).
    destruct (proj1 Hown k p Hk Hp) as [Hi Hactive].
    unfold finish_instance in Hstep.
    destruct (Z.leb_spec 0 (instance_id p)); [|lia].
    rewrite Hactive in Hstep. simpl in Hstep.
    destruct (g_parties_served (shared s) !! _) as [sv|]; [|done].
    destruct (g_time_served (shared s) !! _) as [tm|]; [|done].
    simpl in Hstep. destruct (int_add sv 1) as [sv'|]; [|done].
    simplify_eq/=.
    split; unfold permits, active_slots; simpl; rewrite ?length_insert;
      tally_pc Hk Hpc; try done; try lia.
    + apply Forall_insert; [done|by left].
    + rewrite (tally_insert _ _ _ _ _ Hactive). simpl. lia.
    + eapply owners_release; done.
  - (* PFinish *)
    simplify_eq/=.
    split; unfold permits, active_slots; simpl; tally_pc Hk Hpc;
      try done; try lia.
    eapply owners_keep; [done| |done]. done.
  - (* PRelease *)
    unfold release in Hstep.
    destruct (int_add _ _) as [cnt|] eqn:Hcnt; [|done].
    apply int_add_Some in Hcnt. simplify_eq/=.
    split; unfold permits, active_slots; simpl; tally_pc Hk Hpc;
      try done; try lia.
    eapply owners_keep; [done| |done]. done.
  - done.
Qed.

Lemma slot_inv_frame s s' :
  same_registry (shared s) (shared s') ->
  party_threads s' = party_threads s ->
  slot_inv c s -> slot_inv c s'.
Proof.
  intros (Hm & Hsl & Hst & Hsv & Htm) Hps [].
  split; unfold permits, active_slots in *; congruence.
Qed.

Lemma slot_inv_spawn s s' p :
  same_registry (shared s) (shared s') ->
  p_pc p = PStart ->
  party_threads s' = party_threads s ++ [p] ->
  slot_inv c s -> slot_inv c s'.
Proof.
  intros (Hm & Hsl & Hst & Hsv & Htm) Hp Hps [].
  assert (holds_permit p = false) by (unfold holds_permit; by rewrite Hp).
  assert (Hs : holds_slot p = false) by (unfold holds_slot; by rewrite Hp).
  split; unfold permits, active_slots in *;
    rewrite ?Hps, ?tally_snoc, ?Hm, ?Hsl, ?Hst, ?Hsv, ?Htm; try done.
  - rewrite H. simpl. lia.
  - rewrite Hs. simpl. lia.
  - by apply owners_spawn.
Qed.

Lemma slot_inv_step t s s' :
  slot_inv c s -> step t s = Some s' -> slot_inv c s'.
Proof.
  intros Hinv Hstep. step_cases Hstep.
  - apply main_step_registry in Hstep as [Hreg [Hps|(p & Hp & _ & _ & Hps)]].
    + by eapply slot_inv_frame.
    + by eapply slot_inv_spawn.
  - apply arrival_step_registry in Ha. simplify_eq/=.
    by eapply slot_inv_frame.
  - simplify_eq/=. by eapply slot_inv_party.
Qed.

Lemma slot_inv_reachable s : reachable c s -> slot_inv c s.
Proof.
  apply (reachable_invariant c (slot_inv c)).
  - apply slot_inv_init.
  - intros t s0 s1 _. apply slot_inv_step.
Qed.

(** C3, as the code has it: in every reachable state the active slots are
    between 0 and N and the permits between 0 and N; the permits taken,
    N minus the permits left, are the active slots plus the party threads
    that hold a permit and no instance (after [acquire] and before the
    claim, or after giving the instance back and before [release]).  So
    the active slots never exceed N minus the permits, and are equal to it
    whenever no thread stands between the two. *)
Theorem active_slots_bounded s :
  reachable c s ->
  0 <= active_slots (shared s) <= cfg_n c
  /\ 0 <= permits (shared s) <= cfg_n c
  /\ cfg_n c - permits (shared s)
     = active_slots (shared s) + tally in_transit (party_threads s)
  /\ active_slots (shared s) <= cfg_n c - permits (shared s)
  /\ (tally in_transit (party_threads s) = 0 ->
      active_slots (shared s) = cfg_n c - permits (shared s)).
Proof.
  intros Hreach.
  destruct (slot_inv_reachable s Hreach) as [].
  pose proof (tally_transit (party_threads s)).
  pose proof (tally_nonneg in_transit (party_threads s)).
  pose proof (tally_nonneg holds_slot (party_threads s)).
  lia.
Qed.

(** ** Parties served *)

Lemma tally_all_done ps :
  forallb party_done ps = true ->
  tally has_finished ps = Z.of_nat (length ps).
Proof.
  induction ps as [|p ps IH]; simpl; [done|].
  intros [Hp Hps]%andb_true_iff. rewrite (IH Hps).
  unfold party_done in Hp. unfold has_finished.
  destruct (p_pc p); try done. lia.
Qed.

Lemma served_inv_init : served_inv (init_state c).
Proof.
  split; unfold formed_parties, shut_down; simpl; try done.
  apply total_replicate_0.
Qed.

Lemma served_inv_party s k d p p' g' evs :
  slot_inv c s -> served_inv s ->
  party_threads s !! k = Some p ->
  run_dungeon_step d p (shared s) = Some (p', g', evs) ->
  served_inv (State g' (main_th s) (arrival_th s)
                (<[k := p']> (party_threads s)) (events s ++ evs)).
Proof.
  intros Hslot [Htot Hformed Hnext Hjoin Hsum] Hk Hstep.
  pose proof (party_step_events _ _ _ _ _ _ Hstep) as (_ & _ & Hev).
  assert (Hrun : shut_down s = false).
  { destruct (shut_down s) eqn:Hsd; [|done].
    pose proof (forallb_lookup _ _ _ _ (Hjoin eq_refl) Hk) as Hdone.
    unfold party_done in Hdone. unfold run_dungeon_step in Hstep.
    by destruct (p_pc p). }
  assert (Hnot : m_pc (main_th s) <> MReturned).
  { intros Hpc. unfold shut_down in Hrun. by rewrite Hpc in Hrun. }
  unfold formed_parties, shut_down in *.
  unfold run_dungeon_step in Hstep.
  destruct (p_pc p) eqn:Hpc.
  - destruct (_ && _) in Hstep; [|done]. simplify_eq.
    split; unfold formed_parties, shut_down; simpl;
      rewrite ?tally_app, ?length_insert; tally_pc Hk Hpc;
      simpl;
      try done; try lia; try (intros; congruence).
  - unfold acquire in Hstep. destruct (0 <? _) in Hstep; [|done].
    simplify_eq/=.
    split; unfold formed_parties, shut_down; simpl;
      rewrite ?tally_app, ?length_insert; tally_pc Hk Hpc;
      simpl;
      try done; try lia; try (intros; congruence).
  - destruct (claim_loop _ _ _) as [[r status']|]; [|done]. simplify_eq/=.
    split; unfold formed_parties, shut_down; simpl;
      rewrite ?tally_app, ?length_insert; tally_pc Hk Hpc;
      simpl;
      try done; try lia; try (intros; congruence).
  - simplify_eq/=.
    split; unfold formed_parties, shut_down; simpl;
      rewrite ?tally_app, ?length_insert; tally_pc Hk Hpc;
      simpl;
      try done; try lia; try (intros; congruence).
  - assert (Hp : holds_slot p = true) by (unfold holds_slot; by rewrite Hpc).
    destruct (proj1 (si_owners _ _ Hslot) k p Hk Hp) as [Hi Hactive].
    unfold finish_instance in Hstep.
    destruct (Z.leb_spec 0 (instance_id p)); [|lia].
    rewrite Hactive in Hstep. simpl in Hstep.
    destruct (g_parties_served (shared s) !! _) as [sv|] eqn:Hsv; [|done].
    destruct (g_time_served (shared s) !! _) as [tm|]; [|done].
    simpl in Hstep. destruct (int_add sv 1) as [sv'|] eqn:Hadd; [|done].
    apply int_add_Some in Hadd. simplify_eq/=.
    split; unfold formed_parties, shut_down; simpl;
      rewrite ?tally_app, ?length_insert, ?(total_insert _ _ _ _ Hsv);
      tally_pc Hk Hpc; simpl;
      try done; try lia; try (intros; congruence).
  - simplify_eq/=.
    split; unfold formed_parties, shut_down; simpl;
      rewrite ?tally_app, ?length_insert; tally_pc Hk Hpc;
      simpl;
      try done; try lia; try (intros; congruence).
  - unfold release in Hstep.
    destruct (int_add _ _) as [cnt|]; [|done]. simplify_eq/=.
    split; unfold formed_parties, shut_down; simpl;
      rewrite ?tally_app, ?length_insert; tally_pc Hk Hpc;
      simpl;
      try done; try lia; try (intros; congruence).
  - done.
Qed.

Lemma served_inv_main s s' :
  slot_inv c s -> served_inv s -> main_step s = Some s' -> served_inv s'.
Proof.
  intros Hslot [Htot Hformed Hnext Hjoin Hsum] Hstep.
  unfold main_step in Hstep. unfold formed_parties, shut_down in *.
  destruct (m_pc (main_th s)) eqn:Hpc.
  - destruct (try_form_party (shared s)) as [[] g] eqn:Htry.
    + destruct (int_add _ _) as [id|] eqn:Hid; [|done].
      apply int_add_Some in Hid.
      pose proof (try_form_party_registry (shared s)) as (_ & _ & _ & Hsv & _).
      rewrite Htry in Hsv. simplify_eq/=.
      split; unfold formed_parties, shut_down; simpl;
        rewrite ?tally_snoc, ?length_app, ?Hsv; simpl; try done; lia.
    + pose proof (try_form_party_registry (shared s)) as (_ & _ & _ & Hsv & _).
      rewrite Htry in Hsv. simplify_eq/=.
      split; unfold formed_parties, shut_down; simpl;
        rewrite ?tally_snoc, ?Hsv; simpl; try done; lia.
  - destruct (_ && _) in Hstep; simplify_eq/=;
      split; unfold formed_parties, shut_down; simpl;
        rewrite ?tally_snoc; simpl; try done; lia.
  - destruct (a_pc _); simplify_eq/=;
      split; unfold formed_parties, shut_down; simpl; try done; lia.
  - destruct (forallb _ _) eqn:Hall in Hstep; simplify_eq/=;
      split; unfold formed_parties, shut_down; simpl; try done; lia.
  - destruct (sum_served _ _ _ _) as [tot|] eqn:Hsumm; simplify_eq/=.
    apply sum_served_total in Hsumm; [|done].
    rewrite (si_max _ _ Hslot), <- (si_served _ _ Hslot) in Hsumm.
    simpl in Hsumm. rewrite drop_0, firstn_all in Hsumm.
    split; unfold formed_parties, shut_down; simpl;
      rewrite ?tally_snoc; simpl; try done; try lia; auto.
  - done.
Qed.

Lemma served_inv_step t s s' :
  slot_inv c s -> served_inv s -> step t s = Some s' -> served_inv s'.
Proof.
  intros Hslot Hinv Hstep.
  step_cases Hstep.
  - by eapply served_inv_main.
  - destruct Hinv as [Htot Hformed Hnext Hjoin Hsum].
    unfold formed_parties, shut_down in *. simplify_eq/=.
    apply arrival_step_inv in Ha
      as [(_ & _ & (t & h & d & _ & _ & _ & ->) & -> & ->)|(_ & -> & -> & ->)];
      split; unfold formed_parties, shut_down; simpl;
        rewrite ?tally_snoc; simpl; try done; lia.
  - simplify_eq/=. by eapply served_inv_party.
Qed.

Lemma served_inv_reachable s : reachable c s -> served_inv s.
Proof.
  intros Hreach.
  cut (slot_inv c s /\ served_inv s); [tauto|].
  revert s Hreach. apply (reachable_invariant c).
  - split; [apply slot_inv_init|apply served_inv_init].
  - intros t s0 s1 _ [Hslot Hserved] Hstep. split.
    + by eapply slot_inv_step.
    + by eapply served_inv_step.
Qed.

(** C4: once main has joined every party thread, the parties served summed
    over the instances are the calls of try_form_party that returned true,
    and so is the total main prints; before that, in every reachable state,
    they are the party threads started (one for each such call) that are
    past their update of the statistics. *)
Theorem parties_served_total s :
  reachable c s ->
  formed_parties s = Z.of_nat (length (party_threads s))
  /\ total (g_parties_served (shared s))
     = tally has_finished (party_threads s)
  /\ (shut_down s = true ->
      total (g_parties_served (shared s)) = formed_parties s)
  /\ (m_pc (main_th s) = MReturned ->
      total_parties_all (main_th s) = formed_parties s).
Proof.
  intros Hreach.
  destruct (served_inv_reachable s Hreach)
    as [Htot Hformed Hnext Hjoin Hsum].
  assert (Hdown : shut_down s = true ->
                  total (g_parties_served (shared s)) = formed_parties s).
  { intros Hsd. rewrite Htot, Hformed. apply tally_all_done. auto. }
  repeat split; try done.
  intros Hpc. rewrite (Hsum Hpc). apply Hdown.
  unfold shut_down. by rewrite Hpc.
Qed.

End Registry.

Lemma active_slots_bounded_witness :
  let s := State (Globals 2 (Semaphore 1) ["active"; "empty"]%string
                    [0; 0] [0; 0] 2 0 5 false)
                 (Main 1 2 1 true 0 MTry)
                 (Arrival 10 1 3 1 ACycle)
                 [Party 1 1 2 1 0 PEnter]
                 [EvTryForm true; EvArrival 2 0 5] in
  0 <= active_slots (shared s) <= 2
  /\ 0 <= permits (shared s) <= 2
  /\ 2 - permits (shared s)
     = active_slots (shared s) + tally in_transit (party_threads s)
  /\ active_slots (shared s) <= 2 - permits (shared s)
  /\ (tally in_transit (party_threads s) = 0 ->
      active_slots (shared s) = 2 - permits (shared s)).
Proof.
  apply (active_slots_bounded sample_config); [simpl; lia|].
  apply sample_reachable.
Defined.

(** C3 as stated fails: with N = 1, once the first party thread has
    acquired its permit and not yet claimed an instance, no slot is active
    while N minus the permits is 1. *)
Lemma active_slots_not_permits_taken :
  ~ (forall c s, 1 <= cfg_n c -> reachable c s ->
       0 <= active_slots (shared s) <= cfg_n c
       /\ active_slots (shared s) = cfg_n c - permits (shared s)).
Proof.
  intros H.
  destruct (H (Config 1 1 1 3 1 1)
              (State (Globals 1 (Semaphore 0) ["empty"%string] [0] [0]
                        0 0 0 false)
                     (Main 1 1 1 true 0 MTry) (Arrival 10 1 3 0 ACycle)
                     [Party 1 1 1 1 (-1) PClaim] [EvTryForm true]))
    as [_ Heq]; [simpl; lia| |done].
  by exists [TMain; TParty 0%nat 1; TParty 0%nat 0].
Qed.

Lemma parties_served_total_witness :
  formed_parties one_party_final
    = Z.of_nat (length (party_threads one_party_final))
  /\ total (g_parties_served (shared one_party_final))
     = tally has_finished (party_threads one_party_final)
  /\ (shut_down one_party_final = true ->
      total (g_parties_served (shared one_party_final))
        = formed_parties one_party_final)
  /\ (m_pc (main_th one_party_final) = MReturned ->
      total_parties_all (main_th one_party_final)
        = formed_parties one_party_final).
Proof.
  apply (parties_served_total one_party_config); [simpl; lia|].
  apply one_party_reachable.
Defined.

(** ** A party thread that finds no free instance *)

(** C6, as the code has it: a party thread that holds a permit and finds
    every instance taken keeps -1 as its instance, prints its entry line
    with -1, and after the simulated run prints "ERROR: no instance to
    release." and leaves the registry and the statistics untouched; it
    then goes on as on a normal finish: it prints the finish line, gives
    its permit back and returns. *)
Theorem no_instance_reported_then_finish d p g :
  p_pc p = PClaim ->
  g_max_instances g = Z.of_nat (length (g_instance_status g)) ->
  Forall (fun x => x <> "empty"%string) (g_instance_status g) ->
  in_int (count (g_instance_slots g) + 1) = true ->
  run_dungeon_steps 5 d p g
  = Some (Party (party_id p) (min_time p) (max_time p) (duration p) (-1)
            PDone,
          set_slots (Semaphore (count (g_instance_slots g) + 1)) g,
          [EvEntered (party_id p) (-1) (duration p) (print_status g);
           EvError (party_id p);
           EvFinished (party_id p) (-1) (print_status g)]).
Proof.
  intros Hpc Hmax Hfull Hcnt.
  assert (Hclaim : run_dungeon_step d p g
                   = Some (Party (party_id p) (min_time p) (max_time p)
                             (duration p) (-1) PEnter, g, [])).
  { unfold run_dungeon_step. rewrite Hpc, Hmax, Nat2Z.id.
    rewrite claim_loop_none by done. simpl. by destruct g. }
  cbn [run_dungeon_steps]. rewrite Hclaim. simpl.
  unfold run_dungeon_step, party_at. simpl.
  unfold release, int_add. rewrite Hcnt. reflexivity.
Qed.

Lemma no_instance_reported_then_finish_witness :
  run_dungeon_steps 5 1 (Party 7 1 1 1 (-1) PClaim)
    (Globals 1 (Semaphore 0) ["active"%string] [3] [3] 0 0 0 false)
  = Some (Party 7 1 1 1 (-1) PDone,
          Globals 1 (Semaphore 1) ["active"%string] [3] [3] 0 0 0 false,
          [EvEntered 7 (-1) 1 ["active"%string]; EvError 7;
           EvFinished 7 (-1) ["active"%string]]).
Proof.
  apply (no_instance_reported_then_finish 1 (Party 7 1 1 1 (-1) PClaim)
           (Globals 1 (Semaphore 0) ["active"%string] [3] [3] 0 0 0 false));
    try reflexivity.
  repeat constructor; done.
Defined.

(** C6 as stated fails: the thread that found no instance does return as
    after a normal finish. *)
Lemma no_instance_not_fatal :
  ~ (forall d p g n p' g' evs,
       p_pc p = PClaim ->
       Forall (fun x => x <> "empty"%string) (g_instance_status g) ->
       run_dungeon_steps n d p g = Some (p', g', evs) ->
       p_pc p' <> PDone
       /\ ~ In (EvFinished (party_id p) (-1) (print_status g')) evs).
Proof.
  intros H.
  destruct (H 1 (Party 7 1 1 1 (-1) PClaim)
              (Globals 1 (Semaphore 0) ["active"%string] [3] [3] 0 0 0 false)
              5%nat
              (Party 7 1 1 1 (-1) PDone)
              (Globals 1 (Semaphore 1) ["active"%string] [3] [3] 0 0 0 false)
              [EvEntered 7 (-1) 1 ["active"%string]; EvError 7;
               EvFinished 7 (-1) ["active"%string]]
              eq_refl) as [Hpc _]; [|reflexivity|done].
  repeat constructor; done.
Qed.

(** ** The end of main's loop *)

(** C1: main would try to form a party once more after it has read the done
    flag as true, so that it never leaves its loop with a party left in the
    pool.  The code reads the flag after the try, not before: under
    [race_schedule] the last arrival and the signal fall between the failed
    try and the read, main returns without another try, and the pool is
    left with exactly one party, (1, 1, 3), that was added before the flag
    was read. *)
Theorem main_exits_with_composable_pool :
  exists s,
    run race_schedule (init_state race_config) = Some s
    /\ m_pc (main_th s) = MReturned
    /\ pool (shared s) = (1, 1, 3)
    /\ composable (shared s) = true
    /\ fst (try_form_party (shared s)) = true
    /\ events s
       = replicate 9 (EvArrival 0 0 0)
         ++ [EvTryForm false; EvArrival 1 1 3; EvSignal; EvObserveDone true;
             EvSummary 0]
    /\ after_done_observed (events s) = Some [EvSummary 0]
    /\ tally is_try [EvSummary 0] = 0
    /\ formed_parties s = 0.
Proof. eexists. split; [vm_compute; reflexivity|]. by vm_compute. Qed.

Lemma since_last_try_app evs evs' :
  since_last_try (evs ++ evs')
  = fold_left note_event evs' (since_last_try evs).
Proof. unfold since_last_try. apply fold_left_app. Qed.

Lemma note_events_no_try evs formed since :
  tally is_try evs = 0 ->
  fold_left note_event evs (Some (formed, since))
  = Some (formed, since ++ evs).
Proof.
  revert since. induction evs as [|e evs IH]; intros since Hno; simpl.
  - by rewrite app_nil_r.
  - simpl in Hno. pose proof (tally_nonneg is_try evs).
    destruct e; simpl in *; try lia;
      (rewrite IH by lia; by rewrite <- app_assoc).
Qed.

(** Events of the other threads change nothing in [loop_inv]. *)
Lemma loop_inv_quiet s s' evs :
  m_pc (main_th s') = m_pc (main_th s) ->
  events s' = events s ++ evs ->
  tally is_try evs = 0 -> tally is_observe evs = 0 ->
  tally is_observe_true evs = 0 ->
  loop_inv s -> loop_inv s'.
Proof.
  intros Hpc Hev H1 H2 H3. unfold loop_inv. rewrite Hpc, Hev.
  destruct (m_pc (main_th s)); try done;
    intros (since & Hsince & Hobs); exists (since ++ evs);
    rewrite since_last_try_app, Hsince, note_events_no_try by done;
    rewrite !tally_app; (split; [done|]); lia.
Qed.

Lemma tally_observe_true_le l :
  tally is_observe_true l <= tally is_observe l.
Proof. induction l as [|[| [] | | | | | |] l IH]; simpl; lia. Qed.

Lemma loop_inv_step t s s' : loop_inv s -> step t s = Some s' -> loop_inv s'.
Proof.
  intros Hinv Hstep. step_cases Hstep.
  - unfold main_step in Hstep. unfold loop_inv in *.
    destruct (m_pc (main_th s)) eqn:Hpc.
    + destruct (try_form_party (shared s)) as [[] g].
      * destruct (int_add _ _); by simplify_eq/=.
      * simplify_eq/=. exists [].
        by rewrite since_last_try_app.
    + destruct Hinv as (since & Hsince & Htry & Hobs).
      destruct (g_arrival_done (shared s)) eqn:Hdone;
        [destruct (formed_any (main_th s))|]; simplify_eq/=; try done.
      exists (since ++ [EvObserveDone true]).
      rewrite since_last_try_app, Hsince, !tally_app. simpl.
      split; [done|]. pose proof (tally_nonneg is_observe_true since).
      pose proof (tally_observe_true_le since). lia.
    + destruct (a_pc _); by simplify_eq/=.
    + destruct (forallb _ _); by simplify_eq/=.
    + destruct (sum_served _ _ _ _) as [tot|]; simplify_eq/=.
      destruct Hinv as (since & Hsince & Hobs).
      exists (since ++ [EvSummary tot]).
      rewrite since_last_try_app, Hsince, !tally_app. simpl.
      split; [done|]. lia.
    + done.
  - simplify_eq/=.
    apply (loop_inv_quiet s _ evs); try done;
      apply arrival_step_inv in Ha
        as [(_ & _ & _ & _ & ->)|(_ & _ & _ & ->)]; done.
  - simplify_eq/=. apply party_step_quiet in Hp as (? & ? & ?).
    by apply (loop_inv_quiet s _ evs).
Qed.

(** X11: once main has left its loop, its latest call of try_form_party is one
    that returned false, and main has read the done flag exactly once
    since, as true, without trying again: the last attempt comes before
    the read of the flag, never after it. *)
Lemma loop_exit_follows_failed_try c s :
  reachable c s -> loop_exited s = true ->
  exists since,
    since_last_try (events s) = Some (false, since)
    /\ tally is_try since = 0
    /\ tally is_observe since = 1
    /\ tally is_observe_true since = 1.
Proof.
  intros Hreach Hexit.
  assert (Hinv : loop_inv s).
  { revert s Hreach Hexit. intros s Hreach _. revert s Hreach.
    apply (reachable_invariant c); [done|].
    intros t s0 s1 _. apply loop_inv_step. }
  unfold loop_inv, loop_exited in *.
  by destruct (m_pc (main_th s)).
Qed.

(** ** Concurrent callers of try_form_party *)

Lemma callers_run_snoc sched k s :
  Callers.run (sched ++ [k]) s = Callers.run sched s ≫= Callers.step k.
Proof.
  revert s. induction sched as [|j sched IH]; intros s; simpl.
  - by destruct (Callers.step k s).
  - destruct (Callers.step j s); simpl; [apply IH|done].
Qed.

(** A call that runs alone is try_form_party. *)
Lemma caller_alone g :
  exists sched,
    Callers.run sched (Callers.init 1 g)
    = Some (Callers.State false (snd (try_form_party g))
              [Callers.Returned (fst (try_form_party g))]).
Proof.
  unfold try_form_party.
  destruct ((1 <=? g_tanks g) && (1 <=? g_healers g) && (3 <=? g_dps g))
    eqn:Htest.
  - exists (replicate 6 0%nat). simpl. unfold Callers.step. simpl.
    rewrite Htest. simpl. reflexivity.
  - exists (replicate 3 0%nat). simpl. unfold Callers.step. simpl.
    rewrite Htest. simpl. reflexivity.
Qed.

Lemma callers_inv_init k g :
  pool g = (1, 1, 3) -> callers_inv k (Callers.init k g).
Proof.
  intros Hg. unfold pool in Hg. simplify_eq.
  split; unfold Callers.n_at; simpl; rewrite ?length_replicate,
    ?tally_replicate; simpl; try done; lia.
Qed.

Ltac callers_nonneg s :=
  pose proof (tally_nonneg (Callers.at_pc Callers.Lock) (Callers.callers s));
  pose proof (tally_nonneg (Callers.at_pc Callers.Test) (Callers.callers s));
  pose proof (tally_nonneg (Callers.at_pc Callers.SubTanks)
                (Callers.callers s));
  pose proof (tally_nonneg (Callers.at_pc Callers.SubHealers)
                (Callers.callers s));
  pose proof (tally_nonneg (Callers.at_pc Callers.SubDps) (Callers.callers s));
  pose proof (tally_nonneg (Callers.at_pc (Callers.Unlock true))
                (Callers.callers s));
  pose proof (tally_nonneg (Callers.at_pc (Callers.Unlock false))
                (Callers.callers s));
  pose proof (tally_nonneg (Callers.at_pc (Callers.Returned true))
                (Callers.callers s));
  pose proof (tally_nonneg (Callers.at_pc (Callers.Returned false))
                (Callers.callers s)).

(** After the caller at [Hk] has moved, the counts are the old ones with
    one caller less at its old place and one more at its new place. *)
Ltac callers_moved Hk :=
  split; unfold Callers.n_at in *; simpl;
  rewrite ?length_insert;
  repeat (erewrite (tally_insert_eq _ _ _ _ _ _ _ Hk);
          [ | reflexivity .. ]);
  simpl b2z; try done;
  match type of Hk with
  | _ !! _ = Some ?c =>
      pose proof (tally_lookup_pos (Callers.at_pc c) _ _ _ Hk eq_refl)
  end;
  try lia.

Lemma callers_inv_step k j s s' :
  callers_inv k s -> Callers.step j s = Some s' -> callers_inv k s'.
Proof.
  intros [Hlen Hmx Hone Ht Hh Hd Href] Hstep.
  unfold Callers.step in Hstep.
  destruct (Callers.callers s !! j) as [c|] eqn:Hk; [|done].
  simpl in Hstep. unfold Callers.n_at in *. callers_nonneg s.
  destruct c as [| | | | |[]|[]]; simpl in Hstep.
  - destruct (Callers.g_data_mutex s) eqn:Hm; [done|]. simplify_eq/=.
    callers_moved Hk.
  - pose proof (tally_lookup_pos (Callers.at_pc Callers.Test) _ _ _ Hk
                  eq_refl).
    destruct (Callers.g_data_mutex s) eqn:Hm; simpl in Hmx; [|lia].
    destruct (_ && _) eqn:Htest in Hstep; simplify_eq/=.
    + bool_hyps. callers_moved Hk.
    + assert (g_tanks (Callers.data s) < 1 \/ g_healers (Callers.data s) < 1
              \/ g_dps (Callers.data s) < 3).
      { rewrite !andb_false_iff, !Z.leb_gt in Htest. tauto. }
      callers_moved Hk.
  - simplify_eq/=. callers_moved Hk.
  - simplify_eq/=. callers_moved Hk.
  - simplify_eq/=. callers_moved Hk.
  - simplify_eq/=.
    destruct (Callers.g_data_mutex s) eqn:Hm; simpl in Hmx; callers_moved Hk.
  - simplify_eq/=.
    destruct (Callers.g_data_mutex s) eqn:Hm; simpl in Hmx; callers_moved Hk.
  - done.
  - done.
Qed.

Lemma callers_inv_run k sched s s' :
  callers_inv k s -> Callers.run sched s = Some s' -> callers_inv k s'.
Proof.
  revert s. induction sched as [|j sched IH]; intros s Hinv Hrun;
    simpl in Hrun.
  - by simplify_eq.
  - destruct (Callers.step j s) as [s1|] eqn:Hs1; [|done].
    eapply IH; [|done]. by eapply callers_inv_step.
Qed.

Lemma tally_has_deducted l :
  tally Callers.has_deducted l
  = tally (Callers.at_pc Callers.SubTanks) l
    + tally (Callers.at_pc Callers.SubHealers) l
    + tally (Callers.at_pc Callers.SubDps) l
    + tally (Callers.at_pc (Callers.Unlock true)) l
    + tally (Callers.at_pc (Callers.Returned true)) l.
Proof.
  induction l as [|c l IH]; simpl; [done|]. rewrite IH.
  destruct c as [| | | | |[]|[]]; simpl; lia.
Qed.

Lemma tally_all_returned l :
  forallb Callers.is_returned l = true ->
  tally (Callers.at_pc (Callers.Returned true)) l
  + tally (Callers.at_pc (Callers.Returned false)) l = Z.of_nat (length l).
Proof.
  induction l as [|c l IH]; simpl; [done|].
  intros [Hc Hl]%andb_true_iff. specialize (IH Hl).
  destruct c as [| | | | |[]|[]]; simpl in *; try done; lia.
Qed.

Lemma not_all_returned l :
  forallb Callers.is_returned l = false ->
  exists j c, l !! j = Some c /\ Callers.is_returned c = false.
Proof.
  induction l as [|c l IH]; simpl; [done|].
  intros [Hc|Hl]%andb_false_iff.
  - by exists 0%nat, c.
  - destruct (IH Hl) as (j & c' & Hj & Hc'). by exists (S j), c'.
Qed.

(** Unless every caller has returned, one of them can move: the one in the
    critical section, or any waiting one when the mutex is free. *)
Lemma callers_progress k s :
  callers_inv k s -> Callers.all_returned s = false ->
  exists j, is_Some (Callers.step j s).
Proof.
  intros [Hlen Hmx Hone Ht Hh Hd Href] Hnot.
  unfold Callers.n_at in *. callers_nonneg s.
  destruct (not_all_returned _ Hnot) as (j & c & Hj & Hc).
  assert (Hmove : forall i x, Callers.callers s !! i = Some x ->
            is_Some (Callers.caller_step x (Callers.g_data_mutex s)
                       (Callers.data s)) ->
            is_Some (Callers.step i s)).
  { intros i x Hi [[[c' m'] g'] Hx]. unfold Callers.step.
    rewrite Hi. simpl. rewrite Hx. simpl. done. }
  destruct (Callers.g_data_mutex s) eqn:Hm; simpl in Hmx.
  - assert (Hin : 0 < tally (fun x => negb (Callers.is_returned x)
                                     && negb (Callers.at_pc Callers.Lock x))
                        (Callers.callers s)).
    { assert (Hsum : forall l,
                tally (fun x => negb (Callers.is_returned x)
                                && negb (Callers.at_pc Callers.Lock x)) l
                = tally (Callers.at_pc Callers.Test) l
                  + tally (Callers.at_pc Callers.SubTanks) l
                  + tally (Callers.at_pc Callers.SubHealers) l
                  + tally (Callers.at_pc Callers.SubDps) l
                  + tally (Callers.at_pc (Callers.Unlock true)) l
                  + tally (Callers.at_pc (Callers.Unlock false)) l).
      { induction l as [|y l IH]; simpl; [done|]. rewrite IH.
        destruct y as [| | | | |[]|[]]; simpl; lia. }
      rewrite Hsum. lia. }
    apply tally_pos_lookup in Hin as (i & x & Hi & Hx).
    exists i. apply (Hmove i x Hi).
    destruct x as [| | | | |[]|[]]; simpl in *; try done;
      by destruct (_ && _).
  - exists j. apply (Hmove j c Hj).
    pose proof (tally_lookup_pos (Callers.at_pc c) _ _ _ Hj) as Hpos.
    destruct c as [| | | | |[]|[]]; simpl in *; try done;
      specialize (Hpos eq_refl); lia.
Qed.

(** C9: whatever the interleaving of [k] callers on a pool of exactly
    (1, 1, 3), at no time has more than one caller passed the test and
    deducted; when all have returned, exactly one has returned true, the
    other [k - 1] false, and the pool is (0, 0, 0); and as long as one has
    not returned some caller can move, so no interleaving gets stuck before
    that. *)
Theorem try_form_party_atomic k g sched s :
  (1 <= k)%nat -> pool g = (1, 1, 3) ->
  Callers.run sched (Callers.init k g) = Some s ->
  tally Callers.has_deducted (Callers.callers s) <= 1
  /\ (Callers.all_returned s = true ->
      Callers.n_at (Callers.Returned true) s = 1
      /\ Callers.n_at (Callers.Returned false) s = Z.of_nat k - 1
      /\ pool (Callers.data s) = (0, 0, 0))
  /\ (Callers.all_returned s = false ->
      exists j, is_Some (Callers.step j s)).
Proof.
  intros Hk Hg Hrun.
  pose proof (callers_inv_run k sched _ s (callers_inv_init k g Hg) Hrun)
    as Hinv.
  split; [|split].
  - rewrite tally_has_deducted. apply (ci_one _ _ Hinv).
  - intros Hall. destruct Hinv as [Hlen Hmx Hone Ht Hh Hd Href].
    unfold Callers.n_at, Callers.all_returned, pool in *. callers_nonneg s.
    apply tally_all_returned in Hall. rewrite Hlen in Hall.
    assert (tally (Callers.at_pc (Callers.Returned true)) (Callers.callers s)
            = 1) by lia.
    repeat split; try lia. f_equal; [f_equal|]; lia.
  - by eapply callers_progress.
Qed.

Lemma try_form_party_atomic_witness :
  let g := Globals 1 (Semaphore 1) ["empty"%string] [0] [0] 1 1 3 false in
  let s := Callers.State false (set_pool 0 0 0 g)
             [Callers.Returned true; Callers.Returned false;
              Callers.Returned false] in
  tally Callers.has_deducted (Callers.callers s) <= 1
  /\ (Callers.all_returned s = true ->
      Callers.n_at (Callers.Returned true) s = 1
      /\ Callers.n_at (Callers.Returned false) s = Z.of_nat 3 - 1
      /\ pool (Callers.data s) = (0, 0, 0))
  /\ (Callers.all_returned s = false ->
      exists j, is_Some (Callers.step j s)).
Proof.
  apply (try_form_party_atomic 3
           (Globals 1 (Semaphore 1) ["empty"%string] [0] [0] 1 1 3 false)
           [0; 0; 0; 0; 0; 0; 2; 2; 2; 1; 1; 1]%nat);
    [lia|reflexivity|reflexivity].
Defined.

(** ** No addition leaves the range of int *)

(** For inputs in [small_config] the steps of the model are defined
    wherever the source has a step: a thread has no step only where it
    waits in [acquire] or in a join, or has returned.  No addition leaves
    the range of [int] and no vector is read past its end. *)
Lemma steps_defined c s :
  small_config c -> reachable c s ->
  (main_waits s = false -> is_Some (step TMain s))
  /\ (forall n_t n_h n_d,
        a_pc (arrival_th s) <> AReturned ->
        arrival_amounts n_t n_h n_d = true ->
        is_Some (step (TArrival n_t n_h n_d) s))
  /\ (forall k d p,
        party_threads s !! k = Some p ->
        party_waits d p (shared s) = false ->
        is_Some (step (TParty k d) s)).
Proof.
  intros (Hn & Ht & Hh & Hd) Hreach.
  pose proof (done_inv_reachable c s Hreach)
    as (_ & _ & _ & _ & Hi & _).
  pose proof (slot_inv_reachable c (proj1 Hn) s Hreach) as Hslot.
  pose proof (served_inv_reachable c (proj1 Hn) s Hreach) as Hserved.
  pose proof (bounds_inv_reachable c s Ht Hh Hd Hreach) as Hbounds.
  assert (Hai : 0 <= a_i (arrival_th s) <= 10)
    by (destruct (a_pc (arrival_th s)); lia).
  destruct Hbounds as [Hpool Hf0 Hbt Hbh Hbd Hsv0].
  destruct Hserved as [Htot Hformed Hnext _ _].
  unfold pool_nonneg in Hpool. unfold INT_MAX, INT_MIN in *.
  split; [|split].
  - (* main *)
    unfold main_waits. simpl. unfold main_step.
    destruct (m_pc (main_th s)) eqn:Hpc; try done.
    + unfold try_form_party.
      destruct (_ && _) eqn:Htest; [|done]. bool_hyps.
      rewrite int_add_defined; [done|]. unfold INT_MAX, INT_MIN. lia.
    + by destruct (_ && _).
    + by destruct (a_pc (arrival_th s)).
    + intros Hall. apply negb_false_iff in Hall. by rewrite Hall.
    + intros _.
      destruct (sum_served_defined (g_parties_served (shared s)) 0
                  (Z.to_nat (g_max_instances (shared s))) 0)
        as [tot Htotal]; try done.
      * rewrite (si_max _ _ Hslot), (si_served _ _ Hslot). simpl. lia.
      * rewrite (si_max _ _ Hslot), <- (si_served _ _ Hslot). simpl.
        rewrite drop_0, firstn_all, Htot.
        pose proof (tally_le_length has_finished (party_threads s)).
        unfold INT_MAX. lia.
      * by rewrite Htotal.
  - (* the arrival thread *)
    intros n_t n_h n_d Hpc Hamounts. simpl. unfold arrival_thread_func_step.
    unfold arrival_amounts in Hamounts.
    destruct (a_pc (arrival_th s)); [|done|done].
    by rewrite Hamounts.
  - (* a party thread *)
    intros k d p Hk Hwait. simpl. rewrite Hk. simpl.
    unfold party_waits in Hwait. unfold run_dungeon_step.
    destruct (p_pc p) eqn:Hpc; try done.
    + apply negb_false_iff in Hwait. by rewrite Hwait.
    + unfold acquire. apply Z.leb_gt in Hwait.
      destruct (Z.ltb_spec 0 (count (g_instance_slots (shared s))));
        [done|lia].
    + destruct (claim_loop_defined (g_instance_status (shared s)) 0
                  (Z.to_nat (g_max_instances (shared s))))
        as [[r st] Hloop]; [done| |by rewrite Hloop].
      rewrite (si_max _ _ Hslot), (si_status _ _ Hslot). simpl. lia.
    + assert (Hp : holds_slot p = true)
        by (unfold holds_slot; by rewrite Hpc).
      destruct (proj1 (si_owners _ _ Hslot) k p Hk Hp) as [Hi0 Hactive].
      pose proof (lookup_lt_Some _ _ _ Hactive) as Hlt.
      unfold finish_instance.
      destruct (Z.leb_spec 0 (instance_id p)); [|lia].
      rewrite Hactive. simpl.
      destruct (lookup_lt_is_Some_2 (g_parties_served (shared s))
                  (Z.to_nat (instance_id p))) as [sv Hsv];
        [rewrite (si_served _ _ Hslot), <- (si_status _ _ Hslot); lia|].
      destruct (lookup_lt_is_Some_2 (g_time_served (shared s))
                  (Z.to_nat (instance_id p))) as [tm Htm];
        [rewrite (si_time _ _ Hslot), <- (si_status _ _ Hslot); lia|].
      rewrite Hsv, Htm. simpl.
      pose proof (lookup_le_total _ _ _ Hsv0 Hsv).
      assert (has_finished p = false)
        by (unfold has_finished; by rewrite Hpc).
      pose proof (tally_lt_length has_finished _ _ _ Hk H1).
      rewrite int_add_defined; [done|]. unfold INT_MAX, INT_MIN. lia.
    + unfold release.
      assert (Hp : holds_permit p = true)
        by (unfold holds_permit; by rewrite Hpc).
      pose proof (tally_lookup_pos holds_permit _ _ _ Hk Hp).
      pose proof (si_permits _ _ Hslot).
      pose proof (si_permits_nonneg _ _ Hslot).
      unfold permits in *.
      rewrite int_add_defined; [done|]. unfold INT_MAX, INT_MIN. lia.
Qed.

(* ===================================================================== *)
(** * Further properties of P2/main.cpp *)

(** ** Startup validation, in closed form *)

(** X1: main returns 1 exactly when [n] is not positive or a player count is
    negative, and with no other code; with [n <= 0] the only line printed is
    the one about [n], whatever the other inputs; otherwise the run starts
    with [n] and the player counts as typed. *)
Theorem validate_exit_iff n tanks healers dps t1 t2 :
  (snd (validate n tanks healers dps t1 t2) = Exit 1
   <-> n <= 0 \/ tanks < 0 \/ healers < 0 \/ dps < 0)
  /\ (forall code,
        snd (validate n tanks healers dps t1 t2) = Exit code -> code = 1)
  /\ (n <= 0 -> fst (validate n tanks healers dps t1 t2) = [msg_bad_n])
  /\ (forall c,
        snd (validate n tanks healers dps t1 t2) = Run c ->
        cfg_n c = n /\ cfg_tanks c = tanks /\ cfg_healers c = healers
        /\ cfg_dps c = dps
        /\ (cfg_t1 c, cfg_t2 c) = snd (validate_bounds t1 t2)).
Proof.
  unfold validate.
  destruct (validate_bounds t1 t2) as [w [a b]].
  destruct (Z.leb_spec n 0), (Z.ltb_spec tanks 0), (Z.ltb_spec healers 0),
    (Z.ltb_spec dps 0); simpl;
    repeat split; intros; simplify_eq;
    first [done | lia | exfalso; lia].
Qed.

(** X2: the two bounds after lines 199-208, with [r1], [r2] the inputs raised
    to 0: the smaller of the two, and the larger cut at 15; the swap line is
    printed when [r2 < r1], the clamp line when the larger exceeds 15.  The
    bounds come out ordered exactly when the smaller input is at most 15. *)
Theorem validate_bounds_closed_form t1 t2 :
  let r1 := Z.max 0 t1 in
  let r2 := Z.max 0 t2 in
  validate_bounds t1 t2
  = ((if r2 <? r1 then [msg_swap] else [])
     ++ (if 15 <? Z.max r1 r2 then [msg_clamp] else []),
     (Z.min r1 r2, Z.min (Z.max r1 r2) 15))
  /\ (Z.min r1 r2 <= Z.min (Z.max r1 r2) 15 <-> Z.min t1 t2 <= 15).
Proof.
  intros r1 r2. subst r1 r2. split; [|lia].
  unfold validate_bounds, swap_bounds, clamp_t2.
  rewrite !raise_negative_max.
  destruct (Z.ltb_spec (Z.max 0 t2) (Z.max 0 t1)).
  - rewrite (Z.max_l (Z.max 0 t1)), (Z.min_r (Z.max 0 t1)) by lia.
    destruct (Z.ltb_spec 15 (Z.max 0 t1)); simpl; do 2 f_equal; lia.
  - rewrite (Z.max_r (Z.max 0 t1)), (Z.min_l (Z.max 0 t1)) by lia.
    destruct (Z.ltb_spec 15 (Z.max 0 t2)); simpl; do 2 f_equal; lia.
Qed.

(** ** The claim of an instance *)

(** X3: the claim of lines 79-89 takes the lowest-numbered empty instance: it
    either finds none among the [g_max_instances] entries, keeps -1 and
    changes nothing, or marks the first empty entry active and changes no
    other entry.  It prints nothing and touches no other global. *)
Theorem claim_takes_lowest_empty d p g p' g' evs :
  p_pc p = PClaim ->
  run_dungeon_step d p g = Some (p', g', evs) ->
  evs = [] /\ p_pc p' = PEnter
  /\ g' = set_status (g_instance_status g') g
  /\ ((instance_id p' = -1
       /\ g_instance_status g' = g_instance_status g
       /\ forall j, (j < Z.to_nat (g_max_instances g))%nat ->
            g_instance_status g !! j <> Some "empty"%string)
      \/ (0 <= instance_id p' < g_max_instances g
          /\ g_instance_status g !! Z.to_nat (instance_id p')
             = Some "empty"%string
          /\ g_instance_status g'
             = <[Z.to_nat (instance_id p') := "active"%string]>
                 (g_instance_status g)
          /\ forall j, (j < Z.to_nat (instance_id p'))%nat ->
               g_instance_status g !! j <> Some "empty"%string)).
Proof.
  intros Hpc Hstep. unfold run_dungeon_step in Hstep. rewrite Hpc in Hstep.
  destruct (claim_loop _ _ _) as [[r status']|] eqn:Hloop; [|done].
  simpl in Hstep. simplify_eq. simpl.
  split; [done|]. split; [done|]. split; [done|].
  apply claim_loop_inv in Hloop
    as [(-> & -> & Hall)|(Hr & Hempty & -> & Hall)]; [| |done].
  - left. repeat split; try done. intros j Hj. apply Hall. simpl. lia.
  - right. repeat split; try done; try lia. intros j Hj. apply Hall. lia.
Qed.

Lemma claim_takes_lowest_empty_witness :
  let g := Globals 3 (Semaphore 1) ["active"; "empty"; "empty"]%string
             [0; 0; 0] [0; 0; 0] 0 0 0 false in
  let p' := Party 4 1 2 1 1 PEnter in
  let g' := set_status ["active"; "active"; "empty"]%string g in
  ([] : list event) = [] /\ p_pc p' = PEnter
  /\ g' = set_status (g_instance_status g') g
  /\ ((instance_id p' = -1
       /\ g_instance_status g' = g_instance_status g
       /\ forall j, (j < Z.to_nat (g_max_instances g))%nat ->
            g_instance_status g !! j <> Some "empty"%string)
      \/ (0 <= instance_id p' < g_max_instances g
          /\ g_instance_status g !! Z.to_nat (instance_id p')
             = Some "empty"%string
          /\ g_instance_status g'
             = <[Z.to_nat (instance_id p') := "active"%string]>
                 (g_instance_status g)
          /\ forall j, (j < Z.to_nat (instance_id p'))%nat ->
               g_instance_status g !! j <> Some "empty"%string)).
Proof.
  apply (claim_takes_lowest_empty 1 (Party 4 1 2 1 (-1) PClaim));
    reflexivity.
Defined.

(** ** Sums *)

Lemma sum_over_app {A} (f : A -> Z) l1 l2 :
  sum_over f (l1 ++ l2) = sum_over f l1 + sum_over f l2.
Proof. induction l1 as [|x l1 IH]; simpl; [done|]. rewrite IH. lia. Qed.

Lemma sum_over_insert {A} (f : A -> Z) (l : list A) k x y :
  l !! k = Some x -> sum_over f (<[k := y]> l) = sum_over f l - f x + f y.
Proof.
  revert k. induction l as [|z l IH]; intros [|k] Hk; simplify_eq/=.
  - lia.
  - rewrite (IH k Hk). lia.
Qed.

Lemma sum_over_between {A} (f : A -> Z) (lo hi : Z) (l : list A) :
  (forall x, x ∈ l -> lo <= f x <= hi) ->
  lo * Z.of_nat (length l) <= sum_over f l <= hi * Z.of_nat (length l).
Proof.
  induction l as [|x l IH]; intros Hall; simpl; [lia|].
  pose proof (Hall x (list_elem_of_here _ _)).
  destruct IH as [? ?]; [intros y Hy; apply Hall; by right|]. lia.
Qed.

(** ** The party threads and their instances *)

(** What a step of a party thread does to its own locals. *)
Lemma party_step_locals d p g p' g' evs :
  run_dungeon_step d p g = Some (p', g', evs) ->
  party_id p' = party_id p /\ min_time p' = min_time p
  /\ max_time p' = max_time p
  /\ (if p_pc p is PStart
      then duration p' = d /\ min_time p <= d <= max_time p
      else duration p' = duration p)
  /\ (if p_pc p is PClaim then True else instance_id p' = instance_id p)
  /\ tally is_error evs
     = (if p_pc p is PRun then (if 0 <=? instance_id p then 0 else 1)
        else 0).
Proof.
  unfold run_dungeon_step, finish_instance, acquire, release. intros H.
  destruct (p_pc p) eqn:Hpc; invert_step; bool_hyps; simpl; try done;
    repeat split; try done; lia.
Qed.

Lemma lookup_insert_forall {A} (P : nat -> A -> Prop) (l : list A) k y :
  (forall j z, l !! j = Some z -> P j z) -> P k y ->
  forall j z, <[k := y]> l !! j = Some z -> P j z.
Proof.
  intros Hall Hy j z Hj.
  apply list_lookup_insert_Some in Hj as [(-> & <- & _)|[_ Hj]]; eauto.
Qed.

Lemma lookup_snoc_forall {A} (P : nat -> A -> Prop) (l : list A) y :
  (forall j z, l !! j = Some z -> P j z) -> P (length l) y ->
  forall j z, (l ++ [y]) !! j = Some z -> P j z.
Proof.
  intros Hall Hy j z Hj.
  apply lookup_app_Some in Hj as [Hj|[Hge Hj]]; [eauto|].
  apply list_lookup_singleton_Some in Hj as [Hj <-].
  by replace j with (length l) by lia.
Qed.

Lemma party_inv_init c : party_inv c (init_state c).
Proof.
  split; simpl; try done. by rewrite total_replicate_0.
Qed.

(** With the gate and the registry in step, the claim finds an instance. *)
Lemma claim_finds c s k p r status' :
  slot_inv c s ->
  party_threads s !! k = Some p -> p_pc p = PClaim ->
  claim_loop (g_instance_status (shared s)) 0
    (Z.to_nat (g_max_instances (shared s))) = Some (r, status') ->
  0 <= r < cfg_n c.
Proof.
  intros [Hmax Hst Hsv Htm Hval Hnn Hperm Hact Hown] Hk Hpc Hloop.
  unfold permits, active_slots in *.
  assert (Hp1 : holds_permit p = true)
    by (unfold holds_permit; by rewrite Hpc).
  assert (Hp2 : holds_slot p = false)
    by (unfold holds_slot; by rewrite Hpc).
  pose proof (tally_slot_lt_permit _ _ _ Hk Hp1 Hp2) as Hlt.
  destruct (tally_active_lt _ Hval) as [j Hj]; [lia|].
  pose proof (lookup_lt_Some _ _ _ Hj) as Hjlt.
  apply claim_loop_inv in Hloop
    as [(-> & -> & Hall)|(Hr & Hempty & -> & _)]; [| |done].
  - exfalso. apply (Hall j); [lia|done].
  - lia.
Qed.

Lemma party_inv_party c s k d p p' g' evs :
  slot_inv c s -> party_inv c s ->
  party_threads s !! k = Some p ->
  run_dungeon_step d p (shared s) = Some (p', g', evs) ->
  party_inv c (State g' (main_th s) (arrival_th s)
                 (<[k := p']> (party_threads s)) (events s ++ evs)).
Proof.
  intros Hslot [Hmain Hids Hdur Hfound Herr Htime] Hk Hp.
  pose proof (party_step_locals _ _ _ _ _ _ Hp)
    as (Hid & Hmin & Hmax & Hd & Hi & He).
  destruct (Hids k p Hk) as (Hid0 & Hmin0 & Hmax0).
  split; simpl.
  - done.
  - apply (lookup_insert_forall (fun j q => party_id q = Z.of_nat j + 1
      /\ min_time q = cfg_t1 c /\ max_time q = cfg_t2 c)); [done|].
    by rewrite Hid, Hmin, Hmax.
  - apply (lookup_insert_forall (fun j q => past_start q = true ->
      min_time q <= duration q <= max_time q)); [done|].
    intros _. rewrite Hmin, Hmax.
    destruct (p_pc p) eqn:Hpc; [lia|..]; rewrite Hd;
      apply (Hdur k p Hk); unfold past_start; by rewrite Hpc.
  - apply (lookup_insert_forall (fun j q => past_claim q = true ->
      0 <= instance_id q < cfg_n c)); [done|]. intros Hpast.
    unfold run_dungeon_step, acquire in Hp.
    destruct (p_pc p) eqn:Hpc;
      try (rewrite Hi; apply (Hfound k p Hk); unfold past_claim;
           by rewrite Hpc).
    + by invert_step.
    + by invert_step.
    + destruct (claim_loop _ _ _) as [[r st]|] eqn:Hloop; [|done].
      simplify_eq/=. by eapply claim_finds.
  - rewrite tally_app, Herr, He.
    destruct (p_pc p) eqn:Hpc; try done.
    assert (0 <= instance_id p < cfg_n c) as [H0 _].
    { apply (Hfound k p Hk). unfold past_claim. by rewrite Hpc. }
    by destruct (Z.leb_spec 0 (instance_id p)); [|lia].
  - rewrite (sum_over_insert _ _ _ _ _ Hk), <- Htime.
    unfold run_dungeon_step, finish_instance, acquire, release in Hp.
    unfold time_added, has_finished.
    destruct (p_pc p) eqn:Hpc; invert_step; simpl; rewrite ?Hpc; try lia.
    + erewrite total_insert by done. lia.
    + exfalso.
      assert (0 <= instance_id p < cfg_n c) as [H0 _]; [|lia].
      apply (Hfound k p Hk). unfold past_claim. by rewrite Hpc.
Qed.

Lemma party_inv_main c s s' :
  served_inv s -> party_inv c s -> main_step s = Some s' -> party_inv c s'.
Proof.
  intros [_ Hformed Hnext _ _] [Hmain Hids Hdur Hfound Herr Htime] Hstep.
  unfold main_step in Hstep. unfold formed_parties in *.
  destruct Hmain as [Ht1 Ht2].
  destruct (m_pc (main_th s)) eqn:Hpc.
  - pose proof (try_form_party_registry (shared s)) as (_ & _ & _ & _ & Htm).
    destruct (try_form_party (shared s)) as [[] g] eqn:Htry.
    + destruct (int_add _ _) as [id|] eqn:Hid; [|done].
      apply int_add_Some in Hid. simplify_eq/=.
      split; simpl; rewrite ?tally_app, ?sum_over_app, ?Htm; simpl;
        try done; try lia.
      * apply (lookup_snoc_forall (fun j q => party_id q = Z.of_nat j + 1
          /\ min_time q = cfg_t1 c /\ max_time q = cfg_t2 c)); [done|].
        simpl. repeat split; try done. lia.
      * by apply (lookup_snoc_forall (fun j q => past_start q = true ->
          min_time q <= duration q <= max_time q)).
      * by apply (lookup_snoc_forall (fun j q => past_claim q = true ->
          0 <= instance_id q < cfg_n c)).
      * rewrite Htime. unfold time_added. simpl. lia.
    + simplify_eq/=.
      split; simpl; rewrite ?tally_app, ?Htm; simpl; try done; lia.
  - destruct (_ && _) in Hstep; simplify_eq/=;
      split; simpl; rewrite ?tally_app; simpl; try done; lia.
  - destruct (a_pc _); simplify_eq/=; by split.
  - destruct (forallb _ _) in Hstep; simplify_eq/=; by split.
  - destruct (sum_served _ _ _ _) as [tot|]; simplify_eq/=.
    split; simpl; rewrite ?tally_app; simpl; try done; lia.
  - done.
Qed.

Lemma party_inv_step c t s s' :
  slot_inv c s -> served_inv s -> party_inv c s ->
  step t s = Some s' -> party_inv c s'.
Proof.
  intros Hslot Hserved Hinv Hstep.
  step_cases Hstep.
  - by eapply party_inv_main.
  - destruct Hinv as [Hmain Hids Hdur Hfound Herr Htime]. simplify_eq/=.
    apply arrival_step_inv in Ha
      as [(_ & _ & (t & h & d & _ & _ & _ & ->) & -> & ->)|(_ & -> & -> & ->)];
      split; simpl; rewrite ?tally_app; simpl; try done; lia.
  - simplify_eq/=. by eapply party_inv_party.
Qed.

Lemma party_inv_reachable c s :
  1 <= cfg_n c -> reachable c s -> party_inv c s.
Proof.
  intros Hn Hreach.
  cut (slot_inv c s /\ served_inv s /\ party_inv c s); [tauto|].
  revert s Hreach. apply (reachable_invariant c).
  - split_and!;
      [by apply slot_inv_init|apply served_inv_init|apply party_inv_init].
  - intros t s0 s1 _ (Hslot & Hserved & Hparty) Hstep. split_and!.
    + by eapply slot_inv_step.
    + by eapply served_inv_step.
    + by eapply party_inv_step.
Qed.

(** ** The player pool, conserved *)






(** ** The statistics of the instances *)





(** ** What holds in every reachable state *)

Lemma sample_state_reachable : reachable sample_config sample_state.
Proof. by exists sample_schedule. Defined.

(** X4: in every reachable state each party thread between its claim and the
    step that gives the instance back (lines 79-108) holds an instance of
    the range 0..n-1 whose status is "active", and no two party threads
    hold the same instance. *)
Theorem instances_held_exclusively c s :
  1 <= cfg_n c -> reachable c s ->
  (forall k p,
     party_threads s !! k = Some p -> holds_slot p = true ->
     0 <= instance_id p < cfg_n c
     /\ g_instance_status (shared s) !! Z.to_nat (instance_id p)
        = Some "active"%string)
  /\ (forall k1 k2 p1 p2,
        party_threads s !! k1 = Some p1 -> party_threads s !! k2 = Some p2 ->
        holds_slot p1 = true -> holds_slot p2 = true ->
        instance_id p1 = instance_id p2 -> k1 = k2).
Proof.
  intros Hn Hreach.
  pose proof (slot_inv_reachable c Hn s Hreach) as Hslot.
  destruct (si_owners _ _ Hslot) as [Hactive Hdistinct].
  split; [|done].
  intros k p Hk Hp. destruct (Hactive k p Hk Hp) as [H0 Hst].
  split; [|done].
  apply lookup_lt_Some in Hst. rewrite (si_status _ _ Hslot) in Hst. lia.
Qed.

Lemma instances_held_exclusively_witness :
  (forall k p,
     party_threads sample_state !! k = Some p -> holds_slot p = true ->
     0 <= instance_id p < 2
     /\ g_instance_status (shared sample_state) !! Z.to_nat (instance_id p)
        = Some "active"%string)
  /\ (forall k1 k2 p1 p2,
        party_threads sample_state !! k1 = Some p1 ->
        party_threads sample_state !! k2 = Some p2 ->
        holds_slot p1 = true -> holds_slot p2 = true ->
        instance_id p1 = instance_id p2 -> k1 = k2).
Proof.
  apply (instances_held_exclusively sample_config); [simpl; lia|].
  apply sample_state_reachable.
Defined.

(** X5: the line "ERROR: no instance to release." of line 110 is never printed:
    in every reachable state no such line is among the events, and every
    party thread past its claim (lines 79-89) has found an instance,
    0 <= instance_id < n. *)
Theorem error_line_never_printed c s :
  1 <= cfg_n c -> reachable c s ->
  tally is_error (events s) = 0
  /\ (forall k p,
        party_threads s !! k = Some p -> past_claim p = true ->
        0 <= instance_id p < cfg_n c).
Proof.
  intros Hn Hreach.
  pose proof (party_inv_reachable c s Hn Hreach) as Hparty.
  split; [apply (pi_no_error _ _ Hparty)|apply (pi_found _ _ Hparty)].
Qed.

Lemma error_line_never_printed_witness :
  tally is_error (events one_party_final) = 0
  /\ (forall k p,
        party_threads one_party_final !! k = Some p -> past_claim p = true ->
        0 <= instance_id p < 1).
Proof.
  apply (error_line_never_printed one_party_config); [simpl; lia|].
  apply one_party_reachable.
Defined.








(** ** After the joins *)

Lemma tally_none_done (f : party -> bool) ps :
  (forall p, party_done p = true -> f p = false) ->
  forallb party_done ps = true -> tally f ps = 0.
Proof.
  intros Hf. induction ps as [|p ps IH]; simpl; [done|].
  intros [Hp Hps]%andb_true_iff. by rewrite (Hf p Hp), (IH Hps).
Qed.

Lemma tally_active_0 (status : list string) :
  Forall (fun x => x = "empty"%string \/ x = "active"%string) status ->
  tally is_active status = 0 ->
  Forall (eq "empty"%string) status.
Proof.
  induction 1 as [|x l [->| ->] _ IH]; simpl; intros H0.
  - done.
  - constructor; [done|]. apply IH. lia.
  - pose proof (tally_nonneg is_active l). lia.
Qed.

(** X9: when main prints the summary, after the joins of lines 268-269, the
    program is at rest: every party thread has returned, the gate has all
    its n permits back, no instance is active and every status printed is
    "empty". *)
Theorem quiescent_after_joins c s :
  1 <= cfg_n c -> reachable c s -> shut_down s = true ->
  forallb party_done (party_threads s) = true
  /\ a_pc (arrival_th s) = AReturned
  /\ permits (shared s) = cfg_n c
  /\ active_slots (shared s) = 0
  /\ print_status (shared s)
     = replicate (Z.to_nat (cfg_n c)) "empty"%string.
Proof.
  intros Hn Hreach Hdown.
  pose proof (slot_inv_reachable c Hn s Hreach) as Hslot.
  pose proof (served_inv_reachable c Hn s Hreach) as Hserved.
  destruct (done_inv_reachable c s Hreach) as (Hdone & _ & _ & _ & _ & Hexit).
  pose proof (sv_joined _ Hserved Hdown) as Hall.
  assert (Hperm : tally holds_permit (party_threads s) = 0).
  { apply tally_none_done; [|done]. intros p. unfold party_done, holds_permit.
    by destruct (p_pc p). }
  assert (Hheld : tally holds_slot (party_threads s) = 0).
  { apply tally_none_done; [|done]. intros p. unfold party_done, holds_slot.
    by destruct (p_pc p). }
  pose proof (si_permits _ _ Hslot) as Hp.
  pose proof (si_active _ _ Hslot) as Ha.
  split_and!; try done; try lia.
  - apply Hdone, Hexit. unfold shut_down in Hdown. unfold loop_exited.
    by destruct (m_pc (main_th s)).
  - unfold print_status, active_slots in *.
    rewrite (si_max _ _ Hslot), <- (si_status _ _ Hslot), firstn_all.
    symmetry. apply replicate_as_Forall. split; [done|].
    apply tally_active_0; [apply (si_values _ _ Hslot)|lia].
Qed.

Lemma quiescent_after_joins_witness :
  forallb party_done (party_threads one_party_final) = true
  /\ a_pc (arrival_th one_party_final) = AReturned
  /\ permits (shared one_party_final) = 1
  /\ active_slots (shared one_party_final) = 0
  /\ print_status (shared one_party_final)
     = replicate (Z.to_nat 1) "empty"%string.
Proof.
  apply (quiescent_after_joins one_party_config); [simpl; lia| |done].
  apply one_party_reachable.
Defined.

(** ** Progress *)

Lemma forallb_false_lookup {A} (f : A -> bool) (l : list A) :
  forallb f l = false -> exists k x, l !! k = Some x /\ f x = false.
Proof.
  induction l as [|y l IH]; simpl; [done|].
  destruct (f y) eqn:Hy; simpl.
  - intros (k & x & Hk & Hx)%IH. by exists (S k), x.
  - intros _. by exists 0%nat, y.
Qed.

Lemma waiting_state_reachable : reachable waiting_config waiting_state.
Proof. exists waiting_schedule. vm_compute. reflexivity. Qed.

(** X10: no step is undefined and the program cannot get stuck.  For an input
    in [small_config], whose counters stay within [int], and ordered
    bounds, t1 <= t2, in every reachable state:
    - a thread has a next step wherever the source has one: main unless
      it waits in a join or has returned, the arrival thread until it has
      returned, a party thread unless it waits in [acquire] with no permit
      left or has returned (at its start, for every duration the
      distribution of line 72 can yield);
    - a party thread that waits in [acquire] coexists with a party thread
      that holds a permit and can move;
    - while main waits for the arrival thread (line 268) that thread can
      move, and while it waits for the party threads (line 269) one of
      them can move;
    - so, unless main has returned, some thread can take its next step. *)
Theorem never_stuck c s :
  small_config c -> cfg_t1 c <= cfg_t2 c -> reachable c s ->
  ((main_waits s = false -> is_Some (step TMain s))
   /\ (forall n_t n_h n_d,
         a_pc (arrival_th s) <> AReturned ->
         arrival_amounts n_t n_h n_d = true ->
         is_Some (step (TArrival n_t n_h n_d) s))
   /\ (forall k d p,
         party_threads s !! k = Some p ->
         party_waits d p (shared s) = false ->
         is_Some (step (TParty k d) s)))
  /\ (forall k p,
        party_threads s !! k = Some p -> p_pc p = PAcquire ->
        count (g_instance_slots (shared s)) <= 0 ->
        exists j q,
          party_threads s !! j = Some q /\ holds_permit q = true
          /\ is_Some (step (TParty j 0) s))
  /\ (m_pc (main_th s) = MJoinArrival ->
      a_pc (arrival_th s) <> AReturned ->
      is_Some (step (TArrival 0 0 0) s))
  /\ (m_pc (main_th s) = MJoinParties ->
      forallb party_done (party_threads s) = false ->
      exists k d, is_Some (step (TParty k d) s))
  /\ (m_pc (main_th s) <> MReturned -> exists t s', step t s = Some s').
Proof.
  intros Hsmall Ht12 Hreach.
  pose proof (steps_defined c s Hsmall Hreach) as Hdefined.
  destruct Hdefined as (Hmain & Harr & Hparty).
  assert (Hn : 1 <= cfg_n c) by (destruct Hsmall as [[? _] _]; done).
  pose proof (slot_inv_reachable c Hn s Hreach) as Hslot.
  pose proof (party_inv_reachable c s Hn Hreach) as Hpinv.
  assert (Hholder :
    count (g_instance_slots (shared s)) <= 0 ->
    exists j q,
      party_threads s !! j = Some q /\ holds_permit q = true
      /\ is_Some (step (TParty j 0) s)).
  { intros Hnone.
    pose proof (si_permits _ _ Hslot) as Hperm.
    pose proof (si_permits_nonneg _ _ Hslot) as Hnn.
    unfold permits in *.
    destruct (tally_pos_lookup holds_permit (party_threads s))
      as (j & q & Hj & Hq); [lia|].
    exists j, q. split_and!; [done|done|].
    apply (Hparty j 0 q Hj).
    unfold party_waits. unfold holds_permit in Hq.
    by destruct (p_pc q). }
  assert (Hjoined :
    forallb party_done (party_threads s) = false ->
    exists k d, is_Some (step (TParty k d) s)).
  { intros (k & p & Hk & Hp)%forallb_false_lookup.
    unfold party_done in Hp.
    destruct (pi_ids _ _ Hpinv k p Hk) as (_ & Hmin & Hmax).
    destruct (p_pc p) eqn:Hppc; try done;
      try (exists k, 0; apply (Hparty k 0 p Hk);
           unfold party_waits; by rewrite Hppc).
    - exists k, (cfg_t1 c). apply (Hparty k _ p Hk).
      unfold party_waits. rewrite Hppc, Hmin, Hmax.
      apply negb_false_iff, andb_true_iff. split; apply Z.leb_le; lia.
    - destruct (Z.leb_spec (count (g_instance_slots (shared s))) 0)
        as [Hnone|Hsome].
      + destruct (Hholder Hnone) as (j & q & _ & _ & Hstep). by exists j, 0.
      + exists k, 0. apply (Hparty k 0 p Hk).
        unfold party_waits. rewrite Hppc. apply Z.leb_gt. lia. }
  split_and!; try done.
  - intros _ Hpc. by apply Harr.
  - intros Hpc.
    assert (Hmoves : forall t, is_Some (step t s) ->
                               exists t s', step t s = Some s').
    { intros t [s' Hs']. by exists t, s'. }
    destruct (main_waits s) eqn:Hwait; [|by apply (Hmoves TMain), Hmain].
    unfold main_waits in Hwait.
    destruct (m_pc (main_th s)) eqn:Hm; try done.
    + apply (Hmoves (TArrival 0 0 0)), Harr; [|done].
      by destruct (a_pc (arrival_th s)).
    + apply negb_true_iff in Hwait.
      destruct (Hjoined Hwait) as (k & d & Hstep). by apply (Hmoves _ Hstep).
Qed.

Lemma never_stuck_witness :
  ((main_waits waiting_state = false -> is_Some (step TMain waiting_state))
   /\ (forall n_t n_h n_d,
         a_pc (arrival_th waiting_state) <> AReturned ->
         arrival_amounts n_t n_h n_d = true ->
         is_Some (step (TArrival n_t n_h n_d) waiting_state))
   /\ (forall k d p,
         party_threads waiting_state !! k = Some p ->
         party_waits d p (shared waiting_state) = false ->
         is_Some (step (TParty k d) waiting_state)))
  /\ (forall k p,
        party_threads waiting_state !! k = Some p -> p_pc p = PAcquire ->
        count (g_instance_slots (shared waiting_state)) <= 0 ->
        exists j q,
          party_threads waiting_state !! j = Some q
          /\ holds_permit q = true
          /\ is_Some (step (TParty j 0) waiting_state))
  /\ (m_pc (main_th waiting_state) = MJoinArrival ->
      a_pc (arrival_th waiting_state) <> AReturned ->
      is_Some (step (TArrival 0 0 0) waiting_state))
  /\ (m_pc (main_th waiting_state) = MJoinParties ->
      forallb party_done (party_threads waiting_state) = false ->
      exists k d, is_Some (step (TParty k d) waiting_state))
  /\ (m_pc (main_th waiting_state) <> MReturned ->
      exists t s', step t waiting_state = Some s').
Proof.
  apply (never_stuck waiting_config).
  - unfold small_config, INT_MAX. simpl. lia.
  - simpl. lia.
  - apply waiting_state_reachable.
Defined.


(** ** The end of main's loop, in the run with one party *)

Lemma loop_exit_follows_failed_try_witness :
  exists since,
    since_last_try (events one_party_final) = Some (false, since)
    /\ tally is_try since = 0
    /\ tally is_observe since = 1
    /\ tally is_observe_true since = 1.
Proof.
  apply (loop_exit_follows_failed_try one_party_config);
    [apply one_party_reachable|done].
Defined.

(** ** Concurrent callers of try_form_party, on any pool *)

Lemma callers_pool_inv_init k g :
  pool_nonneg g -> callers_pool_inv g k (Callers.init k g).
Proof.
  intros (Ht & Hh & Hd).
  split; unfold callers_served, Callers.n_at, same_registry; simpl;
    rewrite ?length_replicate, ?tally_replicate; simpl; try done; lia.
Qed.

Ltac served_moved Hk :=
  split; unfold callers_served, Callers.n_at, same_registry in *; simpl;
  rewrite ?length_insert;
  repeat (erewrite (tally_insert_eq _ _ _ _ _ _ _ Hk);
          [ | reflexivity .. ]);
  simpl b2z; try done;
  match type of Hk with
  | _ !! _ = Some ?c =>
      pose proof (tally_lookup_pos (Callers.at_pc c) _ _ _ Hk eq_refl)
  end;
  try lia.

Lemma callers_pool_inv_step g0 k j s s' :
  callers_pool_inv g0 k s -> Callers.step j s = Some s' ->
  callers_pool_inv g0 k s'.
Proof.
  intros [Hlen Hmx Ht Hh Hd Hrest Henough Href] Hstep.
  unfold Callers.step in Hstep.
  destruct (Callers.callers s !! j) as [c|] eqn:Hk; [|done].
  simpl in Hstep. unfold callers_served, Callers.n_at in *. callers_nonneg s.
  destruct c as [| | | | |[]|[]]; simpl in Hstep.
  - destruct (Callers.g_data_mutex s) eqn:Hm; [done|]. simplify_eq/=.
    served_moved Hk.
  - pose proof (tally_lookup_pos (Callers.at_pc Callers.Test) _ _ _ Hk
                  eq_refl).
    destruct (Callers.g_data_mutex s) eqn:Hm; simpl in Hmx; [|lia].
    destruct (_ && _) eqn:Htest in Hstep; simplify_eq/=.
    + bool_hyps. served_moved Hk.
    + assert (g_tanks (Callers.data s) < 1 \/ g_healers (Callers.data s) < 1
              \/ g_dps (Callers.data s) < 3).
      { rewrite !andb_false_iff, !Z.leb_gt in Htest. tauto. }
      served_moved Hk.
  - simplify_eq/=. served_moved Hk.
  - simplify_eq/=. served_moved Hk.
  - simplify_eq/=. served_moved Hk.
  - simplify_eq/=.
    destruct (Callers.g_data_mutex s) eqn:Hm; simpl in Hmx; served_moved Hk.
  - simplify_eq/=.
    destruct (Callers.g_data_mutex s) eqn:Hm; simpl in Hmx; served_moved Hk.
  - done.
  - done.
Qed.

Lemma callers_pool_inv_run g0 k sched s s' :
  callers_pool_inv g0 k s -> Callers.run sched s = Some s' ->
  callers_pool_inv g0 k s'.
Proof.
  revert s. induction sched as [|j sched IH]; intros s Hinv Hrun;
    simpl in Hrun.
  - by simplify_eq.
  - destruct (Callers.step j s) as [s1|] eqn:Hs1; [|done].
    eapply IH; [|done]. by eapply callers_pool_inv_step.
Qed.

Lemma tally_in_section l :
  tally in_section l
  = tally (Callers.at_pc Callers.Test) l
    + tally (Callers.at_pc Callers.SubTanks) l
    + tally (Callers.at_pc Callers.SubHealers) l
    + tally (Callers.at_pc Callers.SubDps) l
    + tally (Callers.at_pc (Callers.Unlock true)) l
    + tally (Callers.at_pc (Callers.Unlock false)) l.
Proof.
  induction l as [|c l IH]; simpl; [done|]. rewrite IH.
  destruct c as [| | | | |[]|[]]; simpl; lia.
Qed.

(** X12: concurrent calls of try_form_party are serialised by [g_data_mutex].
    Whatever the interleaving of [k] callers on a pool of non-negative
    counts: at any time at most one caller is inside the critical section
    and the mutex is held exactly then; the pool never goes negative and
    nothing but the pool is written; and when all have returned, as many
    have returned true as the pool held parties ([k] if it held more), the
    others false, the pool is less one tank, one healer and three damage
    dealers for each true, and the mutex is free. *)
Theorem try_form_party_serialised k g sched s :
  pool_nonneg g ->
  Callers.run sched (Callers.init k g) = Some s ->
  tally in_section (Callers.callers s) = b2z (Callers.g_data_mutex s)
  /\ pool_nonneg (Callers.data s)
  /\ same_registry g (Callers.data s)
  /\ g_arrival_done (Callers.data s) = g_arrival_done g
  /\ (Callers.all_returned s = true ->
      let m := Z.min (Z.of_nat k) (parties_in g) in
      Callers.n_at (Callers.Returned true) s = m
      /\ Callers.n_at (Callers.Returned false) s = Z.of_nat k - m
      /\ pool (Callers.data s)
         = (g_tanks g - m, g_healers g - m, g_dps g - 3 * m)
      /\ Callers.g_data_mutex s = false).
Proof.
  intros Hg Hrun.
  pose proof (callers_pool_inv_run g k sched _ s
                (callers_pool_inv_init k g Hg) Hrun)
    as [Hlen Hmx Ht Hh Hd [Hreg Hdone] (Het & Heh & Hed) Href].
  destruct Hg as (Hg1 & Hg2 & Hg3).
  unfold callers_served, Callers.n_at, pool_nonneg in *. callers_nonneg s.
  split_and!; try done.
  - by rewrite tally_in_section.
  - lia.
  - lia.
  - lia.
  - intros Hall. unfold Callers.all_returned in Hall.
    pose proof (tally_all_returned _ Hall) as Hsum. rewrite Hlen in Hsum.
    assert (Hnone : tally in_section (Callers.callers s) = 0).
    { clear -Hall. induction (Callers.callers s) as [|c l IH]; [done|].
      simpl in *. apply andb_true_iff in Hall as [Hc Hl].
      rewrite (IH Hl). by destruct c. }
    rewrite tally_in_section in Hnone.
    unfold parties_in, pool.
    pose proof (Z.div_mod (g_dps g) 3 ltac:(lia)) as Hdiv.
    pose proof (Z.mod_pos_bound (g_dps g) 3 ltac:(lia)) as Hmod.
    assert (Hm : tally (Callers.at_pc (Callers.Returned true))
                   (Callers.callers s)
                 = Z.min (Z.of_nat k)
                     (Z.min (g_tanks g) (Z.min (g_healers g) (g_dps g / 3))))
      by lia.
    simpl. rewrite <- Hm. split_and!; try lia.
    + f_equal; [f_equal|]; lia.
    + destruct (Callers.g_data_mutex s); [simpl in Hmx; lia|done].
Qed.

Lemma try_form_party_serialised_witness :
  let g := Globals 1 (Semaphore 1) ["empty"%string] [0] [0] 2 3 7 false in
  let s := Callers.State false (set_pool 0 1 1 g)
             [Callers.Returned true; Callers.Returned false;
              Callers.Returned true] in
  tally in_section (Callers.callers s) = b2z (Callers.g_data_mutex s)
  /\ pool_nonneg (Callers.data s)
  /\ same_registry g (Callers.data s)
  /\ g_arrival_done (Callers.data s) = g_arrival_done g
  /\ (Callers.all_returned s = true ->
      let m := Z.min (Z.of_nat 3) (parties_in g) in
      Callers.n_at (Callers.Returned true) s = m
      /\ Callers.n_at (Callers.Returned false) s = Z.of_nat 3 - m
      /\ pool (Callers.data s)
         = (g_tanks g - m, g_healers g - m, g_dps g - 3 * m)
      /\ Callers.g_data_mutex s = false).
Proof.
  apply (try_form_party_serialised 3
           (Globals 1 (Semaphore 1) ["empty"%string] [0] [0] 2 3 7 false)
           ([0; 0; 0; 0; 0; 0] ++ [2; 2; 2; 2; 2; 2] ++ [1; 1; 1])%nat).
  - unfold pool_nonneg. simpl. lia.
  - vm_compute. reflexivity.
Defined.

(** ** The inner loop of main *)

Lemma parties_in_spec g n :
  pool_nonneg g ->
  parties_in g = n <->
  (0 <= n /\ n <= g_tanks g /\ n <= g_healers g /\ 3 * n <= g_dps g
   /\ (g_tanks g < n + 1 \/ g_healers g < n + 1 \/ g_dps g < 3 * (n + 1))).
Proof.
  intros (Ht & Hh & Hd). unfold parties_in.
  pose proof (Z.div_mod (g_dps g) 3 ltac:(lia)).
  pose proof (Z.mod_pos_bound (g_dps g) 3 ltac:(lia)).
  lia.
Qed.

(** X13: left alone, the inner loop of main (lines 251-256) forms every party
    the pool holds: from a state in which main is about to call
    try_form_party, with a pool that holds [n] parties and ids that stay
    within [int], [n + 1] steps of main form [n] parties, start the [n]
    party threads with the next [n] ids and the bounds of main, leave a
    pool from which no party can be formed, and take main to the test of
    the done flag, with [formed_any] set if [n] is not 0.  Nothing else
    changes. *)
Theorem inner_loop_forms_all n s :
  m_pc (main_th s) = MTry ->
  pool_nonneg (shared s) ->
  parties_in (shared s) = Z.of_nat n ->
  INT_MIN <= next_party_id (main_th s) ->
  next_party_id (main_th s) + Z.of_nat n <= INT_MAX ->
  exists s',
    run (replicate (S n) TMain) s = Some s'
    /\ main_th s'
       = Main (m_t1 (main_th s)) (m_t2 (main_th s))
           (next_party_id (main_th s) + Z.of_nat n)
           (formed_any (main_th s) || (0 <? Z.of_nat n))
           (total_parties_all (main_th s)) MCheck
    /\ shared s'
       = set_pool (g_tanks (shared s) - Z.of_nat n)
           (g_healers (shared s) - Z.of_nat n)
           (g_dps (shared s) - 3 * Z.of_nat n) (shared s)
    /\ composable (shared s') = false
    /\ arrival_th s' = arrival_th s
    /\ party_threads s'
       = party_threads s
         ++ new_parties (next_party_id (main_th s)) (m_t1 (main_th s))
              (m_t2 (main_th s)) n
    /\ events s'
       = events s ++ replicate n (EvTryForm true) ++ [EvTryForm false].
Proof.
  revert s. induction n as [|n IH]; intros s Hpc Hpool Hn Hlo Hhi.
  - apply parties_in_spec in Hn; [|done].
    exists (State (shared s)
              (Main (m_t1 (main_th s)) (m_t2 (main_th s))
                 (next_party_id (main_th s)) (formed_any (main_th s))
                 (total_parties_all (main_th s)) MCheck)
              (arrival_th s) (party_threads s)
              (events s ++ [EvTryForm false])).
    assert (Htest : (1 <=? g_tanks (shared s)) && (1 <=? g_healers (shared s))
                    && (3 <=? g_dps (shared s)) = false).
    { rewrite !andb_false_iff, !Z.leb_gt. lia. }
    simpl. unfold main_step, try_form_party, composable.
    rewrite Hpc, Htest. simpl.
    rewrite Z.add_0_r, !Z.sub_0_r, orb_false_r, app_nil_r.
    split_and!; try done. by destruct (shared s).
  - apply parties_in_spec in Hn; [|done].
    destruct Hpool as (Ht & Hh & Hd).
    assert (Htest : (1 <=? g_tanks (shared s)) && (1 <=? g_healers (shared s))
                    && (3 <=? g_dps (shared s)) = true).
    { rewrite !andb_true_iff, !Z.leb_le. lia. }
    set (s1 := State
                 (set_pool (g_tanks (shared s) - 1) (g_healers (shared s) - 1)
                    (g_dps (shared s) - 3) (shared s))
                 (Main (m_t1 (main_th s)) (m_t2 (main_th s))
                    (next_party_id (main_th s) + 1) true
                    (total_parties_all (main_th s)) MTry)
                 (arrival_th s)
                 (party_threads s
                  ++ [Party (next_party_id (main_th s) + 1) (m_t1 (main_th s))
                        (m_t2 (main_th s)) 0 (-1) PStart])
                 (events s ++ [EvTryForm true])).
    assert (Hs1 : step TMain s = Some s1).
    { simpl. unfold main_step, try_form_party. rewrite Hpc, Htest.
      rewrite int_add_defined by lia. done. }
    destruct (IH s1) as (s' & Hrun & Hm & Hg & Hc & Ha & Hps & Hev).
    + done.
    + unfold pool_nonneg. simpl. lia.
    + apply parties_in_spec; [unfold pool_nonneg; simpl; lia|]. simpl. lia.
    + simpl. lia.
    + simpl. lia.
    + exists s'. change (replicate (S (S n)) TMain)
        with (TMain :: replicate (S n) TMain).
      cbn [run]. rewrite Hs1. cbn [mbind option_bind]. rewrite Hrun.
      split_and!; try done.
      * rewrite Hm. simpl. f_equal; first [lia | by rewrite ?orb_true_r].
      * rewrite Hg. simpl. unfold set_pool. simpl. f_equal; lia.
      * rewrite Hps. simpl. by rewrite <- app_assoc.
      * rewrite Hev. simpl. by rewrite <- app_assoc.
Qed.

Lemma inner_loop_forms_all_witness :
  let s := State (Globals 2 (Semaphore 2) ["empty"; "empty"]%string
                    [0; 0] [0; 0] 2 3 7 false)
                 (Main 1 2 0 false 0 MTry) (Arrival 10 1 3 0 ACycle) [] [] in
  exists s',
    run (replicate 3 TMain) s = Some s'
    /\ main_th s' = Main 1 2 (0 + Z.of_nat 2) (false || (0 <? Z.of_nat 2))
                      0 MCheck
    /\ shared s'
       = set_pool (2 - Z.of_nat 2) (3 - Z.of_nat 2) (7 - 3 * Z.of_nat 2)
           (shared s)
    /\ composable (shared s') = false
    /\ arrival_th s' = arrival_th s
    /\ party_threads s' = [] ++ new_parties 0 1 2 2
    /\ events s' = [] ++ replicate 2 (EvTryForm true) ++ [EvTryForm false].
Proof.
  apply (inner_loop_forms_all 2
           (State (Globals 2 (Semaphore 2) ["empty"; "empty"]%string
                     [0; 0] [0; 0] 2 3 7 false)
                  (Main 1 2 0 false 0 MTry) (Arrival 10 1 3 0 ACycle) [] []));
    done.
Defined.

(** ** A whole call of run_dungeon *)

Lemma claim_loop_finds status n i :
  (n <= length status)%nat -> (i < n)%nat ->
  status !! i = Some "empty"%string ->
  (forall j, (j < i)%nat -> status !! j <> Some "empty"%string) ->
  claim_loop status 0 n
  = Some (Z.of_nat i, <[i := "active"%string]> status).
Proof.
  intros Hn Hi Hempty Hbelow.
  destruct (claim_loop_defined status 0 n) as [[r status'] Hloop];
    [done|simpl; lia|].
  rewrite Hloop.
  apply claim_loop_inv in Hloop
    as [(-> & -> & Hall)|(Hr & Hr_empty & -> & Hall)]; [| |done].
  - exfalso. apply (Hall i); [simpl; lia|done].
  - assert (Z.to_nat r = i) as <-.
    { destruct (Nat.lt_trichotomy (Z.to_nat r) i) as [Hlt|[Heq|Hgt]].
      - exfalso. by apply (Hbelow _ Hlt).
      - done.
      - exfalso. apply (Hall i); [simpl; lia|done]. }
    by rewrite Z2Nat.id by lia.
Qed.

(** X14: a call of run_dungeon that no other thread interrupts, on a gate with a
    permit left and a registry whose lowest empty instance is [i]: the
    thread draws [d], enters instance [i], prints the entry line with [i]
    shown "active", adds one party and [d] seconds to the statistics of
    [i], prints the finish line with [i] shown "empty" again, and returns;
    the gate and the statuses are left as they were found, and the pool and
    the done flag are not touched. *)
Theorem run_dungeon_uninterrupted d id t1 t2 g i served time :
  t1 <= d <= t2 ->
  0 < count (g_instance_slots g) <= INT_MAX ->
  (Z.to_nat (g_max_instances g) <= length (g_instance_status g))%nat ->
  (i < Z.to_nat (g_max_instances g))%nat ->
  g_instance_status g !! i = Some "empty"%string ->
  (forall j, (j < i)%nat -> g_instance_status g !! j <> Some "empty"%string) ->
  g_parties_served g !! i = Some served ->
  INT_MIN <= served + 1 <= INT_MAX ->
  g_time_served g !! i = Some time ->
  run_dungeon d id t1 t2 g
  = Some (Party id t1 t2 d (Z.of_nat i) PDone,
          set_stats (<[i := served + 1]> (g_parties_served g))
            (<[i := time + d]> (g_time_served g)) g,
          [EvEntered id (Z.of_nat i) d
             (take (Z.to_nat (g_max_instances g))
                (<[i := "active"%string]> (g_instance_status g)));
           EvFinished id (Z.of_nat i)
             (take (Z.to_nat (g_max_instances g)) (g_instance_status g))]).
Proof.
  intros Hd Hcount Hlen Hi Hempty Hbelow Hserved Hint Htime.
  destruct g as [mx [cnt] st ps ts t h dd done]. simpl in *.
  assert (Hdraw : (t1 <=? d) && (d <=? t2) = true).
  { apply andb_true_iff. split; apply Z.leb_le; lia. }
  assert (Hacq : (0 <? cnt) = true) by (apply Z.ltb_lt; lia).
  pose proof (claim_loop_finds st _ i Hlen Hi Hempty Hbelow) as Hclaim.
  assert (Hi0 : (0 <=? Z.of_nat i) = true) by (apply Z.leb_le; lia).
  assert (Hact : <[i := "active"%string]> st !! i = Some "active"%string).
  { apply list_lookup_insert_eq. by eapply lookup_lt_Some. }
  unfold run_dungeon, run_dungeon_steps, run_dungeon_step, acquire, release,
    finish_instance, party_at, print_status, set_slots, set_status, set_stats.
  simpl. rewrite Hdraw. simpl. rewrite Hacq. simpl. rewrite Hclaim. simpl.
  rewrite Hi0, !Nat2Z.id. simpl. rewrite Hact, Hserved, Htime. simpl.
  rewrite (int_add_defined served 1) by done. simpl.
  rewrite (int_add_defined (cnt - 1) 1) by (unfold INT_MIN; lia). simpl.
  rewrite list_insert_insert_eq, (list_insert_id st i "empty"%string) by done.
  repeat f_equal. lia.
Qed.

Lemma run_dungeon_uninterrupted_witness :
  let g := Globals 3 (Semaphore 2) ["active"; "empty"; "empty"]%string
             [4; 0; 1] [9; 0; 2] 0 0 0 false in
  run_dungeon 2 7 1 2 g
  = Some (Party 7 1 2 2 (Z.of_nat 1) PDone,
          set_stats (<[1%nat := 0 + 1]> (g_parties_served g))
            (<[1%nat := 0 + 2]> (g_time_served g)) g,
          [EvEntered 7 (Z.of_nat 1) 2
             (take (Z.to_nat (g_max_instances g))
                (<[1%nat := "active"%string]> (g_instance_status g)));
           EvFinished 7 (Z.of_nat 1)
             (take (Z.to_nat (g_max_instances g)) (g_instance_status g))]).
Proof.
  apply (run_dungeon_uninterrupted 2 7 1 2
           (Globals 3 (Semaphore 2) ["active"; "empty"; "empty"]%string
              [4; 0; 1] [9; 0; 2] 0 0 0 false) 1%nat 0 0);
    try done; try (simpl; lia).
  intros [|j] Hj; [done|lia].
Defined.

(** ** The lines printed *)






(* ===================================================================== *)
(** * CountingSemaphore with its condition variable *)

Lemma tally_not_existsb {A} (f : A -> bool) (l : list A) :
  existsb f l = false -> tally f l = 0.
Proof.
  induction l as [|x l IH]; simpl; [done|].
  intros [-> Hl]%orb_false_iff. by rewrite (IH Hl).
Qed.

Lemma waiting_inv_init initial k :
  0 <= initial -> waiting_inv initial (Waiting.init initial k).
Proof.
  intros Hn. split; simpl; try lia.
  rewrite tally_replicate. simpl. lia.
Qed.

Lemma waiting_test_count initial k c s :
  waiting_inv initial s ->
  Waiting.clients s !! k = Some c -> Waiting.is_asleep c = false ->
  waiting_inv initial (Waiting.test_count k s).
Proof.
  intros [Hnn Hperm Hcounts Hnot] Hk Hc.
  pose proof (tally_nonneg Waiting.is_asleep (Waiting.clients s)).
  pose proof (tally_nonneg Waiting.is_notified (Waiting.clients s)).
  pose proof (tally_lookup_pos Waiting.is_notified _ _ _ Hk) as Hpos.
  unfold Waiting.test_count, acquire.
  destruct (Z.ltb_spec 0 (count (Waiting.sem s))) as [Hlt|Hge];
    split; simpl; try lia;
    rewrite !(tally_insert _ _ _ _ _ Hk), Hc; simpl;
    destruct c; simpl in *; try done; try lia.
  all: intros Hsleep; specialize (Hpos eq_refl); lia.
Qed.

Lemma waiting_inv_step initial l s s' :
  waiting_inv initial s -> Waiting.step l s = Some s' ->
  waiting_inv initial s'.
Proof.
  intros Hinv Hstep. destruct l as [k|k|k choice|k]; simpl in Hstep.
  - destruct (Waiting.clients s !! k) as [[]|] eqn:Hk; try done.
    simplify_eq. by eapply waiting_test_count.
  - destruct (Waiting.clients s !! k) as [[]|] eqn:Hk; try done.
    simplify_eq. by eapply waiting_test_count.
  - destruct Hinv as [Hnn Hperm Hcounts Hnot].
    destruct (Waiting.clients s !! k) as [[]|] eqn:Hk; try done.
    unfold release in Hstep.
    destruct (int_add _ _) as [c'|] eqn:Hc; [|done].
    apply int_add_Some in Hc as ->. simpl in Hstep.
    pose proof (tally_nonneg Waiting.is_asleep (Waiting.clients s)).
    pose proof (tally_nonneg Waiting.is_notified (Waiting.clients s)).
    destruct (existsb Waiting.is_asleep (Waiting.clients s)) eqn:Hsleep.
    + destruct (Waiting.clients s !! choice) as [[]|] eqn:Hc; try done.
      simplify_eq.
      pose proof (tally_lookup_pos Waiting.is_asleep _ _ _ Hc eq_refl).
      split; simpl; try lia.
      rewrite !(tally_insert _ _ _ _ _ Hc). simpl. lia.
    + simplify_eq. split; simpl; try lia.
      rewrite (tally_not_existsb _ _ Hsleep). lia.
  - destruct Hinv as [Hnn Hperm Hcounts Hnot].
    destruct (Waiting.clients s !! k) as [[]|] eqn:Hk; try done.
    simplify_eq.
    pose proof (tally_lookup_pos Waiting.is_asleep _ _ _ Hk eq_refl).
    split; simpl; try lia.
    rewrite !(tally_insert _ _ _ _ _ Hk). simpl. lia.
Qed.

Lemma waiting_inv_run initial sched s s' :
  waiting_inv initial s -> Waiting.run sched s = Some s' ->
  waiting_inv initial s'.
Proof.
  revert s. induction sched as [|l sched IH]; intros s Hinv Hrun;
    simpl in Hrun.
  - by simplify_eq.
  - destruct (Waiting.step l s) as [s1|] eqn:Hs1; [|done].
    eapply IH; [|done]. by eapply waiting_inv_step.
Qed.

(** X23: CountingSemaphore loses no wake-up.  Whatever the interleaving of the
    clients' calls of [acquire] and [release], and of wake-ups with and
    without notification: the count is never negative; the permits left
    and those taken are the initial ones and those given back; and whenever
    a permit is left while a client sleeps in [acquire], some client has
    been notified and can move, and takes a permit if it moves next. *)
Theorem semaphore_no_lost_wakeup initial k sched s :
  0 <= initial ->
  Waiting.run sched (Waiting.init initial k) = Some s ->
  0 <= count (Waiting.sem s)
  /\ count (Waiting.sem s) + Waiting.acquired s
     = initial + Waiting.released s
  /\ (0 < tally Waiting.is_asleep (Waiting.clients s) ->
      count (Waiting.sem s)
      <= tally Waiting.is_notified (Waiting.clients s))
  /\ (0 < count (Waiting.sem s) ->
      0 < tally Waiting.is_asleep (Waiting.clients s) ->
      exists j s',
        Waiting.clients s !! j = Some Waiting.Notified
        /\ Waiting.step (Waiting.Resume j) s = Some s'
        /\ Waiting.clients s' !! j = Some Waiting.Running
        /\ count (Waiting.sem s') = count (Waiting.sem s) - 1).
Proof.
  intros Hn Hrun.
  pose proof (waiting_inv_run _ _ _ _ (waiting_inv_init initial k Hn) Hrun)
    as [Hnn Hperm Hcounts Hnot].
  split_and!; try done.
  intros Hcount Hsleep. specialize (Hnot Hsleep).
  destruct (tally_pos_lookup Waiting.is_notified (Waiting.clients s))
    as (j & c & Hj & Hc); [lia|].
  destruct c; try done.
  exists j. eexists. split; [done|]. simpl. rewrite Hj.
  split; [done|]. unfold Waiting.test_count, acquire.
  destruct (Z.ltb_spec 0 (count (Waiting.sem s))); [|lia]. simpl.
  split; [|done]. apply list_lookup_insert_eq. by eapply lookup_lt_Some.
Qed.

Lemma semaphore_no_lost_wakeup_witness :
  let s := Waiting.State (Semaphore 1)
             [Waiting.Running; Waiting.Notified; Waiting.Asleep] 1 1 in
  0 <= count (Waiting.sem s)
  /\ count (Waiting.sem s) + Waiting.acquired s = 1 + Waiting.released s
  /\ (0 < tally Waiting.is_asleep (Waiting.clients s) ->
      count (Waiting.sem s)
      <= tally Waiting.is_notified (Waiting.clients s))
  /\ (0 < count (Waiting.sem s) ->
      0 < tally Waiting.is_asleep (Waiting.clients s) ->
      exists j s',
        Waiting.clients s !! j = Some Waiting.Notified
        /\ Waiting.step (Waiting.Resume j) s = Some s'
        /\ Waiting.clients s' !! j = Some Waiting.Running
        /\ count (Waiting.sem s') = count (Waiting.sem s) - 1).
Proof.
  apply (semaphore_no_lost_wakeup 1 3
           [Waiting.CallAcquire 0; Waiting.CallAcquire 1;
            Waiting.CallAcquire 2; Waiting.CallRelease 0 1]%nat); [lia|].
  vm_compute. reflexivity.
Defined.

(* ===================================================================== *)
(** * Players left behind at the end *)

Lemma note_events_none evs :
  tally is_try evs = 0 -> fold_left note_event evs None = None.
Proof.
  induction evs as [|e evs IH]; [done|]. simpl. intros Hno.
  pose proof (tally_nonneg is_try evs).
  destruct e; simpl in *; try lia; apply IH; lia.
Qed.

Lemma note_events_no_try_inv evs acc since' :
  tally is_try evs = 0 ->
  fold_left note_event evs acc = Some (false, since') ->
  exists since, acc = Some (false, since) /\ since' = since ++ evs.
Proof.
  intros Hno Hfold. destruct acc as [[formed since]|].
  - rewrite note_events_no_try in Hfold by done. simplify_eq. by exists since.
  - by rewrite note_events_none in Hfold.
Qed.

(** Steps that call no try_form_party, add no players and leave the pool
    alone keep [stranded_inv]. *)
Lemma stranded_inv_quiet s s' evs :
  events s' = events s ++ evs -> tally is_try evs = 0 ->
  pool (shared s') = pool (shared s) \/ 0 < tally is_arrival evs ->
  stranded_inv s -> stranded_inv s'.
Proof.
  intros Hev Hno Hpool Hinv since' Hsince' Harr.
  rewrite Hev, since_last_try_app in Hsince'.
  apply note_events_no_try_inv in Hsince' as (since & Hsince & ->); [|done].
  rewrite tally_app in Harr.
  pose proof (tally_nonneg is_arrival since).
  pose proof (tally_nonneg is_arrival evs).
  destruct Hpool as [Hpool|Hpos]; [|lia].
  specialize (Hinv since Hsince ltac:(lia)).
  unfold pool in Hpool. injection Hpool as H1 H2 H3.
  unfold composable in *. by rewrite H1, H2, H3.
Qed.

Lemma stranded_inv_step t s s' :
  stranded_inv s -> step t s = Some s' -> stranded_inv s'.
Proof.
  intros Hinv Hstep. step_cases Hstep.
  - unfold main_step in Hstep.
    destruct (m_pc (main_th s)) eqn:Hpc.
    + unfold try_form_party in Hstep.
      destruct (_ && _) eqn:Htest in Hstep.
      * destruct (int_add _ _); simplify_eq/=.
        intros since Hsince. simpl in Hsince.
        rewrite since_last_try_app in Hsince. done.
      * simplify_eq/=. intros since Hsince _. done.
    + destruct (_ && _) in Hstep; simplify_eq/=;
        (eapply stranded_inv_quiet; [done|done|by left|done]).
    + destruct (a_pc _); by simplify_eq/=.
    + destruct (forallb _ _); by simplify_eq/=.
    + destruct (sum_served _ _ _ _) as [tot|]; simplify_eq/=.
      eapply stranded_inv_quiet; [done|done|by left|done].
    + done.
  - simplify_eq/=.
    apply arrival_step_inv in Ha
      as [(_ & _ & (t & h & d & _ & _ & _ & ->) & -> & ->)|(_ & -> & -> & ->)].
    + eapply stranded_inv_quiet; [done|done|right; simpl; lia|done].
    + eapply stranded_inv_quiet; [done|done|by left|done].
  - simplify_eq/=.
    pose proof (party_step_pool _ _ _ _ _ _ Hp) as (Hpool & _).
    pose proof (party_step_quiet _ _ _ _ _ _ Hp) as (Htry & _).
    eapply stranded_inv_quiet; [done|done|by left|done].
Qed.

(** X24: players are left behind only if they arrive after main's last
    attempt.  If main has left its loop while the pool still holds a party,
    then main's latest call of try_form_party returned false, main has
    not called it since, and the arrival thread has added players after
    that call; without such an arrival the pool holds no party when main
    leaves. *)
Theorem stranded_only_after_last_try c s :
  reachable c s -> loop_exited s = true -> composable (shared s) = true ->
  exists since,
    since_last_try (events s) = Some (false, since)
    /\ tally is_try since = 0
    /\ 1 <= tally is_arrival since.
Proof.
  intros Hreach Hexit Hcomp.
  assert (Hstranded : stranded_inv s).
  { revert s Hreach Hexit Hcomp. intros s Hreach _ _. revert s Hreach.
    apply (reachable_invariant c); [done|].
    intros t s0 s1 _. apply stranded_inv_step. }
  assert (Hloop : loop_inv s).
  { revert s Hreach Hexit Hcomp Hstranded. intros s Hreach _ _ _.
    revert s Hreach. apply (reachable_invariant c); [done|].
    intros t s0 s1 _. apply loop_inv_step. }
  unfold loop_inv, loop_exited in *.
  destruct (m_pc (main_th s)); try done;
    destruct Hloop as (since & Hsince & Htry & _);
    exists since; (split; [done|]); (split; [done|]);
    pose proof (tally_nonneg is_arrival since);
    destruct (decide (tally is_arrival since = 0)) as [H0|]; try lia;
    specialize (Hstranded since Hsince H0); congruence.
Qed.

Lemma race_final_reachable : reachable race_config race_final.
Proof. exists race_schedule. vm_compute. reflexivity. Defined.

Lemma stranded_only_after_last_try_witness :
  exists since,
    since_last_try (events race_final) = Some (false, since)
    /\ tally is_try since = 0
    /\ 1 <= tally is_arrival since.
Proof.
  apply (stranded_only_after_last_try race_config);
    [apply race_final_reachable|done|done].
Defined.

(* ===================================================================== *)
(** * The prime search (P1) *)

(** ** isPrime *)

Lemma ll_Some z :
  Primes.LLONG_MIN <= z <= Primes.LLONG_MAX -> Primes.ll z = Some z.
Proof.
  intros [Hlo Hhi]. unfold Primes.ll.
  apply Z.leb_le in Hlo, Hhi. by rewrite Hlo, Hhi.
Qed.

Lemma rem_divide n d : 0 < d -> (Z.rem n d =? 0) = true <-> (d | n).
Proof.
  intros Hd. rewrite Z.eqb_eq. apply Z.rem_divide. lia.
Qed.

(** Between two candidates of the loop every number is even or a multiple
    of 3. *)
Lemma no_divisor_step n i d :
  i mod 6 = 5 -> ~ (2 | n) -> ~ (3 | n) -> ~ (i | n) -> ~ (i + 2 | n) ->
  i <= d < i + 6 -> ~ (d | n).
Proof.
  intros Hi H2 H3 Hi0 Hi2 Hd Hdiv.
  pose proof (Z.div_mod i 6 ltac:(lia)) as Hq. rewrite Hi in Hq.
  assert (d = i \/ d = i + 1 \/ d = i + 2 \/ d = i + 3 \/ d = i + 4
          \/ d = i + 5) as [->|[->|[->|[->|[->| ->]]]]] by lia.
  - done.
  - apply H2. etrans; [|done]. exists (3 * (i / 6) + 3). lia.
  - done.
  - apply H2. etrans; [|done]. exists (3 * (i / 6) + 4). lia.
  - apply H3. etrans; [|done]. exists (2 * (i / 6) + 3). lia.
  - apply H2. etrans; [|done]. exists (3 * (i / 6) + 5). lia.
Qed.

(** A number above 1 with no divisor from 2 below [i], where [i * i]
    exceeds it, is prime. *)
Lemma prime_no_small_divisor n i :
  1 < n -> 0 <= i -> n < i * i ->
  (forall d, 2 <= d < i -> ~ (d | n)) -> Z.prime n.
Proof.
  intros Hn Hi Hsq Hnone. split; [done|].
  intros d Hd [q Hq].
  assert (0 < q).
  { destruct (Z_lt_le_dec 0 q) as [|Hq0]; [done|].
    assert (q * d <= 0) by (apply Z.mul_nonpos_nonneg; lia). lia. }
  assert (1 < q).
  { destruct (Z_lt_le_dec 1 q) as [|Hq1]; [done|].
    assert (q = 1) by lia. subst q. lia. }
  destruct (Z_lt_le_dec d i) as [Hlt|Hge].
  - apply (Hnone d); [lia|]. by exists q.
  - destruct (Z_lt_le_dec q i) as [Hlt'|Hge'].
    + apply (Hnone q); [lia|]. exists d. lia.
    + nia.
Qed.

Lemma not_prime_divisor n d : 1 < d < n -> (d | n) -> ~ Z.prime n.
Proof.
  intros Hd Hdiv [_ Hp]. by apply (Hp d).
Qed.

Lemma isPrime_loop_correct fuel n i :
  3 < n < Primes.last_divisor * Primes.last_divisor ->
  5 <= i <= Primes.last_divisor -> i mod 6 = 5 ->
  (forall d, 2 <= d < i -> ~ (d | n)) ->
  0 <= n - i < Z.of_nat fuel ->
  exists b, Primes.isPrime_loop fuel n i = Some b /\ (b = true <-> Z.prime n).
Proof.
  unfold Primes.last_divisor.
  revert i. induction fuel as [|fuel IH]; intros i Hn Hi Hmod Hnone Hfuel.
  - exfalso. simpl in Hfuel. lia.
  - cbn [Primes.isPrime_loop].
    rewrite (ll_Some (i * i))
      by (unfold Primes.LLONG_MIN, Primes.LLONG_MAX; nia).
    cbn [mbind option_bind].
    destruct (Z.leb_spec (i * i) n) as [Hle|Hgt].
    + destruct (Z.rem n i =? 0) eqn:Hri.
      { exists false. split; [done|]. split; [done|]. intros Hp. exfalso.
        apply rem_divide in Hri; [|lia].
        apply (not_prime_divisor n i); [nia|done..]. }
      rewrite (ll_Some (i + 2))
        by (unfold Primes.LLONG_MIN, Primes.LLONG_MAX; lia).
      cbn [mbind option_bind].
      destruct (Z.rem n (i + 2) =? 0) eqn:Hri2.
      { exists false. split; [done|]. split; [done|]. intros Hp. exfalso.
        apply rem_divide in Hri2; [|lia].
        apply (not_prime_divisor n (i + 2)); [nia|done..]. }
      rewrite (ll_Some (i + 6))
        by (unfold Primes.LLONG_MIN, Primes.LLONG_MAX; lia).
      cbn [mbind option_bind].
      assert (Hlt : i < 3037000499) by nia.
      pose proof (Z.div_mod i 6 ltac:(lia)) as Hq. rewrite Hmod in Hq.
      apply IH; try lia; try nia.
      * rewrite <- Zplus_mod_idemp_l, Hmod. done.
      * intros d Hd. destruct (Z_lt_le_dec d i) as [Hdi|Hdi];
          [apply Hnone; lia|].
        apply (no_divisor_step n i d); try done; try lia.
        -- apply (Hnone 2). lia.
        -- apply (Hnone 3). lia.
        -- intros Hdiv. apply rem_divide in Hdiv; [congruence|lia].
        -- intros Hdiv. apply rem_divide in Hdiv; [congruence|lia].
    + exists true. split; [done|]. split; [|done]. intros _.
      apply (prime_no_small_divisor n i); try done; lia.
Qed.

(** Below 3037000499 squared isPrime returns, and returns true exactly
    for the primes. *)
Lemma isPrime_decides n :
  n < Primes.last_divisor * Primes.last_divisor ->
  exists b, Primes.isPrime n = Some b /\ (b = true <-> Z.prime n).
Proof.
  intros Hn. unfold Primes.isPrime.
  destruct (Z.leb_spec n 1) as [H1|H1].
  { exists false. split; [done|]. split; [done|].
    intros [Hp _]. lia. }
  destruct (Z.leb_spec n 3) as [H3|H3].
  { exists true. split; [done|]. split; [|done]. intros _.
    assert (n = 2 \/ n = 3) as [-> | ->] by lia;
      [apply Z.prime_2|apply Z.prime_3]. }
  destruct (Z.rem n 2 =? 0) eqn:Hr2.
  { exists false. split; [done|]. split; [done|]. intros Hp. exfalso.
    apply rem_divide in Hr2; [|lia].
    apply (not_prime_divisor n 2); [lia|done..]. }
  destruct (Z.rem n 3 =? 0) eqn:Hr3.
  { exists false. split; [done|]. split; [done|]. intros Hp. exfalso.
    apply rem_divide in Hr3; [|lia].
    apply (not_prime_divisor n 3); [lia|done..]. }
  cbn [orb].
  assert (H2n : ~ (2 | n)).
  { intros Hdiv. apply rem_divide in Hdiv; [congruence|lia]. }
  assert (H3n : ~ (3 | n)).
  { intros Hdiv. apply rem_divide in Hdiv; [congruence|lia]. }
  assert (n <> 4) by (intros ->; apply H2n; by exists 2).
  unfold Primes.last_divisor in *.
  apply isPrime_loop_correct; unfold Primes.last_divisor;
    try done; try lia.
  intros d Hd.
  assert (d = 2 \/ d = 3 \/ d = 4) as [->|[->| ->]] by lia; try done.
  intros Hdiv. apply H2n. etrans; [|done]. by exists 2.
Qed.

(** X16: isPrime decides primality: for every [n] below 3037000499 squared
    (about 9.22e18; negative numbers, 0 and 1 included) it returns, no
    operation leaves the range of [long long], and the result is true for
    the primes and false for all other numbers. *)
Theorem isPrime_correct n :
  n < Primes.last_divisor * Primes.last_divisor ->
  is_Some (Primes.isPrime n)
  /\ (Primes.isPrime n = Some true <-> Z.prime n)
  /\ (Primes.isPrime n = Some false <-> ~ Z.prime n).
Proof.
  intros Hn. destruct (isPrime_decides n Hn) as (b & Hb & Hprime).
  rewrite Hb. split; [done|].
  destruct b.
  - assert (Z.prime n) by tauto. clear Hprime. intuition discriminate.
  - assert (~ Z.prime n) by (intros Hp; by apply Hprime in Hp).
    clear Hprime. intuition discriminate.
Qed.

Lemma isPrime_correct_witness :
  is_Some (Primes.isPrime 97)
  /\ (Primes.isPrime 97 = Some true <-> Z.prime 97)
  /\ (Primes.isPrime 97 = Some false <-> ~ Z.prime 97).
Proof. apply (isPrime_correct 97). done. Defined.

(** ** Variant 2 *)

Lemma seqZ_cons' m n : 0 < n -> seqZ m n = m :: seqZ (m + 1) (n - 1).
Proof. intros Hn. by rewrite seqZ_cons. Qed.

Lemma primes_of_app l1 l2 :
  Primes.primes_of (l1 ++ l2) = Primes.primes_of l1 ++ Primes.primes_of l2.
Proof. apply filter_app. Qed.

Lemma primes_of_cons x l b :
  Primes.isPrime x = Some b ->
  Primes.primes_of (x :: l)
  = (if b then [x] else []) ++ Primes.primes_of l.
Proof.
  intros Hb. unfold Primes.primes_of. rewrite filter_cons, Hb.
  destruct b; [by rewrite decide_True|by rewrite decide_False].
Qed.



(** The loop that starts the threads starts one for each index, with the
    ranges of [range_of]. *)
Lemma spawn_loop_spec k fuel i thread_count max_number range_size :
  1 <= max_number <= Primes.LLONG_MAX ->
  0 <= range_size -> thread_count * range_size <= max_number ->
  thread_count <= INT_MAX ->
  0 <= i -> i + Z.of_nat k = thread_count -> (k < fuel)%nat ->
  Primes.spawn_loop fuel i thread_count max_number range_size
  = Some (range_of thread_count max_number range_size <$> seqZ i (Z.of_nat k)).
Proof.
  intros Hmx Hrs Hprod Htc.
  revert fuel i. induction k as [|k IH]; intros fuel i Hi Hik Hfuel;
    (destruct fuel as [|fuel]; [lia|]); cbn [Primes.spawn_loop].
  - destruct (Z.ltb_spec i thread_count); [lia|done].
  - destruct (Z.ltb_spec i thread_count); [|lia].
    assert (Hlo : 0 <= i * range_size) by nia.
    assert (Hhi : (i + 1) * range_size <= max_number) by nia.
    unfold Primes.LLONG_MAX, INT_MAX in *.
    rewrite (ll_Some (i * range_size))
      by (unfold Primes.LLONG_MIN, Primes.LLONG_MAX; lia).
    cbn [mbind option_bind].
    rewrite (ll_Some (i * range_size + 1))
      by (unfold Primes.LLONG_MIN, Primes.LLONG_MAX; nia).
    cbn [mbind option_bind].
    rewrite (int_add_defined i 1) by (unfold INT_MIN, INT_MAX; lia).
    assert (Hend :
      (if i =? thread_count - 1 then Some max_number
       else Some (i + 1) ≫= λ i1, Primes.ll (i1 * range_size))
      = Some (range_end thread_count max_number range_size i)).
    { unfold range_end. destruct (i =? thread_count - 1); [done|].
      cbn [mbind option_bind]. apply ll_Some.
      unfold Primes.LLONG_MIN, Primes.LLONG_MAX. nia. }
    rewrite Hend. cbn [mbind option_bind].
    destruct (Z.ltb_spec max_number (i * range_size + 1)) as [Hbreak|_];
      [nia|].
    rewrite (IH fuel (i + 1)) by lia. cbn [mbind option_bind].
    rewrite (seqZ_cons' i) by lia. rewrite fmap_cons.
    replace (Z.of_nat (S k) - 1) with (Z.of_nat k) by lia.
    do 2 f_equal. unfold range_of, range_start. do 2 f_equal.
    destruct (Z.eqb_spec i 0) as [->|]; [done|].
    by rewrite andb_false_l.
Qed.

(** No thread is started when there is nothing to search. *)
Lemma spawn_loop_none fuel thread_count max_number range_size :
  1 <= thread_count <= INT_MAX -> max_number <= 0 ->
  Primes.LLONG_MIN <= range_size <= Primes.LLONG_MAX ->
  Primes.LLONG_MIN <= max_number ->
  Primes.spawn_loop (S fuel) 0 thread_count max_number range_size
  = Some [].
Proof.
  intros Htc Hmx Hrs Hmin. cbn [Primes.spawn_loop].
  destruct (Z.ltb_spec 0 thread_count); [|lia].
  rewrite Z.mul_0_l.
  rewrite (ll_Some 0) by done. cbn [mbind option_bind].
  rewrite (ll_Some (0 + 1)) by done. cbn [mbind option_bind].
  assert (Hend :
    is_Some (if 0 =? thread_count - 1 then Some max_number
             else int_add 0 1 ≫= λ i1, Primes.ll (i1 * range_size))).
  { destruct (0 =? thread_count - 1); [done|].
    rewrite (int_add_defined 0 1) by done. cbn [mbind option_bind].
    rewrite ll_Some; [done|lia]. }
  destruct Hend as [e ->]. cbn [mbind option_bind].
  destruct (Z.ltb_spec max_number (0 + 1)); [done|lia].
Qed.


Lemma StronglySorted_filter {A} (R : relation A) (P : A -> Prop)
    `{!forall x, Decision (P x)} (l : list A) :
  StronglySorted R l -> StronglySorted R (filter P l).
Proof.
  induction 1 as [|x l Hl IH Hx]; [constructor|].
  rewrite filter_cons. case_decide; [|done].
  constructor; [done|]. rewrite Forall_forall in Hx |- *.
  intros y [_ Hy]%list_elem_of_filter. auto.
Qed.

Lemma StronglySorted_seqZ m n : StronglySorted Z.lt (seqZ m n).
Proof.
  destruct (Z_le_gt_dec n 0) as [Hn|Hn];
    [rewrite seqZ_nil by done; constructor|].
  rewrite <- (Z2Nat.id n) by lia. generalize (Z.to_nat n). clear.
  intros k. revert m. induction k as [|k IH]; intros m; [constructor|].
  rewrite (seqZ_cons' m) by lia.
  replace (Z.of_nat (S k) - 1) with (Z.of_nat k) by lia.
  constructor; [apply IH|].
  apply Forall_forall. intros x Hx%elem_of_seqZ. lia.
Qed.

(** The primes isPrime finds in a stretch of numbers below 3037000499
    squared: all primes of the stretch, each once, in ascending order. *)
Lemma primes_of_seqZ m n :
  m + n <= Primes.last_divisor * Primes.last_divisor ->
  StronglySorted Z.lt (Primes.primes_of (seqZ m n))
  /\ forall x, x ∈ Primes.primes_of (seqZ m n)
               <-> m <= x < m + n /\ Z.prime x.
Proof.
  intros Hn. split.
  - apply StronglySorted_filter, StronglySorted_seqZ.
  - intros x. unfold Primes.primes_of.
    rewrite list_elem_of_filter, elem_of_seqZ.
    split.
    + intros [Hx Hin]. split; [done|].
      destruct (isPrime_decides x) as (b & Hb & Hprime); [lia|].
      apply Hprime. congruence.
    + intros [Hin Hp]. split; [|done].
      destruct (isPrime_decides x) as (b & Hb & Hprime); [lia|].
      apply Hprime in Hp. by subst b.
Qed.

Lemma primes_of_concat ls :
  Primes.primes_of (concat ls) = concat (Primes.primes_of <$> ls).
Proof.
  induction ls as [|l ls IH]; [done|].
  simpl. by rewrite primes_of_app, IH.
Qed.

(** Thread 0 starts at 2 and not at 1: 1 is not a prime. *)
Lemma primes_of_from_1 e :
  Primes.primes_of (seqZ 2 (e - 2 + 1)) = Primes.primes_of (seqZ 1 e).
Proof.
  destruct (Z_le_gt_dec e 0) as [He|He].
  - by rewrite !seqZ_nil by lia.
  - rewrite (seqZ_cons' 1) by lia.
    rewrite (primes_of_cons 1 _ false) by done.
    simpl. do 2 f_equal. lia.
Qed.

(** Together the ranges are the numbers from 1 to [max_number], in
    order: each range ends where the next begins, and the last thread
    takes what is left. *)
Lemma ranges_cover k i thread_count max_number range_size :
  0 <= range_size -> thread_count * range_size <= max_number ->
  0 <= i -> i + Z.of_nat (S k) = thread_count ->
  concat ((fun j => seqZ (j * range_size + 1)
                      (range_end thread_count max_number range_size j
                       - j * range_size))
          <$> seqZ i (Z.of_nat (S k)))
  = seqZ (i * range_size + 1) (max_number - i * range_size).
Proof.
  intros Hrs Hprod. revert i. induction k as [|k IH]; intros i Hi Hik.
  - rewrite (seqZ_cons' i) by lia. rewrite seqZ_nil by lia.
    simpl. unfold range_end.
    destruct (Z.eqb_spec i (thread_count - 1)); [|lia].
    by rewrite app_nil_r.
  - rewrite (seqZ_cons' i) by lia. rewrite fmap_cons.
    replace (Z.of_nat (S (S k)) - 1) with (Z.of_nat (S k)) by lia.
    cbn [concat]. rewrite (IH (i + 1)) by lia.
    unfold range_end at 1.
    destruct (Z.eqb_spec i (thread_count - 1)); [lia|].
    replace ((i + 1) * range_size - i * range_size) with range_size by lia.
    replace (max_number - i * range_size)
      with (range_size + (max_number - (i + 1) * range_size)) by lia.
    rewrite seqZ_app by nia. do 2 f_equal. lia.
Qed.

(** What the threads of variants 1 and 2 find, taken together in the order
    of the threads: the primes up to [max_number]. *)
Lemma ranges_primes thread_count max_number range_size :
  1 <= thread_count ->
  0 <= range_size -> thread_count * range_size <= max_number ->
  concat ((fun j => Primes.primes_of
             (seqZ (range_start range_size j)
                (range_end thread_count max_number range_size j
                 - range_start range_size j + 1)))
          <$> seqZ 0 thread_count)
  = Primes.primes_of (seqZ 2 (max_number - 1)).
Proof.
  intros Htc Hrs Hprod.
  transitivity
    (concat (Primes.primes_of
             <$> ((fun j => seqZ (j * range_size + 1)
                     (range_end thread_count max_number range_size j
                      - j * range_size))
                  <$> seqZ 0 thread_count))).
  { f_equal. rewrite <- list_fmap_compose. apply list_fmap_ext.
    intros _ j _. simpl. unfold range_start.
    destruct (Z.eqb_spec j 0) as [->|Hj].
    - rewrite primes_of_from_1. do 2 f_equal; lia.
    - do 2 f_equal. lia. }
  rewrite <- primes_of_concat.
  pose proof (ranges_cover (Z.to_nat (thread_count - 1)) 0 thread_count
                max_number range_size Hrs Hprod) as Hcover.
  replace (Z.of_nat (S (Z.to_nat (thread_count - 1)))) with thread_count
    in Hcover by lia.
  rewrite Hcover by lia.
  replace (seqZ (0 * range_size + 1) (max_number - 0 * range_size))
    with (seqZ 1 max_number) by (f_equal; lia).
  rewrite <- (primes_of_from_1 max_number).
  do 2 f_equal; lia.
Qed.


(** The division of the maximum by a positive thread count. *)
Lemma ll_div_spec a b :
  1 <= b -> Primes.LLONG_MIN <= a <= Primes.LLONG_MAX ->
  exists q, Primes.ll_div a b = Some q
    /\ Primes.LLONG_MIN <= q <= Primes.LLONG_MAX
    /\ (0 <= a -> 0 <= q /\ b * q <= a).
Proof.
  intros Hb Ha. exists (Z.quot a b). unfold Primes.ll_div.
  destruct (Z.eqb_spec b 0); [lia|].
  assert (Hq : Primes.LLONG_MIN <= Z.quot a b <= Primes.LLONG_MAX).
  { unfold Primes.LLONG_MIN, Primes.LLONG_MAX in *.
    destruct (Z_le_gt_dec 0 a) as [Hpos|Hneg].
    - rewrite Z.quot_div_nonneg by lia.
      pose proof (Z.div_pos a b ltac:(lia) ltac:(lia)).
      pose proof (Z.div_le_upper_bound a b a ltac:(lia) ltac:(nia)). lia.
    - pose proof (Z.quot_opp_l a b ltac:(lia)) as Hopp.
      rewrite Z.quot_div_nonneg in Hopp by lia.
      pose proof (Z.div_pos (- a) b ltac:(lia) ltac:(lia)).
      pose proof (Z.div_le_upper_bound (- a) b (- a) ltac:(lia) ltac:(nia)).
      lia. }
  split; [by apply ll_Some|]. split; [done|].
  intros Hpos. rewrite Z.quot_div_nonneg by lia.
  split; [apply Z.div_pos; lia|apply Z.mul_div_le; lia].
Qed.







(** ** Variant 1 *)

Lemma concat_insert_app {A} (ls : list (list A)) k l l' :
  ls !! k = Some l -> concat (<[k := l ++ l']> ls) ≡ₚ concat ls ++ l'.
Proof.
  revert k. induction ls as [|l0 ls IH]; intros [|k] Hk; simplify_eq/=.
  - rewrite <- !app_assoc. f_equiv. apply Permutation_app_comm.
  - rewrite (IH k Hk). by rewrite app_assoc.
Qed.

Lemma lines_of_app k out out' :
  Variant1.lines_of k (out ++ out')
  = Variant1.lines_of k out ++ Variant1.lines_of k out'.
Proof. unfold Variant1.lines_of. by rewrite filter_app, fmap_app. Qed.

Lemma searched_step t b num' :
  Variant1.start t <= Variant1.num t ->
  Primes.isPrime (Variant1.num t) = Some b -> num' = Variant1.num t + 1 ->
  Primes.primes_of
    (Variant1.searched (Variant1.Thread (Variant1.start t) (Variant1.end_ t)
                          num'))
  = Primes.primes_of (Variant1.searched t)
    ++ (if b then [Variant1.num t] else []).
Proof.
  intros Hle Hb ->. unfold Variant1.searched. simpl.
  replace (Variant1.num t + 1 - Variant1.start t)
    with ((Variant1.num t - Variant1.start t) + 1) by lia.
  rewrite seqZ_app by lia. rewrite primes_of_app. f_equal.
  replace (Variant1.start t + (Variant1.num t - Variant1.start t))
    with (Variant1.num t) by lia.
  rewrite (seqZ_cons' _ 1) by lia. rewrite seqZ_nil by lia.
  rewrite (primes_of_cons _ _ _ Hb). by rewrite app_nil_r.
Qed.

Lemma variant1_inv_step k s s' :
  variant1_inv s -> Variant1.step k s = Some s' -> variant1_inv s'.
Proof.
  intros [Hrange Hlines Hall] Hstep. unfold Variant1.step in Hstep.
  destruct (Variant1.threads s !! k) as [t|] eqn:Hk; [|done].
  simpl in Hstep. unfold Variant1.findPrimes_Range_Immediate_step in Hstep.
  destruct (Z.leb_spec (Variant1.num t) (Variant1.end_ t)) as [Hle|]; [|done].
  destruct (Primes.isPrime (Variant1.num t)) as [b|] eqn:Hb; [|done].
  simpl in Hstep.
  destruct (Primes.ll (Variant1.num t + 1)) as [num'|] eqn:Hnum; [|done].
  simpl in Hstep. simplify_eq.
  assert (num' = Variant1.num t + 1) as Hnum'.
  { unfold Primes.ll in Hnum. by case_match; simplify_eq. }
  destruct (Hrange k t Hk) as (Hstart & Hmax & Hend).
  pose proof (searched_step t b num' ltac:(lia) Hb Hnum') as Hsearched.
  assert (Hout :
    (if b then Variant1.output s ++ [(k, Variant1.num t)]
     else Variant1.output s)
    = Variant1.output s ++ (if b then [(k, Variant1.num t)] else []))
    by (destruct b; by rewrite ?app_nil_r).
  split; simpl.
  - intros j t' Hj.
    apply list_lookup_insert_Some in Hj as [(-> & <- & _)|[_ Hj]]; [|eauto].
    simpl. lia.
  - intros j. rewrite Hout, lines_of_app, Hlines.
    destruct (decide (j = k)) as [->|Hne].
    + rewrite list_lookup_insert_eq by (by eapply lookup_lt_Some).
      rewrite Hk, Hsearched. f_equal.
      unfold Variant1.lines_of. destruct b; [|done].
      rewrite filter_cons. simpl. by rewrite decide_True.
    + rewrite list_lookup_insert_ne by done.
      replace (Variant1.lines_of j (if b then [(k, Variant1.num t)] else []))
        with (@nil Z); [by rewrite app_nil_r|].
      unfold Variant1.lines_of. destruct b; [|done].
      rewrite filter_cons. simpl. by rewrite decide_False.
  - rewrite Hout, fmap_app, Hall, list_fmap_insert, Hsearched.
    rewrite concat_insert_app by (by rewrite list_lookup_fmap, Hk).
    f_equiv. by destruct b.
Qed.

Lemma variant1_inv_run sched s s' :
  variant1_inv s -> Variant1.run sched s = Some s' -> variant1_inv s'.
Proof.
  revert s. induction sched as [|k sched IH]; intros s Hinv Hrun;
    simpl in Hrun.
  - by simplify_eq.
  - destruct (Variant1.step k s) as [s1|] eqn:Hs1; [|done].
    eapply IH; [|done]. by eapply variant1_inv_step.
Qed.

Lemma variant1_range_step k s s' :
  Variant1.step k s = Some s' ->
  Variant1.range <$> Variant1.threads s'
  = Variant1.range <$> Variant1.threads s.
Proof.
  unfold Variant1.step, Variant1.findPrimes_Range_Immediate_step.
  intros Hstep.
  destruct (Variant1.threads s !! k) as [t|] eqn:Hk; [|done].
  simpl in Hstep. invert_step. simpl.
  rewrite list_fmap_insert. apply list_insert_id.
  by rewrite list_lookup_fmap, Hk.
Qed.

Lemma variant1_range_run sched s s' :
  Variant1.run sched s = Some s' ->
  Variant1.range <$> Variant1.threads s'
  = Variant1.range <$> Variant1.threads s.
Proof.
  revert s. induction sched as [|k sched IH]; intros s Hrun; simpl in Hrun.
  - by simplify_eq.
  - destruct (Variant1.step k s) as [s1|] eqn:Hs1; [|done].
    simpl in Hrun. rewrite (IH _ Hrun). by eapply variant1_range_step.
Qed.

(** Where main of variant 1 has started its threads. *)
Lemma variant1_main_start thread_count max_number :
  1 <= thread_count <= INT_MAX ->
  Primes.LLONG_MIN <= max_number
    < Primes.last_divisor * Primes.last_divisor ->
  exists s0 range_size,
    Variant1.main_start thread_count max_number = Some s0
    /\ Variant1.output s0 = []
    /\ variant1_inv s0
    /\ 0 <= range_size
    /\ (1 <= max_number ->
        thread_count * range_size <= max_number
        /\ Variant1.threads s0
           = (fun j => Variant1.Thread (range_start range_size j)
                (range_end thread_count max_number range_size j)
                (range_start range_size j))
             <$> seqZ 0 thread_count)
    /\ (max_number <= 0 -> Variant1.threads s0 = []).
Proof.
  intros Htc Hmx.
  assert (Hmax : max_number <= Primes.LLONG_MAX).
  { unfold Primes.last_divisor, Primes.LLONG_MAX in *. lia. }
  destruct (ll_div_spec max_number thread_count) as (rs & Hrs & Hrange & Hpos);
    [lia|lia|].
  unfold Variant1.main_start. rewrite Hrs. cbn [mbind option_bind].
  destruct (Z_le_gt_dec max_number 0) as [Hnone|Hsome].
  - rewrite spawn_loop_none by lia. cbn [mbind option_bind fmap list_fmap].
    eexists _, 0. split_and!; try done; lia.
  - destruct Hpos as [Hrs0 Hprod]; [lia|].
    pose proof (spawn_loop_spec (Z.to_nat thread_count)
                  (S (Z.to_nat thread_count)) 0 thread_count max_number rs)
      as Hspawn.
    rewrite Hspawn by lia. cbn [mbind option_bind].
    rewrite Z2Nat.id by lia. rewrite <- list_fmap_compose.
    eexists _, rs. split_and!; try done; try lia.
    split; cbn [Variant1.threads Variant1.output].
    + intros k t Hk. apply list_lookup_fmap_Some in Hk as (j & -> & Hj).
      apply lookup_seqZ in Hj as [-> Hj]. simpl.
      unfold range_start, range_end, Primes.LLONG_MIN.
      repeat case_match; nia.
    + intros k. unfold Variant1.lines_of.
      rewrite list_lookup_fmap.
      destruct (seqZ 0 thread_count !! k) as [j|]; [|done]. simpl.
      unfold Variant1.searched. simpl. by rewrite Z.sub_diag.
    + rewrite <- list_fmap_compose.
      induction (seqZ 0 thread_count) as [|j l IH]; [done|].
      simpl. unfold Variant1.searched at 1. simpl. by rewrite Z.sub_diag.
Qed.

(** A thread that has returned has looked at its whole range. *)
Lemma searched_returned t :
  Variant1.start t <= Variant1.num t ->
  Variant1.num t <= Z.max (Variant1.start t) (Variant1.end_ t + 1) ->
  Variant1.returned t = true ->
  Variant1.searched t
  = seqZ (Variant1.start t) (Variant1.end_ t - Variant1.start t + 1).
Proof.
  unfold Variant1.returned, Variant1.searched. intros H1 H2 H3%Z.ltb_lt.
  destruct (Z_le_gt_dec (Variant1.start t) (Variant1.end_ t + 1)).
  - f_equal. lia.
  - by rewrite !seqZ_nil by lia.
Qed.

(** X18: variant 1 prints each prime up to MAX_NUMBER exactly once.  For a thread
    count from 1 and a maximum below 3037000499 squared main starts its
    threads, and whatever the interleaving of the threads: the lines of
    each thread are in ascending order; every number printed is a prime
    from 2 to the maximum; unless all threads have returned one of them can
    move; and when all have returned, the numbers printed are, in some
    order, all the primes from 2 to the maximum, each once. *)
Theorem variant1_prints_each_prime_once thread_count max_number :
  1 <= thread_count <= INT_MAX ->
  Primes.LLONG_MIN <= max_number
    < Primes.last_divisor * Primes.last_divisor ->
  exists s0,
    Variant1.main_start thread_count max_number = Some s0
    /\ Variant1.output s0 = []
    /\ forall sched s,
         Variant1.run sched s0 = Some s ->
         (forall k, StronglySorted Z.lt
                      (Variant1.lines_of k (Variant1.output s)))
         /\ (forall k x, (k, x) ∈ Variant1.output s ->
               2 <= x <= max_number /\ Z.prime x)
         /\ (Variant1.all_returned s = false ->
             exists k, is_Some (Variant1.step k s))
         /\ (Variant1.all_returned s = true ->
             exists primes,
               StronglySorted Z.lt primes
               /\ (forall x, x ∈ primes
                             <-> 2 <= x <= max_number /\ Z.prime x)
               /\ snd <$> Variant1.output s ≡ₚ primes).
Proof.
  intros Htc Hmx.
  destruct (variant1_main_start thread_count max_number Htc Hmx)
    as (s0 & rs & Hstart & Hout & Hinv0 & Hrs & Hsome & Hnone).
  exists s0. split; [done|]. split; [done|].
  intros sched s Hrun.
  pose proof (variant1_inv_run _ _ _ Hinv0 Hrun) as [Hrange Hlines Hall].
  pose proof (variant1_range_run _ _ _ Hrun) as Hranges.
  assert (Hwithin : forall k t, Variant1.threads s !! k = Some t ->
            1 <= Variant1.start t <= max_number + 1
            /\ Variant1.end_ t <= max_number).
  { intros k t Hk.
    assert (Hr : (Variant1.range <$> Variant1.threads s0) !! k
                 = Some (Variant1.range t))
      by (by rewrite <- Hranges, list_lookup_fmap, Hk).
    destruct (Z_le_gt_dec max_number 0) as [Hle|Hgt].
    - by rewrite (Hnone Hle) in Hr.
    - destruct (Hsome ltac:(lia)) as [Hprod Hthreads].
      rewrite Hthreads, <- list_fmap_compose in Hr.
      apply list_lookup_fmap_Some in Hr as (j & Hj & Hin).
      apply lookup_seqZ in Hin as [-> Hin].
      unfold Variant1.range in Hj. simpl in Hj. injection Hj as -> ->.
      unfold range_start, range_end. repeat case_match; nia. }
  split_and!.
  - intros k. rewrite Hlines.
    destruct (Variant1.threads s !! k) as [t|]; [|constructor].
    apply StronglySorted_filter, StronglySorted_seqZ.
  - intros k x Hin.
    assert (Hx : x ∈ Variant1.lines_of k (Variant1.output s)).
    { unfold Variant1.lines_of. apply list_elem_of_fmap.
      exists (k, x). split; [done|]. by apply list_elem_of_filter. }
    rewrite Hlines in Hx.
    destruct (Variant1.threads s !! k) as [t|] eqn:Hk;
      [|by apply elem_of_nil in Hx].
    destruct (Hrange k t Hk) as (Hs & Hn & He).
    destruct (Hwithin k t Hk) as [Hlo Hhi].
    unfold Variant1.searched in Hx.
    apply primes_of_seqZ in Hx;
      [|unfold Primes.last_divisor in *; lia]. destruct Hx as [Hx Hp].
    split; [|done]. destruct Hp as [Hp _]. lia.
  - intros Hnot. unfold Variant1.all_returned in Hnot.
    apply forallb_false_lookup in Hnot as (k & t & Hk & Ht).
    unfold Variant1.returned in Ht. apply Z.ltb_ge in Ht.
    destruct (Hrange k t Hk) as (Hs & Hn & He).
    exists k. unfold Variant1.step. rewrite Hk. cbn [mbind option_bind].
    unfold Variant1.findPrimes_Range_Immediate_step.
    destruct (Z.leb_spec (Variant1.num t) (Variant1.end_ t)); [|lia].
    destruct (isPrime_decides (Variant1.num t)) as (b & -> & _); [lia|].
    cbn [mbind option_bind].
    rewrite ll_Some; [done|].
    unfold Primes.last_divisor, Primes.LLONG_MAX in *. lia.
  - intros Hdone. unfold Variant1.all_returned in Hdone.
    exists (Primes.primes_of (seqZ 2 (max_number - 1))).
    destruct (primes_of_seqZ 2 (max_number - 1)) as [Hsorted Hin]; [lia|].
    split; [done|].
    split; [intros x; rewrite Hin; intuition lia|].
    rewrite Hall.
    assert (Hfull :
      (fun t => Primes.primes_of (Variant1.searched t)) <$> Variant1.threads s
      = (fun r => Primes.primes_of (seqZ r.1 (r.2 - r.1 + 1)))
        <$> (Variant1.range <$> Variant1.threads s)).
    { rewrite <- list_fmap_compose. apply list_fmap_ext.
      intros k t Hk. simpl.
      destruct (Hrange k t Hk) as (Hs & Hn & He).
      rewrite searched_returned; [done|lia|lia|].
      by eapply forallb_lookup. }
    rewrite Hfull, Hranges.
    destruct (Z_le_gt_dec max_number 0) as [Hle|Hgt].
    + rewrite (Hnone Hle). simpl. by rewrite seqZ_nil by lia.
    + destruct (Hsome ltac:(lia)) as [Hprod Hthreads].
      rewrite Hthreads, <- !list_fmap_compose.
      rewrite <- (ranges_primes thread_count max_number rs) by lia.
      done.
Qed.

Lemma variant1_prints_each_prime_once_witness :
  exists s0,
    Variant1.main_start 2 10 = Some s0
    /\ Variant1.output s0 = []
    /\ forall sched s,
         Variant1.run sched s0 = Some s ->
         (forall k, StronglySorted Z.lt
                      (Variant1.lines_of k (Variant1.output s)))
         /\ (forall k x, (k, x) ∈ Variant1.output s ->
               2 <= x <= 10 /\ Z.prime x)
         /\ (Variant1.all_returned s = false ->
             exists k, is_Some (Variant1.step k s))
         /\ (Variant1.all_returned s = true ->
             exists primes,
               StronglySorted Z.lt primes
               /\ (forall x, x ∈ primes <-> 2 <= x <= 10 /\ Z.prime x)
               /\ snd <$> Variant1.output s ≡ₚ primes).
Proof. apply (variant1_prints_each_prime_once 2 10); done. Defined.

(** ** Variant 3 *)

Lemma ll_inv z z' : Primes.ll z = Some z' -> z = z'.
Proof. unfold Primes.ll. intros H. case_match; by simplify_eq. Qed.

Lemma primes_of_perm l l' :
  l ≡ₚ l' -> Primes.primes_of l ≡ₚ Primes.primes_of l'.
Proof. unfold Primes.primes_of. by intros ->. Qed.

Lemma held_insert ws k w w' :
  ws !! k = Some w ->
  (<[k := w']> ws ≫= Variant3.held) ++ Variant3.held w
  ≡ₚ (ws ≫= Variant3.held) ++ Variant3.held w'.
Proof.
  revert k. induction ws as [|w0 ws IH]; intros [|k] Hk; simplify_eq/=.
  - rewrite !(comm (++) _ (ws ≫= Variant3.held)).
    rewrite <- !app_assoc. f_equiv. apply Permutation_app_comm.
  - rewrite <- !app_assoc. f_equiv. by apply IH.
Qed.

Lemma held_insert_same ws k w w' :
  ws !! k = Some w -> Variant3.held w = [] -> Variant3.held w' = [] ->
  <[k := w']> ws ≫= Variant3.held = ws ≫= Variant3.held.
Proof.
  intros Hk Hw Hw'. revert k Hk.
  induction ws as [|w0 ws IH]; intros [|k] Hk; simplify_eq/=.
  - by rewrite Hw, Hw'.
  - by rewrite (IH k Hk).
Qed.

Lemma held_wake ws :
  (Variant3.wake <$> ws) ≫= Variant3.held = ws ≫= Variant3.held.
Proof.
  induction ws as [|w ws IH]; [done|].
  rewrite fmap_cons, !bind_cons, IH. by destruct w.
Qed.

Lemma variant3_inv_init thread_count max_number :
  variant3_inv thread_count max_number Variant3.init.
Proof. split; simpl; try done. lia. Qed.

Lemma pushed_le max_number s thread_count :
  variant3_inv thread_count max_number s ->
  0 <= Variant3.pushed max_number (Variant3.main s)
    <= Z.max 0 (max_number - 1).
Proof.
  intros Hinv. pose proof (v3_num _ _ _ Hinv) as Hnum.
  unfold Variant3.pushed. destruct (Variant3.main s); lia.
Qed.

Lemma variant3_inv_main thread_count max_number choice s s' :
  variant3_inv thread_count max_number s ->
  Variant3.main_step thread_count max_number choice s = Some s' ->
  variant3_inv thread_count max_number s'.
Proof.
  intros Hinv Hstep.
  destruct Hinv as [Hpushed Hnum Hworkers Hout Hheld Hflag Hret Hawake Hjoin].
  unfold Variant3.main_step in Hstep.
  destruct (Variant3.main s) as [i|num|num| | | |] eqn:Hpc;
    simpl in Hflag, Hpushed, Hworkers.
  - (* MSpawn *)
    destruct (Z.ltb_spec i thread_count) as [Hlt|Hge].
    + destruct (int_add i 1) as [i'|] eqn:Hi; [|done].
      apply int_add_Some in Hi as ->. simplify_eq/=.
      split; simpl; try done.
      * rewrite length_app. simpl. lia.
      * rewrite bind_app. simpl. by rewrite app_nil_r.
      * intros k num [Hk|[_ Hk]]%lookup_app_Some; [eauto|].
        by destruct (k - length (Variant3.workers s))%nat as [|[|?]].
      * intros k [Hk|[_ Hk]]%lookup_app_Some; [eauto|].
        by destruct (k - length (Variant3.workers s))%nat as [|[|?]].
    + simplify_eq/=. split; simpl; try done; lia.
  - (* MPush *)
    destruct (Z.leb_spec num max_number) as [Hle|Hgt]; simplify_eq/=.
    + split; simpl; try done; try lia.
      * rewrite app_assoc, Hpushed.
        replace (num - 1) with ((num - 2) + 1) by lia.
        rewrite seqZ_app by lia. f_equal.
        rewrite (seqZ_cons' _ 1) by lia. rewrite seqZ_nil by lia.
        f_equal. lia.
      * intros k Hk. destruct (Hret k Hk). congruence.
    + split; simpl; try done.
      rewrite Hpushed. f_equal. lia.
  - (* MNotifyOne *)
    destruct (Primes.ll (num + 1)) as [num'|] eqn:Hnum'; [|done].
    assert (num' = num + 1) as ->.
    { symmetry. by eapply ll_inv. }
    simpl in Hstep.
    destruct (existsb Variant3.asleep (Variant3.workers s)).
    + destruct (Variant3.workers s !! choice) as [[]|] eqn:Hc; try done.
      simplify_eq/=.
      split; simpl; try done; try lia.
      * rewrite Hpushed. f_equal. lia.
      * by rewrite length_insert.
      * by rewrite (held_insert_same _ _ _ _ Hc).
      * intros k n Hk.
        apply list_lookup_insert_Some in Hk as [(_ & ? & _)|[_ Hk]];
          [done|eauto].
      * intros k Hk.
        apply list_lookup_insert_Some in Hk as [(_ & ? & _)|[_ Hk]];
          [done|eauto].
    + simplify_eq/=. split; simpl; try done; try lia.
      rewrite Hpushed. f_equal. lia.
  - (* MSetDone *)
    simplify_eq/=. split; simpl; try done.
    intros k Hk. destruct (Hret k Hk). congruence.
  - (* MNotifyAll *)
    simplify_eq/=. split; simpl; try done.
    + by rewrite length_fmap.
    + by rewrite held_wake.
    + intros k n Hk. apply list_lookup_fmap_Some in Hk as ([] & Hw & Hk);
        simplify_eq/=. eauto.
    + intros k Hk. apply list_lookup_fmap_Some in Hk as ([] & Hw & Hk);
        simplify_eq/=. eauto.
    + intros _ k Hk. by apply list_lookup_fmap_Some in Hk as ([] & Hw & Hk).
  - (* MJoin *)
    destruct (forallb _ _) eqn:Hall; simplify_eq/=. split; simpl; try done.
    intros _ k w Hk. pose proof (forallb_lookup _ _ _ _ Hall Hk) as Hw.
    by destruct w.
  - done.
Qed.

Lemma variant3_inv_worker thread_count max_number k w s s' :
  variant3_inv thread_count max_number s ->
  Variant3.workers s !! k = Some w ->
  Variant3.findPrimes_Number_Immediate_step k w s = Some s' ->
  variant3_inv thread_count max_number s'.
Proof.
  intros Hinv Hk Hstep. pose proof (pushed_le _ _ _ Hinv) as Hle.
  destruct Hinv as [Hpushed Hnum Hworkers Hout Hheld Hflag Hret Hawake Hjoin].
  unfold Variant3.findPrimes_Number_Immediate_step in Hstep.
  assert (Hnot : w <> Variant3.WReturned ->
                 Variant3.main s <> Variant3.MReturned).
  { intros Hw Hm. by apply Hw, (Hjoin Hm k). }
  destruct w as [| |num|]; [|done| |done]; specialize (Hnot ltac:(done)).
  - (* WTake *)
    destruct (Variant3.task_queue s) as [|num queue] eqn:Hq.
    + destruct (Variant3.all_tasks_added s) eqn:Hadded; simplify_eq/=.
      * split; simpl; rewrite ?Hq, ?Hadded, ?length_insert; try done.
        all: try (intros Hm; by destruct (Hnot Hm)).
        -- by rewrite (held_insert_same _ _ _ _ Hk).
        -- intros j n Hj.
           apply list_lookup_insert_Some in Hj as [(_ & ? & _)|[_ Hj]];
             [done|eauto].
        -- intros Hall j Hj.
           apply list_lookup_insert_Some in Hj as [(_ & ? & _)|[_ Hj]];
             [done|]. by apply (Hawake Hall j).
      * split; simpl; rewrite ?Hq, ?Hadded, ?length_insert; try done.
        all: try (intros Hm; by destruct (Hnot Hm)).
        -- by rewrite (held_insert_same _ _ _ _ Hk).
        -- intros j n Hj.
           apply list_lookup_insert_Some in Hj as [(_ & ? & _)|[_ Hj]];
             [done|eauto].
        -- intros j Hj.
           apply list_lookup_insert_Some in Hj as [(_ & ? & _)|[_ Hj]];
             [done|]. destruct (Hret j Hj). congruence.
        -- intros Hall. exfalso.
           destruct (Variant3.main s); simpl in *; congruence.
    + simplify_eq/=.
      assert (Hin : num ∈ seqZ 2 (Variant3.pushed max_number (Variant3.main s))).
      { rewrite <- Hpushed. apply elem_of_app. right. left. }
      apply elem_of_seqZ in Hin.
      split; simpl; rewrite ?length_insert; try done;
        try (intros Hm; by destruct (Hnot Hm)).
      * by rewrite <- app_assoc.
      * rewrite primes_of_app.
        pose proof (held_insert _ _ _ (Variant3.WCheck num) Hk) as Hperm.
        simpl in Hperm. rewrite app_nil_r in Hperm.
        rewrite (primes_of_perm _ _ Hperm), primes_of_app.
        by rewrite app_assoc, Hout.
      * intros j n Hj.
        apply list_lookup_insert_Some in Hj as [(_ & ? & _)|[_ Hj]];
          [simplify_eq; lia|eauto].
      * intros j Hj.
        apply list_lookup_insert_Some in Hj as [(_ & ? & _)|[_ Hj]];
          [done|]. by destruct (Hret j Hj).
      * intros Hall j Hj.
        apply list_lookup_insert_Some in Hj as [(_ & ? & _)|[_ Hj]];
          [done|]. by apply (Hawake Hall j).
  - (* WCheck *)
    destruct (Primes.isPrime num) as [b|] eqn:Hb; [|done]. simplify_eq/=.
    split; simpl; rewrite ?length_insert; try done;
      try (intros Hm; by destruct (Hnot Hm)).
    + pose proof (held_insert _ _ _ Variant3.WTake Hk) as Hperm.
      simpl in Hperm. rewrite app_nil_r in Hperm.
      rewrite <- Hout, <- (primes_of_perm _ _ Hperm), primes_of_app.
      rewrite (primes_of_cons _ _ _ Hb). simpl. rewrite app_nil_r.
      destruct b; rewrite ?fmap_app, <- ?app_assoc; simpl.
      * f_equiv. apply Permutation_cons_append.
      * by rewrite app_nil_r.
    + intros j n Hj.
      apply list_lookup_insert_Some in Hj as [(_ & ? & _)|[_ Hj]];
        [done|eauto].
    + intros j Hj.
      apply list_lookup_insert_Some in Hj as [(_ & ? & _)|[_ Hj]];
        [done|eauto].
    + intros Hall j Hj.
      apply list_lookup_insert_Some in Hj as [(_ & ? & _)|[_ Hj]];
        [done|]. by apply (Hawake Hall j).
Qed.

Lemma variant3_inv_step thread_count max_number t s s' :
  variant3_inv thread_count max_number s ->
  Variant3.step thread_count max_number t s = Some s' ->
  variant3_inv thread_count max_number s'.
Proof.
  intros Hinv Hstep. destruct t as [choice|k|k]; simpl in Hstep.
  - by eapply variant3_inv_main.
  - destruct (Variant3.workers s !! k) as [w|] eqn:Hk; [|done].
    by eapply variant3_inv_worker.
  - destruct (Variant3.workers s !! k) as [[]|] eqn:Hk; try done.
    simplify_eq.
    destruct Hinv as [Hpushed Hnum Hworkers Hout Hheld Hflag Hret Hawake Hjoin].
    split; simpl; rewrite ?length_insert; try done.
    + by rewrite (held_insert_same _ _ _ _ Hk).
    + intros j n Hj.
      apply list_lookup_insert_Some in Hj as [(_ & ? & _)|[_ Hj]];
        [done|eauto].
    + intros j Hj.
      apply list_lookup_insert_Some in Hj as [(_ & ? & _)|[_ Hj]];
        [done|eauto].
    + intros Hall j Hj.
      apply list_lookup_insert_Some in Hj as [(_ & ? & _)|[_ Hj]];
        [done|]. by apply (Hawake Hall j).
    + intros Hm. by specialize (Hjoin Hm k _ Hk).
Qed.

Lemma variant3_inv_reachable thread_count max_number s :
  Variant3.reachable thread_count max_number s ->
  variant3_inv thread_count max_number s.
Proof.
  intros [sched Hrun].
  assert (Hgen : forall s0,
    variant3_inv thread_count max_number s0 ->
    Variant3.run thread_count max_number sched s0 = Some s ->
    variant3_inv thread_count max_number s).
  { clear Hrun. induction sched as [|t sched IH]; intros s0 Hinv Hrun;
      simpl in Hrun.
    - by simplify_eq.
    - destruct (Variant3.step thread_count max_number t s0) as [s1|] eqn:Hs1;
        [|done].
      eapply IH; [|done]. by eapply variant3_inv_step. }
  eapply Hgen; [apply variant3_inv_init|done].
Qed.

(** X20: variant 3 hands each number to one worker and prints each prime once.
    In every reachable state the numbers taken from the queue, in the order
    taken, followed by those still queued, are the numbers from 2 that main
    has pushed so far, so no number is taken twice and none is skipped;
    every number printed is a prime from 2 to the maximum, below 3037000499
    squared.  When main has returned, with at least one worker: the queue is
    empty, every number from 2 to the maximum has been taken, and the
    numbers printed are, in some order, all the primes from 2 to the
    maximum, each once. *)
Theorem variant3_prints_each_prime_once thread_count max_number s :
  max_number < Primes.last_divisor * Primes.last_divisor ->
  Variant3.reachable thread_count max_number s ->
  Variant3.taken s ++ Variant3.task_queue s
    = seqZ 2 (Variant3.pushed max_number (Variant3.main s))
  /\ (forall k x, (k, x) ∈ Variant3.output s ->
        2 <= x <= max_number /\ Z.prime x)
  /\ (Variant3.main s = Variant3.MReturned -> 1 <= thread_count ->
      Variant3.task_queue s = []
      /\ Variant3.taken s = seqZ 2 (max_number - 1)
      /\ exists primes,
           StronglySorted Z.lt primes
           /\ (forall x, x ∈ primes <-> 2 <= x <= max_number /\ Z.prime x)
           /\ snd <$> Variant3.output s ≡ₚ primes).
Proof.
  intros Hmx Hreach.
  pose proof (variant3_inv_reachable _ _ _ Hreach) as Hinv.
  pose proof (pushed_le _ _ _ Hinv) as Hle.
  destruct Hinv as [Hpushed Hnum Hworkers Hout Hheld Hflag Hret Hawake Hjoin].
  split; [done|]. split.
  - intros k x Hin.
    assert (Hx : x ∈ Primes.primes_of (Variant3.taken s)).
    { rewrite <- Hout. apply elem_of_app. left.
      apply list_elem_of_fmap. by exists (k, x). }
    unfold Primes.primes_of in Hx.
    apply list_elem_of_filter in Hx as [Hp Hx].
    assert (Hseq : x ∈ seqZ 2 (Variant3.pushed max_number (Variant3.main s))).
    { rewrite <- Hpushed. apply elem_of_app. by left. }
    apply elem_of_seqZ in Hseq.
    destruct (isPrime_decides x) as (b & Hb & Hprime); [lia|].
    split; [lia|]. apply Hprime. congruence.
  - intros Hpc Htc. specialize (Hjoin Hpc). rewrite Hpc in *. simpl in *.
    destruct (Variant3.workers s) as [|w ws] eqn:Hws; [simpl in *; lia|].
    pose proof (Hjoin 0%nat w eq_refl) as ->.
    destruct (Hret 0%nat eq_refl) as [_ Hq].
    rewrite Hq, app_nil_r in Hpushed.
    assert (Htaken : Variant3.taken s = seqZ 2 (max_number - 1)).
    { rewrite Hpushed. destruct (Z_le_gt_dec (max_number - 1) 0).
      - by rewrite !seqZ_nil by lia.
      - f_equal. lia. }
    split; [done|]. split; [done|].
    exists (Primes.primes_of (seqZ 2 (max_number - 1))).
    destruct (primes_of_seqZ 2 (max_number - 1)) as [Hsorted Hin]; [lia|].
    split; [done|].
    split; [intros x; rewrite Hin; intuition lia|].
    rewrite <- Htaken, <- Hout.
    assert (Hnone : (Variant3.WReturned :: ws) ≫= Variant3.held = []).
    { assert (Hall : Forall (fun w => w = Variant3.WReturned)
                       (Variant3.WReturned :: ws)).
      { apply Forall_lookup. intros k w Hk. by apply (Hjoin k). }
      clear -Hall. induction Hall as [|w l Hw _ IH]; [done|].
      rewrite bind_cons, IH, Hw. done. }
    by rewrite Hnone, app_nil_r.
Qed.

Lemma variant3_sample_reachable :
  Variant3.reachable 1 3
    (Variant3.State [] true Variant3.MReturned [Variant3.WReturned] [2; 3]
       [(0%nat, 2); (0%nat, 3)]).
Proof.
  exists ([Variant3.TMain 0; Variant3.TMain 0; Variant3.TWorker 0;
           Variant3.TMain 0; Variant3.TMain 0; Variant3.TMain 0;
           Variant3.TMain 0; Variant3.TMain 0; Variant3.TMain 0;
           Variant3.TMain 0]
          ++ [Variant3.TWorker 0; Variant3.TWorker 0; Variant3.TWorker 0;
              Variant3.TWorker 0; Variant3.TWorker 0; Variant3.TMain 0])%nat.
  vm_compute. reflexivity.
Defined.

Lemma variant3_prints_each_prime_once_witness :
  let s := Variant3.State [] true Variant3.MReturned [Variant3.WReturned]
             [2; 3] [(0%nat, 2); (0%nat, 3)] in
  Variant3.taken s ++ Variant3.task_queue s
    = seqZ 2 (Variant3.pushed 3 (Variant3.main s))
  /\ (forall k x, (k, x) ∈ Variant3.output s -> 2 <= x <= 3 /\ Z.prime x)
  /\ (Variant3.main s = Variant3.MReturned -> 1 <= 1 ->
      Variant3.task_queue s = []
      /\ Variant3.taken s = seqZ 2 (3 - 1)
      /\ exists primes,
           StronglySorted Z.lt primes
           /\ (forall x, x ∈ primes <-> 2 <= x <= 3 /\ Z.prime x)
           /\ snd <$> Variant3.output s ≡ₚ primes).
Proof.
  apply (variant3_prints_each_prime_once 1 3); [done|].
  apply variant3_sample_reachable.
Defined.






(** ** The division of the work in variants 1 and 2 *)



(** ** The configuration file *)

Example stoll_examples :
  Config.stoll "42"%string = Some 42
  /\ Config.stoll "  -7 threads"%string = Some (-7)
  /\ Config.stoll "+0x10"%string = Some 0
  /\ Config.stoll "four"%string = None
  /\ Config.stoll "-"%string = None
  /\ Config.stoll "9223372036854775808"%string = None
  /\ Config.stoll "-9223372036854775808"%string = Some Primes.LLONG_MIN.
Proof. repeat split. Qed.

Example settings_example :
  Config.settings
    (Some ["; the configuration"; ""; "THREAD_COUNT=4"; "MAX_NUMBER= 100";
           "MAX_NUMBER"; "COLOUR=red"]%string)
  = Some (4, 100).
Proof. reflexivity. Qed.

Lemma digit_pretty_N_char d :
  (d < 10)%N -> Config.digit (pretty_N_char d) = Some (Z.of_N d).
Proof.
  intros Hd.
  assert (d = 0 \/ d = 1 \/ d = 2 \/ d = 3 \/ d = 4 \/ d = 5 \/ d = 6
          \/ d = 7 \/ d = 8 \/ d = 9)%N
    as [->|[->|[->|[->|[->|[->|[->|[->|[->| ->]]]]]]]]] by lia;
    reflexivity.
Qed.

(** The digits [pretty] writes for a positive number are read back as that
    number, after whatever was read before. *)
Lemma read_digits_pretty_N_go x :
  (0 < x)%N ->
  exists p, forall s acc any,
    Config.read_digits (pretty_N_go x s) acc any
    = Config.read_digits s (acc * p + Z.of_N x) true.
Proof.
  induction (N.lt_wf_0 x) as [x _ IH]. intros Hx.
  pose proof (N.div_mod x 10 ltac:(lia)) as Hdiv.
  pose proof (N.mod_lt x 10 ltac:(lia)) as Hmod.
  destruct (decide (x `div` 10 = 0)%N) as [H0|Hpos].
  - exists 10. intros s acc any. rewrite pretty_N_go_step by done.
    rewrite H0, pretty_N_go_0. simpl.
    rewrite digit_pretty_N_char by done. rewrite H0 in Hdiv.
    f_equal. set (r := (x `mod` 10)%N) in *. lia.
  - destruct (IH (x `div` 10)%N) as [p Hp];
      [apply N.div_lt; lia|lia|].
    exists (p * 10). intros s acc any. rewrite pretty_N_go_step by done.
    rewrite Hp. simpl. rewrite digit_pretty_N_char by done.
    f_equal. set (r := (x `mod` 10)%N) in *.
    set (q := (x `div` 10)%N) in *. lia.
Qed.

(** What [pretty] writes for a positive number starts with a digit. *)
Lemma pretty_N_go_head x s :
  (0 < x)%N ->
  exists a t, pretty_N_go x s = String.String a t
    /\ 48 <= Config.code a <= 57.
Proof.
  revert s. induction (N.lt_wf_0 x) as [x _ IH]. intros s Hx.
  pose proof (N.mod_lt x 10 ltac:(lia)) as Hmod.
  rewrite pretty_N_go_step by done.
  destruct (decide (x `div` 10 = 0)%N) as [H0|Hpos].
  - rewrite H0, pretty_N_go_0. eexists _, _. split; [done|].
    pose proof (digit_pretty_N_char _ Hmod) as Hd.
    unfold Config.digit in Hd.
    destruct (_ && _) eqn:Hrange in Hd; [|done].
    apply andb_true_iff in Hrange as [H1 H2]. apply Z.leb_le in H1, H2.
    done.
  - apply IH; first [apply N.div_lt; lia | by apply N.neq_0_lt_0].
Qed.

Lemma pretty_N_go_app x s rest :
  pretty_N_go x s +:+ rest = pretty_N_go x (s +:+ rest).
Proof.
  revert s. induction (N.lt_wf_0 x) as [x _ IH]. intros s.
  destruct (decide (x = 0)%N) as [->|Hx]; [by rewrite !pretty_N_go_0|].
  rewrite (pretty_N_go_step x s), (pretty_N_go_step x (s +:+ rest)) by lia.
  rewrite IH by (apply N.div_lt; lia). done.
Qed.

Lemma skip_spaces_app spaces s :
  Config.skip_spaces spaces = ""%string ->
  Config.skip_spaces (spaces +:+ s) = Config.skip_spaces s.
Proof.
  induction spaces as [|a spaces IH]; [done|]. simpl.
  destruct (Config.is_space a); [done|done].
Qed.

Lemma read_digits_end rest acc :
  match rest with
  | String.String a _ => Config.digit a = None
  | String.EmptyString => True
  end ->
  Config.read_digits rest acc true = Some acc.
Proof. destruct rest as [|a rest]; [done|]. simpl. by intros ->. Qed.

Lemma skip_spaces_digit a t :
  45 <= Config.code a <= 57 ->
  Config.skip_spaces (String.String a t) = String.String a t.
Proof.
  intros Ha. simpl. unfold Config.is_space.
  destruct (Z.eqb_spec (Config.code a) 32); [lia|].
  destruct (Z.leb_spec (Config.code a) 13); [lia|].
  by rewrite andb_false_r.
Qed.

Lemma stoll_decimal z spaces rest :
  Config.skip_spaces spaces = ""%string ->
  match rest with
  | String.String a _ => Config.digit a = None
  | String.EmptyString => True
  end ->
  Config.stoll (spaces +:+ pretty z +:+ rest) = Primes.ll z.
Proof.
  intros Hspaces Hrest. unfold Config.stoll.
  rewrite skip_spaces_app by done.
  destruct z as [|x|x].
  - change (pretty 0 +:+ rest)
      with (String.String (Ascii.ascii_of_N 48) rest).
    rewrite skip_spaces_digit by (by compute).
    change (Config.code (Ascii.ascii_of_N 48) =? 45) with false.
    change (Config.code (Ascii.ascii_of_N 48) =? 43) with false.
    cbn match.
    change (Config.read_digits (String.String (Ascii.ascii_of_N 48) rest)
              0 false) with (Config.read_digits rest 0 true).
    by rewrite read_digits_end.
  - change (pretty (Z.pos x)) with (pretty_N_go (N.pos x) "").
    rewrite pretty_N_go_app. change ("" +:+ rest)%string with rest.
    destruct (pretty_N_go_head (N.pos x) rest) as (a & t & Hhead & Ha);
      [done|].
    destruct (read_digits_pretty_N_go (N.pos x)) as [p Hp]; [done|].
    pose proof (Hp rest 0 false) as Hread. rewrite Hhead in Hread |- *.
    rewrite skip_spaces_digit by lia.
    destruct (Z.eqb_spec (Config.code a) 45); [lia|].
    destruct (Z.eqb_spec (Config.code a) 43); [lia|].
    by rewrite Hread, read_digits_end.
  - change (pretty (Z.neg x) +:+ rest)
      with (String.String (Ascii.ascii_of_N 45)
              (pretty_N_go (N.pos x) "" +:+ rest)).
    rewrite pretty_N_go_app. change ("" +:+ rest)%string with rest.
    destruct (read_digits_pretty_N_go (N.pos x)) as [p Hp]; [done|].
    rewrite skip_spaces_digit by (by compute).
    change (Config.code (Ascii.ascii_of_N 45) =? 45) with true.
    cbn match.
    by rewrite Hp, read_digits_end.
Qed.

Lemma pretty_Z_nonempty (z : Z) : pretty z <> ""%string.
Proof.
  destruct z as [|x|x]; [done| |done].
  change (pretty (Z.pos x)) with (pretty_N_go (N.pos x) "").
  destruct (pretty_N_go_head (N.pos x) "") as (a & t & -> & _); done.
Qed.

Lemma loadConfig_line_other config line key :
  fst <$> Config.split_key line <> Some key ->
  (Config.loadConfig_line config line).1 !! key = config !! key.
Proof.
  intros Hkey. unfold Config.loadConfig_line.
  destruct line as [|first line]; [done|].
  destruct (Config.code first =? 59); [done|].
  destruct (Config.split_key _) as [[key' valueStr]|]; [|done].
  destruct (Config.stoll valueStr); [|done].
  cbn [fst]. apply lookup_insert_ne. by intros ->.
Qed.

Lemma loadConfig_loop_other lines config reported key :
  Forall (fun line => fst <$> Config.split_key line <> Some key) lines ->
  (Config.loadConfig_loop lines config reported).1 !! key = config !! key.
Proof.
  intros Hlines. revert config reported.
  induction Hlines as [|line lines Hline _ IH]; intros config reported;
    [done|].
  cbn [Config.loadConfig_loop].
  pose proof (loadConfig_line_other config line key Hline) as Hother.
  destruct (Config.loadConfig_line config line) as [config' bad].
  by rewrite IH.
Qed.

Lemma loadConfig_loop_app before after config reported :
  Config.loadConfig_loop (before ++ after) config reported =
    let '(config', reported') :=
      Config.loadConfig_loop before config reported in
    Config.loadConfig_loop after config' reported'.
Proof.
  revert config reported.
  induction before as [|line before IH]; intros config reported.
  - cbn. by destruct (Config.loadConfig_loop after config reported).
  - cbn [app Config.loadConfig_loop].
    destruct (Config.loadConfig_line config line) as [config' bad].
    apply IH.
Qed.

Lemma loadConfig_loop_last before line after config reported key value :
  (forall config',
     Config.loadConfig_line config' line = (<[key := value]> config', false)) ->
  Forall (fun line => fst <$> Config.split_key line <> Some key) after ->
  (Config.loadConfig_loop (before ++ line :: after) config reported).1 !! key
    = Some value.
Proof.
  intros Hline Hafter. rewrite loadConfig_loop_app.
  destruct (Config.loadConfig_loop before config reported)
    as [config' reported'].
  cbn [Config.loadConfig_loop]. rewrite Hline.
  rewrite loadConfig_loop_other by done. apply lookup_insert_eq.
Qed.

Lemma append_empty (s : string) : (s +:+ "")%string = s.
Proof.
  induction s as [|a s IH]; [done|].
  change (String.String a s +:+ "")%string
    with (String.String a (s +:+ "")). by rewrite IH.
Qed.

Lemma stoll_of_decimal z :
  Primes.LLONG_MIN <= z <= Primes.LLONG_MAX ->
  Config.stoll (pretty z) = Some z.
Proof.
  intros Hz. pose proof (stoll_decimal z "" "" eq_refl I) as Hstoll.
  rewrite (ll_Some z Hz) in Hstoll.
  change ("" +:+ pretty z +:+ "")%string with (pretty z +:+ "")%string
    in Hstoll.
  by rewrite append_empty in Hstoll.
Qed.

Lemma loadConfig_line_THREAD_COUNT config z :
  Primes.LLONG_MIN <= z <= Primes.LLONG_MAX ->
  Config.loadConfig_line config ("THREAD_COUNT=" +:+ pretty z) =
    (<["THREAD_COUNT"%string := z]> config, false).
Proof.
  intros Hz. pose proof (pretty_Z_nonempty z) as Hne.
  pose proof (stoll_of_decimal z Hz) as Hstoll.
  destruct (pretty z) as [|a s]; [done|].
  unfold Config.loadConfig_line. cbv [String.append].
  change (Config.split_key _)
    with (Some ("THREAD_COUNT"%string, String.String a s)).
  change (Config.code _ =? 59) with false. cbv iota.
  by rewrite Hstoll.
Qed.

Lemma loadConfig_line_MAX_NUMBER config z :
  Primes.LLONG_MIN <= z <= Primes.LLONG_MAX ->
  Config.loadConfig_line config ("MAX_NUMBER=" +:+ pretty z) =
    (<["MAX_NUMBER"%string := z]> config, false).
Proof.
  intros Hz. pose proof (pretty_Z_nonempty z) as Hne.
  pose proof (stoll_of_decimal z Hz) as Hstoll.
  destruct (pretty z) as [|a s]; [done|].
  unfold Config.loadConfig_line. cbv [String.append].
  change (Config.split_key _)
    with (Some ("MAX_NUMBER"%string, String.String a s)).
  change (Config.code _ =? 59) with false. cbv iota.
  by rewrite Hstoll.
Qed.

(** X25: what is written is read back.  After leading white space and
    before anything that does not start with a digit, [std::stoll] reads
    the decimal notation of a [long long] as that number, and throws on
    the notation of a number that is no [long long]. *)
Theorem stoll_pretty z spaces rest :
  Config.skip_spaces spaces = ""%string ->
  match rest with
  | String.String a _ => Config.digit a = None
  | String.EmptyString => True
  end ->
  (Primes.LLONG_MIN <= z <= Primes.LLONG_MAX ->
   Config.stoll (spaces +:+ pretty z +:+ rest) = Some z) /\
  (~ Primes.LLONG_MIN <= z <= Primes.LLONG_MAX ->
   Config.stoll (spaces +:+ pretty z +:+ rest) = None).
Proof.
  intros Hspaces Hrest. rewrite (stoll_decimal z spaces rest) by done.
  split; intros Hz; [by apply ll_Some|].
  destruct (Primes.ll z) as [z'|] eqn:Hll; [|done].
  destruct Hz. unfold Primes.ll in Hll.
  destruct (Z.leb_spec Primes.LLONG_MIN z);
    destruct (Z.leb_spec z Primes.LLONG_MAX); done.
Qed.

Lemma stoll_pretty_witness :
  Config.stoll (" " +:+ pretty (-120) +:+ " threads") = Some (-120) /\
  Config.stoll ("" +:+ pretty (2 ^ 63) +:+ "") = None.
Proof.
  split.
  - apply (stoll_pretty (-120) " " " threads"); done.
  - apply (stoll_pretty (2 ^ 63) "" ""); [done|done|].
    unfold Primes.LLONG_MIN, Primes.LLONG_MAX. lia.
Defined.

(** X26: a configuration file sets the thread count and the maximum by
    its last lines [THREAD_COUNT=<t>] and [MAX_NUMBER=<m>], in either
    order: what stands before them is overwritten, and the lines after
    them with another key (the key is all that stands before the first
    [=], spaces included), the comments and the empty lines change
    neither. *)
Theorem settings_of_file t m lines before_t after_t before_m after_m :
  Primes.LLONG_MIN <= t <= Primes.LLONG_MAX ->
  Primes.LLONG_MIN <= m <= Primes.LLONG_MAX ->
  lines = before_t ++ ("THREAD_COUNT=" +:+ pretty t)%string :: after_t ->
  lines = before_m ++ ("MAX_NUMBER=" +:+ pretty m)%string :: after_m ->
  Forall (fun line =>
            fst <$> Config.split_key line <> Some "THREAD_COUNT"%string)
         after_t ->
  Forall (fun line =>
            fst <$> Config.split_key line <> Some "MAX_NUMBER"%string)
         after_m ->
  Config.settings (Some lines) = Some (t, m).
Proof.
  intros Ht Hm Hlines_t Hlines_m Hafter_t Hafter_m.
  unfold Config.settings, Config.loadConfig.
  pose proof (loadConfig_loop_last before_t _ after_t ∅ [] _ t
                (fun config => loadConfig_line_THREAD_COUNT config t Ht)
                Hafter_t) as Hthreads.
  pose proof (loadConfig_loop_last before_m _ after_m ∅ [] _ m
                (fun config => loadConfig_line_MAX_NUMBER config m Hm)
                Hafter_m) as Hmax.
  rewrite <- Hlines_t in Hthreads. rewrite <- Hlines_m in Hmax.
  destruct (Config.loadConfig_loop lines ∅ []) as [config reported].
  cbn [fst] in Hthreads, Hmax. by rewrite Hthreads, Hmax.
Qed.

Lemma settings_of_file_witness :
  Config.settings
    (Some ["; the search"; "THREAD_COUNT=many"; "MAX_NUMBER=7";
           "THREAD_COUNT=2"; ""; "MAX_NUMBER=100"; "THREAD_COUNT =9";
           ";MAX_NUMBER=5"]%string)
    = Some (2, 100).
Proof.
  apply (settings_of_file 2 100 _
           ["; the search"; "THREAD_COUNT=many"; "MAX_NUMBER=7"]%string
           [""; "MAX_NUMBER=100"; "THREAD_COUNT =9"; ";MAX_NUMBER=5"]%string
           ["; the search"; "THREAD_COUNT=many"; "MAX_NUMBER=7";
            "THREAD_COUNT=2"; ""]%string
           ["THREAD_COUNT =9"; ";MAX_NUMBER=5"]%string).
  - done.
  - done.
  - reflexivity.
  - reflexivity.
  - repeat (apply Forall_cons_2; [by vm_compute|]). apply Forall_nil_2.
  - repeat (apply Forall_cons_2; [by vm_compute|]). apply Forall_nil_2.
Defined.

(** X27: a file in which no line has the key [THREAD_COUNT], or none the
    key [MAX_NUMBER], is incomplete: main prints its message and returns
    1.  A line [THREAD_COUNT = 4] does not have the key [THREAD_COUNT],
    its key ending in a space. *)
Theorem settings_incomplete lines :
  Forall (fun line =>
            fst <$> Config.split_key line <> Some "THREAD_COUNT"%string)
         lines \/
  Forall (fun line =>
            fst <$> Config.split_key line <> Some "MAX_NUMBER"%string)
         lines ->
  Config.settings (Some lines) = None.
Proof.
  intros Hlines. unfold Config.settings, Config.loadConfig.
  destruct Hlines as [Hlines|Hlines];
    apply (loadConfig_loop_other lines ∅ []) in Hlines;
    destruct (Config.loadConfig_loop lines ∅ []) as [config reported];
    cbn [fst] in Hlines; rewrite Hlines, lookup_empty; [done|].
  by destruct (config !! "THREAD_COUNT"%string).
Qed.

Lemma settings_incomplete_witness :
  Config.settings
    (Some ["THREAD_COUNT = 4"; "MAX_NUMBER=100"]%string) = None.
Proof.
  apply (settings_incomplete ["THREAD_COUNT = 4"; "MAX_NUMBER=100"]%string).
  left. repeat (apply Forall_cons_2; [by vm_compute|]). apply Forall_nil_2.
Defined.
